(** * make_shaders.py: shader wrapper generator

    A shallow embedding of [make_shaders.py] (window manager, GLES
    compositor): the script scans GLSL stage sources for [uniform] and
    [attribute] declarations and renders one C++ wrapper class per shader
    program.

    Python [str] values are byte strings; they are modelled by [string]
    (a list of 8-bit [ascii]).  Python dictionaries used as maps are
    [gmap]s, enumerated in the order that the environment of the run
    gives; lists are [list]s, and a raised exception is the left injection
    of a sum. *)

From Stdlib Require Import Ascii.
From stdpp Require Import gmap strings list sorting.

Local Open Scope stdpp_scope.

(** ** Python string primitives *)

Module Py.

(** [sep.join(l)] *)
Fixpoint join (sep : string) (l : list string) : string :=
  match l with
  | [] => ""
  | [x] => x
  | x :: l' => x +:+ sep +:+ join sep l'
  end.

(** [s.split(sep)] for a one-character separator: the pieces between
    separators, empty pieces included; never the empty list. *)
Fixpoint split (sep : ascii) (s : string) : list string :=
  match s with
  | "" => [""]
  | String c s' =>
      if Ascii.eqb c sep then "" :: split sep s'
      else match split sep s' with
           | [] => [String c ""]
           | w :: ws => String c w :: ws
           end
  end.

Definition nat_of (c : ascii) : nat := nat_of_ascii c.

(** [islower], [isupper], [toupper], [tolower] of the C locale, which is
    what [str] methods use in Python 2. *)
Definition islower (c : ascii) : bool :=
  (97 <=? nat_of c)%nat && (nat_of c <=? 122)%nat.
Definition isupper (c : ascii) : bool :=
  (65 <=? nat_of c)%nat && (nat_of c <=? 90)%nat.
Definition toupper (c : ascii) : ascii :=
  if islower c then ascii_of_nat (nat_of c - 32) else c.
Definition tolower (c : ascii) : ascii :=
  if isupper c then ascii_of_nat (nat_of c + 32) else c.

(** [s.title()]: [prev] is CPython's [previous_is_cased] flag. *)
Fixpoint title_from (prev : bool) (s : string) : string :=
  match s with
  | "" => ""
  | String c s' =>
      if islower c then
        String (if prev then c else toupper c) (title_from true s')
      else if isupper c then
        String (if prev then tolower c else c) (title_from true s')
      else String c (title_from false s')
  end.
Definition title (s : string) : string := title_from false s.

Definition nl : ascii := "010"%char.
Definition NL : string := String nl "".
(** The double quote, as a string. *)
Definition dq : string := String "034"%char "".
(** The backslash, as a string. *)
Definition bs : string := String "092"%char "".

(** [n * s] *)
Fixpoint repeat (s : string) (n : nat) : string :=
  match n with
  | 0 => ""
  | S n' => s +:+ repeat s n'
  end.

(** [s.lstrip('\n')] *)
Fixpoint lstrip_nl (s : string) : string :=
  match s with
  | String c s' => if Ascii.eqb c nl then lstrip_nl s' else s
  | "" => ""
  end.

(** [s.rstrip] of newlines: every trailing newline is removed. *)
Fixpoint rstrip_nl (s : string) : string :=
  match s with
  | "" => ""
  | String c s' =>
      match rstrip_nl s' with
      | "" => if Ascii.eqb c nl then "" else String c ""
      | r => String c r
      end
  end.

(** Iterating over a file object: the text cut after each newline, the
    newline kept; a last line without newline is yielded as it is. *)
Fixpoint readlines (s : string) : list string :=
  match s with
  | "" => []
  | String c s' =>
      if Ascii.eqb c nl then String c "" :: readlines s'
      else match readlines s' with
           | [] => [String c ""]
           | l :: ls => String c l :: ls
           end
  end.

(** The whitespace class [\s] of the [re] module for byte patterns
    without flags: space, tab, newline, carriage return, form feed and
    vertical tab. *)
Definition isspace (c : ascii) : bool :=
  match c with
  | "009" | "010" | "011" | "012" | "013" | " " => true
  | _ => false
  end%char.

End Py.

(** ** A backtracking matcher for the fragment of [re] the script uses *)

Module Re.

Inductive regex : Type :=
| Bol                        (* ^ *)
| Cls (p : ascii → bool)     (* one character of a class *)
| Eps
| Seq (r1 r2 : regex)
| Alt (r1 r2 : regex)        (* r1|r2, left alternative first *)
| Star (r : regex)           (* greedy r* *)
| Group (n : nat) (r : regex).

Fixpoint Lit (s : string) : regex :=
  match s with
  | "" => Eps
  | String c s' => Seq (Cls (Ascii.eqb c)) (Lit s')
  end.
Definition Plus (r : regex) : regex := Seq r (Star r).

Definition space : regex := Cls Py.isspace.              (* \s *)
Definition nonspace : regex := Cls (λ c, negb (Py.isspace c)). (* \S *)

(** The groups matched so far, by number. *)
Abbreviation caps := (gmap nat string).

(** [take n s]: the first [n] characters of [s]. *)
Fixpoint take (n : nat) (s : string) : string :=
  match n, s with
  | S n', String c s' => String c (take n' s')
  | _, _ => ""
  end.

(** The matcher is written in continuation-passing style: [k] is the rest
    of the pattern, called on the remaining input, the position reached and
    the groups; a [None] from [k] makes the matcher try its next choice, as
    the backtracking engine of [re] does. *)
Abbreviation cont := (string → nat → caps → option caps).

(** A greedy star tries one more iteration of its body before it tries the
    rest of the pattern; an iteration that consumes nothing is not
    repeated.  [fuel] bounds the number of iterations and is larger than
    the length of the input. *)
Fixpoint star_loop (body : string → nat → caps → cont → option caps)
    (k : cont) (fuel : nat) (s : string) (pos : nat) (c : caps)
    : option caps :=
  match fuel with
  | 0 => k s pos c
  | S fuel' =>
      match body s pos c (λ s' pos' c',
              if decide (String.length s' < String.length s)
              then star_loop body k fuel' s' pos' c' else None) with
      | Some x => Some x
      | None => k s pos c
      end
  end.

Fixpoint run (r : regex) (s : string) (pos : nat) (c : caps) (k : cont)
    {struct r} : option caps :=
  match r with
  | Bol => if decide (pos = 0) then k s pos c else None
  | Cls p =>
      match s with
      | String a s' => if p a then k s' (S pos) c else None
      | "" => None
      end
  | Eps => k s pos c
  | Seq r1 r2 => run r1 s pos c (λ s' pos' c', run r2 s' pos' c' k)
  | Alt r1 r2 =>
      match run r1 s pos c k with
      | Some x => Some x
      | None => run r2 s pos c k
      end
  | Star r0 => star_loop (run r0) k (S (String.length s)) s pos c
  | Group n r0 =>
      run r0 s pos c (λ s' pos' c',
        k s' pos' (<[n := take (String.length s - String.length s') s]> c'))
  end.

(** [re.compile(r).match(s)]: anchored at the start of [s], not at its
    end. *)
Definition match_ (r : regex) (s : string) : option caps :=
  run r s 0 ∅ (λ _ _ c, Some c).

(** [m.group(n)].  A group that took no part in the match is [None] in
    Python and the empty string here; both groups of the script's pattern
    take part in each of its matches. *)
Definition group (m : caps) (n : nat) : string := default "" (m !! n).

(** The words a pattern matches, declaratively: [Matches r pos w c c']
    says that [r] can consume the word [w] at position [pos], turning the
    groups [c] into [c'].  The matcher [run] searches these derivations in
    the order of the backtracking engine. *)
Inductive Matches : regex → nat → string → caps → caps → Prop :=
| MBol c : Matches Bol 0 "" c c
| MCls p a pos c : p a = true → Matches (Cls p) pos (String a "") c c
| MEps pos c : Matches Eps pos "" c c
| MSeq r1 r2 pos w1 w2 c c1 c2 :
    Matches r1 pos w1 c c1 →
    Matches r2 (pos + String.length w1) w2 c1 c2 →
    Matches (Seq r1 r2) pos (w1 +:+ w2) c c2
| MAltL r1 r2 pos w c c' :
    Matches r1 pos w c c' → Matches (Alt r1 r2) pos w c c'
| MAltR r1 r2 pos w c c' :
    Matches r2 pos w c c' → Matches (Alt r1 r2) pos w c c'
| MStar0 r pos c : Matches (Star r) pos "" c c
| MStarS r pos w1 w2 c c1 c2 :
    w1 ≠ "" →
    Matches r pos w1 c c1 →
    Matches (Star r) (pos + String.length w1) w2 c1 c2 →
    Matches (Star r) pos (w1 +:+ w2) c c2
| MGroup n r pos w c c' :
    Matches r pos w c c' → Matches (Group n r) pos w c (<[n := w]> c').

(** What it means for a matcher [body] to find only, and to find all, the
    matches of [r]. *)
Definition sound_body (body : string → nat → caps → cont → option caps)
    (r : regex) : Prop :=
  ∀ s pos c k x, body s pos c k = Some x →
    ∃ w s' c', s = w +:+ s' ∧ Matches r pos w c c'
               ∧ k s' (pos + String.length w) c' = Some x.

Definition complete_body (body : string → nat → caps → cont → option caps)
    (r : regex) : Prop :=
  ∀ pos w c c', Matches r pos w c c' →
    ∀ s' k, is_Some (k s' (pos + String.length w) c') →
            is_Some (body (w +:+ s') pos c k).

End Re.

(** ** The shape of a declaration line *)

Fixpoint all_chars (p : ascii → bool) (s : string) : bool :=
  match s with
  | "" => true
  | String c s' => p c && all_chars p s'
  end.

(** A run of whitespace, possibly empty. *)
Definition is_ws (w : string) : Prop := all_chars Py.isspace w = true.
(** A token: a non-empty run of characters other than whitespace. *)
Definition is_token (w : string) : Prop :=
  w ≠ "" ∧ all_chars (λ c, negb (Py.isspace c)) w = true.
(** A token and the whitespace that ends it. *)
Definition spaced_token (t : string) : Prop :=
  ∃ a b, t = a +:+ b ∧ is_token a ∧ b ≠ "" ∧ is_ws b.

Definition flatten (l : list string) : string := foldr String.app "" l.

(** [decl_shape line kw ident]: [line] starts with optional whitespace, the
    keyword [kw], whitespace, any number of whitespace-ended tokens, the
    token [ident], optional whitespace and a semicolon. *)
Definition decl_shape (line kw ident : string) : Prop :=
  ∃ ws ws1 toks ws2 rest,
    line = ws +:+ kw +:+ ws1 +:+ flatten toks +:+ ident +:+ ws2 +:+ ";" +:+ rest
    ∧ is_ws ws ∧ (kw = "uniform" ∨ kw = "attribute")
    ∧ ws1 ≠ "" ∧ is_ws ws1
    ∧ Forall spaced_token toks
    ∧ is_token ident ∧ is_ws ws2.

(** [slot_re = re.compile(r'^\s*(uniform|attribute)\s+(?:\S+\s+)*(\S+)\s*;')] *)
Definition slot_re : Re.regex :=
  Re.Seq Re.Bol
 (Re.Seq (Re.Star Re.space)
 (Re.Seq (Re.Group 1 (Re.Alt (Re.Lit "uniform") (Re.Lit "attribute")))
 (Re.Seq (Re.Plus Re.space)
 (Re.Seq (Re.Star (Re.Seq (Re.Plus Re.nonspace) (Re.Plus Re.space)))
 (Re.Seq (Re.Group 2 (Re.Plus Re.nonspace))
 (Re.Seq (Re.Star Re.space)
         (Re.Lit ";"))))))).


(** ** Exceptions *)

Inductive exn : Set := IOError | AssertionError | KeyError | ValueError.

Global Instance exn_eq_dec : EqDecision exn.
Proof. solve_decision. Defined.

(** A computation that returns a value or raises. *)
Definition result (A : Type) : Type := exn + A.
Definition raise {A} (e : exn) : result A := inl e.
Global Instance result_ret : MRet result := λ A x, inr x.
Global Instance result_bind : MBind result := λ A B f x,
  match x with
  | inl e => inl e
  | inr a => f a
  end.
Global Instance result_fmap : FMap result := λ A B f x,
  match x with
  | inl e => inl e
  | inr a => inr (f a)
  end.

(** A [for] loop whose body may raise: the accumulator is threaded from
    left to right and the first exception ends the loop. *)
Fixpoint for_each `{MBind M, MRet M} {A S}
    (body : S → A → M S) (st : S) (l : list A) : M S :=
  match l with
  | [] => mret st
  | x :: l' => st' ← body st x; for_each body st' l'
  end.

(** [d[k]] on a dictionary. *)
Definition getitem {V} (d : gmap string V) (k : string) : result V :=
  match d !! k with
  | Some v => mret v
  | None => raise KeyError
  end.

(** ** The environment of a run

    Three things that a run meets are not decided by the script: the order
    in which the interpreter enumerates a dictionary, whether a path can be
    opened for writing, and whether the data written reach the file.  They
    are the fields of [Env], and the statements about a run hold in every
    environment.

    [iter_keys history] is the order in which a dictionary enumerates its
    keys when they were inserted in the order [history] (a key may be
    inserted more than once): some arrangement of the keys, which depends
    on the hash values and on the collisions met, and is the same each
    time the dictionary is enumerated.  [can_open path] tells whether
    [file(path, 'w')] returns; it raises [IOError] otherwise, when the
    directory of the path is missing or the path cannot be written.
    [write_fault path data] is [None] when writing [data] to [path] and
    closing the file succeed, and [Some part] when [IOError] is raised
    with only the prefix [part] of the data in the file. *)
Class Env : Type := {
  iter_keys : list string → list string;
  iter_keys_perm history : iter_keys history ≡ₚ remove_dups history;
  can_open : string → bool;
  write_fault : string → string → option string;
  write_fault_prefix path data part :
    write_fault path data = Some part → ∃ rest, data = part +:+ rest
}.

(** An environment from an order of enumeration, the paths that can be
    opened and the paths that can be written; a write to another path
    raises before any data reach the file. *)
Definition env_of (order : list string → list string)
    (order_perm : ∀ history, order history ≡ₚ remove_dups history)
    (openable writable : string → bool) : Env.
Proof.
  refine {| iter_keys := order;
            iter_keys_perm := order_perm;
            can_open := openable;
            write_fault path data := if writable path then None else Some "" |}.
  intros path data part H. destruct (writable path); [discriminate H|].
  exists data. injection H as <-. reflexivity.
Defined.

(** The environment without faults in which a dictionary enumerates its
    keys in the order of their first insertion. *)
Definition plain_env : Env :=
  env_of remove_dups (λ history, reflexivity (remove_dups history))
         (λ _, true) (λ _, true).

(** The same, with the keys enumerated the other way round. *)
Definition reversed_env : Env :=
  env_of (λ history, reverse (remove_dups history))
         (λ history, reverse_Permutation (remove_dups history))
         (λ _, true) (λ _, true).

(** ** Dictionaries

    The content of a dictionary is a [gmap]; where the script enumerates
    it, the keys come in the order [iter_keys] gives for the insertions
    that built it. *)

(** A dictionary literal [{k1: v1, ...}]: the items are inserted in the
    order written. *)
Definition dict_literal {V} (items : list (string * V)) : gmap string V :=
  foldl (λ d item, <[item.1 := item.2]> d) ∅ items.

(** [d.items()], for the dictionary [d] built by inserting the keys
    [history]. *)
Definition iteritems {env : Env} {V} (history : list string)
    (d : gmap string V) : list (string * V) :=
  omap (λ k, (k,.) <$> d !! k) (iter_keys history).

(** [d.itervalues()] *)
Definition itervalues {env : Env} {V} (history : list string)
    (d : gmap string V) : list V :=
  omap (d !!.) (iter_keys history).

(** ** Files

    The file system is a map from paths to contents.  Reading a path that
    is absent raises [IOError].  Opening a path for writing creates or
    truncates it, or raises [IOError] and leaves the file system as it is
    when the environment does not let the path be opened.  A write appends
    to what the handle has written: all the data, or the part of them that
    reaches the file when the write raises.  [write] stands for the two
    calls [f.write(data)] and [f.close()], by which the data are in the
    file. *)

Abbreviation files := (gmap string string).

Definition io (A : Type) : Type := files → result A * files.
Global Instance io_ret : MRet io := λ A x fs, (inr x, fs).
Global Instance io_bind : MBind io := λ A B f m fs,
  match m fs with
  | (inl e, fs') => (inl e, fs')
  | (inr a, fs') => f a fs'
  end.
Definition lift {A} (r : result A) : io A := λ fs, (r, fs).

Definition read_file (path : string) : io string := λ fs,
  match fs !! path with
  | Some text => (inr text, fs)
  | None => (inl IOError, fs)
  end.
Definition open_w {env : Env} (path : string) : io unit := λ fs,
  if can_open path then (inr (), <[path := ""]> fs) else (inl IOError, fs).
Definition write {env : Env} (path data : string) : io unit := λ fs,
  let written := default "" (fs !! path) in
  match write_fault path data with
  | None => (inr (), <[path := written +:+ data]> fs)
  | Some part => (inl IOError, <[path := written +:+ part]> fs)
  end.

(** ** [string.Template] *)

Module Template.

Definition is_idstart (c : ascii) : bool :=
  Py.islower c || Py.isupper c || Ascii.eqb c "_"%char.
Definition is_digit (c : ascii) : bool :=
  (48 <=? Py.nat_of c)%nat && (Py.nat_of c <=? 57)%nat.
Definition is_idchar (c : ascii) : bool := is_idstart c || is_digit c.

Inductive mode : Type :=
| Txt                    (* plain text *)
| Dollar                 (* just after a [$] *)
| Name (acc : string)    (* inside [$name] *)
| Braced (acc : string). (* inside [${name}] *)

Definition lookup (subs : gmap string string) (k : string) : result string :=
  getitem subs k.

(** [Template(t).substitute] applied to the dictionary [subs]: [$$] is a
    dollar, [$name] and [${name}] are replaced by [subs[name]] ([KeyError]
    when absent), any other use of [$] is a [ValueError].  Substituted text
    is not scanned again. *)
Fixpoint go (subs : gmap string string) (m : mode) (t : string)
    : result string :=
  match t with
  | "" =>
      match m with
      | Txt => mret ""
      | Name acc => lookup subs acc
      | Dollar | Braced _ => raise ValueError
      end
  | String c t' =>
      match m with
      | Txt =>
          if Ascii.eqb c "$"%char then go subs Dollar t'
          else String c <$> go subs Txt t'
      | Dollar =>
          if Ascii.eqb c "$"%char then String c <$> go subs Txt t'
          else if Ascii.eqb c "{"%char then go subs (Braced "") t'
          else if is_idstart c then go subs (Name (String c "")) t'
          else raise ValueError
      | Name acc =>
          if is_idchar c then go subs (Name (acc +:+ String c "")) t'
          else
            v ← lookup subs acc;
            rest ← (if Ascii.eqb c "$"%char then go subs Dollar t'
                    else String c <$> go subs Txt t');
            mret (v +:+ rest)
      | Braced acc =>
          if Ascii.eqb c "}"%char then
            match acc with
            | "" => raise ValueError
            | _ => v ← lookup subs acc; rest ← go subs Txt t';
                   mret (v +:+ rest)
            end
          else if (match acc with "" => is_idstart c | _ => is_idchar c end)
          then go subs (Braced (acc +:+ String c "")) t'
          else raise ValueError
      end
  end.

Definition substitute (t : string) (subs : gmap string string)
    : result string :=
  go subs Txt t.

End Template.


(** ** The script's constants *)

Definition header : string := "
// Auto generated DO NOT edit.

#ifndef WINDOW_MANAGER_GLES_SHADERS_H_
#define WINDOW_MANAGER_GLES_SHADERS_H_

#include <GLES2/gl2.h>

#include " +:+ Py.dq +:+ "base/basictypes.h" +:+ Py.dq +:+ "
#include " +:+ Py.dq +:+ "window_manager/compositor/gles/shader_base.h" +:+ Py.dq +:+ "

namespace window_manager {

$Headers

}  // namespace window_manager

#endif  // WINDOW_MANAGER_GLES_SHADERS_H_
".

Definition implementation : string := "
// Auto generated DO NOT edit.

#include " +:+ Py.dq +:+ "window_manager/compositor/gles/shaders.h" +:+ Py.dq +:+ "

#include <GLES2/gl2.h>

#include " +:+ Py.dq +:+ "base/logging.h" +:+ Py.dq +:+ "

#include " +:+ Py.dq +:+ "window_manager/compositor/gles/shader_base.h" +:+ Py.dq +:+ "

namespace window_manager {

$Sources

$Implementations

}  // namespace window_manager
".

Definition shader_template : string := "
class $ShaderName : public Shader {
 public:
  $ShaderName();

$Accessors

 private:
$Slots

  DISALLOW_COPY_AND_ASSIGN($ShaderName);
};
".

Definition ctor_template : string := "
$ShaderName::$ShaderName()
    : Shader($VertexSource, $FragmentSource) {
$FetchSlots
$UsedVertexAttribs
}
".

(** The literal of the dictionary [shaders]: its items as they are
    written.  The dictionary is [dict_literal shaders], and [shaders.*1] is
    the order in which its keys are inserted. *)
Definition shaders : list (string * string) :=
  [("TexColorVertex", "compositor/gles/tex_color.glslv");
   ("TexColorFragment", "compositor/gles/tex_color.glslf");
   ("TexShadeVertex", "compositor/gles/tex_shade.glslv");
   ("TexShadeFragment", "compositor/gles/tex_shade.glslf");
   ("NoAlphaColorFragment", "compositor/gles/noalpha_color.glslf");
   ("NoAlphaShadeFragment", "compositor/gles/noalpha_shade.glslf")].

Definition programs : list (string * string * string) :=
  [("TexColorShader", "TexColorVertex", "TexColorFragment");
   ("TexShadeShader", "TexShadeVertex", "TexShadeFragment");
   ("NoAlphaColorShader", "TexColorVertex", "NoAlphaColorFragment");
   ("NoAlphaShadeShader", "TexShadeVertex", "NoAlphaShadeFragment")].

(** [CamelCase(identifier)] *)
Definition CamelCase (identifier : string) : string :=
  Py.join "" (Py.title <$> Py.split "_"%char identifier).

(** ** class Shader *)

(** A slot is the dictionary [{'type': ..., 'name': ...}]. *)
Module Slot.
Record t : Type := Build { type : string; name : string }.
Global Instance eq_dec : EqDecision t.
Proof. solve_decision. Defined.
End Slot.

Module Shader.

Record t : Type := Build {
  name : string;
  source : list string;
  slots : list Slot.t
}.

(** The body of the loop of [_Parse], on the pair of [self.source] and
    [self.slots]. *)
Definition parse_line (st : list string * list Slot.t) (line : string)
    : list string * list Slot.t :=
  let line := Py.rstrip_nl line in
  let source := st.1 ++ [line] in
  match Re.match_ slot_re line with
  | Some m => (source, st.2 ++ [Slot.Build (Re.group m 1) (Re.group m 2)])
  | None => (source, st.2)
  end.

(** What the loop body adds to [self.slots] for a stripped line. *)
Definition slot_of_line (line : string) : option Slot.t :=
  m ← Re.match_ slot_re line;
  Some (Slot.Build (Re.group m 1) (Re.group m 2)).

(** The loop of [_Parse] over the text of the file. *)
Definition parse_text (text : string) : list string * list Slot.t :=
  foldl parse_line ([], []) (Py.readlines text).

Definition _Parse (filename : string) : io (list string * list Slot.t) :=
  text ← read_file filename;
  mret (parse_text text).

Definition __init__ (name filename : string) : io t :=
  '(source, slots) ← _Parse filename;
  mret (Build name source slots).

(** The object [Shader(name, filename)] when the file holds [text]. *)
Definition of_text (name text : string) : t :=
  Build name (parse_text text).1 (parse_text text).2.

Definition SourceName (self : t) : string := "k" +:+ name self +:+ "Src".

(** [out[-1] += ';'] *)
Definition add_to_last (out : list string) (s : string) : list string :=
  match reverse out with
  | [] => out
  | x :: r => reverse ((x +:+ s) :: r)
  end.

Definition QuotedSource (self : t) : string :=
  let out := ["static const char* " +:+ SourceName self +:+ " ="] in
  let out :=
    foldl (λ out line,
             out ++ ["    " +:+ Py.dq +:+ line +:+ Py.bs +:+ "n" +:+ Py.dq])
          out (source self) in
  Py.join Py.NL (add_to_last out ";").

End Shader.

(** ** class Program *)

Module Program.

Record t : Type := Build {
  name : string;
  vertex : Shader.t;
  fragment : Shader.t;
  slots : gmap string string;
  subs : gmap string string
}.

(** The body of the loop of [_MakeSlots]: the assertion, then the
    assignment. *)
Definition add_slot (slots : gmap string string) (slot : Slot.t)
    : result (gmap string string) :=
  if decide (is_Some (slots !! Slot.name slot)) then raise AssertionError
  else mret (<[Slot.name slot := Slot.type slot]> slots).

(** The set [names] that the method computes first is never used and is
    left out. *)
Definition _MakeSlots (vertex fragment : Shader.t)
    : result (gmap string string) :=
  let all_slots := Shader.slots vertex ++ Shader.slots fragment in
  for_each add_slot ∅ all_slots.

(** [sorted(self.slots)]: the keys, in increasing order of the byte-wise
    comparison of strings. *)
Definition sorted (slots : gmap string string) : list string :=
  merge_sort String.le (map_to_list slots).*1.

Definition accessors : gmap string string :=
  {[ "uniform" := "Uniform"; "attribute" := "Attrib" ]}.

(** The format strings of the rendering methods, applied. *)
Definition fmt_fetch (slot acc : string) : string :=
  "  " +:+ slot +:+ "_ = glGet" +:+ acc +:+ "Location(program(), "
  +:+ Py.dq +:+ slot +:+ Py.dq +:+ ");".
Definition fmt_check (slot : string) : string :=
  "  CHECK(" +:+ slot +:+ "_ >= 0);".
Definition fmt_slot (slot : string) : string :=
  "  GLint " +:+ slot +:+ "_;".
Definition fmt_shift1 (attrib : string) : string :=
  "1 << " +:+ attrib +:+ "_".
Definition fmt_shift (attrib : string) : string :=
  "(1 << " +:+ attrib +:+ "_)".
Definition fmt_accessor (slot : string) : string :=
  "  GLint " +:+ CamelCase slot +:+ "Location() const { return "
  +:+ slot +:+ "_; }".

(** The body of the loop of [FetchSlots]. *)
Definition fetch_body (slots : gmap string string)
    (out : list string) (slot : string) : result (list string) :=
  kind ← getitem slots slot;
  acc ← getitem accessors kind;
  let out := out ++ [fmt_fetch slot acc] in
  mret (out ++ [fmt_check slot]).

(** The list [out] that [FetchSlots] builds. *)
Definition FetchSlots_out (slots : gmap string string)
    : result (list string) :=
  for_each (fetch_body slots) [] (sorted slots).

Definition FetchSlots (slots : gmap string string) : result string :=
  out ← FetchSlots_out slots;
  mret (Py.join Py.NL out).

Definition Slots (slots : gmap string string) : string :=
  let out := foldl (λ out slot, out ++ [fmt_slot slot]) [] (sorted slots) in
  Py.join Py.NL out.

(** The list [attribs] that [UsedVertexAttribs] collects. *)
Definition attribs (slots : gmap string string) : list string :=
  foldl (λ attribs slot,
           if decide (slots !! slot = Some "attribute")
           then attribs ++ [slot] else attribs)
        [] (sorted slots).

Definition prefix : string := "  SetUsedVertexAttribs(".
Definition separator : string :=
  " |" +:+ Py.NL +:+ Py.repeat " " (String.length prefix).

Definition UsedVertexAttribs (slots : gmap string string) : string :=
  let attribs := attribs slots in
  let out :=
    if decide (length attribs = 1) then
      fmt_shift1 (default "" (attribs !! 0))
    else Py.join separator (fmt_shift <$> attribs)
  in
  prefix +:+ out +:+ ");".

Definition Accessors (slots : gmap string string) : string :=
  let out :=
    foldl (λ out slot, out ++ [fmt_accessor slot]) [] (sorted slots) in
  Py.join Py.NL out.

Definition __init__ (name : string) (vertex fragment : Shader.t)
    : result t :=
  slots ← _MakeSlots vertex fragment;
  let Accessors := Accessors slots in
  FetchSlots ← FetchSlots slots;
  mret (Build name vertex fragment slots
          {[ "Accessors" := Accessors;
             "FetchSlots" := FetchSlots;
             "FragmentSource" := Shader.SourceName fragment;
             "ShaderName" := name;
             "Slots" := Slots slots;
             "UsedVertexAttribs" := UsedVertexAttribs slots;
             "VertexSource" := Shader.SourceName vertex ]}).

Definition Header (self : t) : result string :=
  Template.substitute (Py.lstrip_nl shader_template) (subs self).

Definition Implementation (self : t) : result string :=
  Template.substitute (Py.lstrip_nl ctor_template) (subs self).

End Program.

(** ** main *)

(** [for x in xs: ys.append(f(x))] with a body that may raise. *)
Definition map_result {A B} (f : A → result B) (l : list A) : result (list B) :=
  for_each (λ acc x, y ← f x; mret (acc ++ [y])) [] l.

(** The body of the first loop of [main]. *)
Definition load_body (shader_objects : gmap string Shader.t)
    (item : string * string) : io (gmap string Shader.t) :=
  let '(name, filename) := item in
  sh ← Shader.__init__ name filename;
  mret (<[name := sh]> shader_objects).

Definition load_shaders (shaders : list (string * string))
    : io (gmap string Shader.t) :=
  for_each load_body ∅ shaders.

(** The body of the second loop of [main]. *)
Definition build_body (shader_objects : gmap string Shader.t)
    (program_objects : list Program.t) (item : string * string * string)
    : result (list Program.t) :=
  let '(name, vertex, fragment) := item in
  v ← getitem shader_objects vertex;
  f ← getitem shader_objects fragment;
  p ← Program.__init__ name v f;
  mret (program_objects ++ [p]).

Definition build_programs (programs : list (string * string * string))
    (shader_objects : gmap string Shader.t) : result (list Program.t) :=
  for_each (build_body shader_objects) [] programs.

(** The dictionary [subs] of [main].  [history] is the order in which
    [shader_objects] received its keys, which decides the order of
    [shader_objects.itervalues()]. *)
Definition render {env : Env} (program_objects : list Program.t)
    (history : list string) (shader_objects : gmap string Shader.t)
    : result (gmap string string) :=
  headers ← map_result Program.Header program_objects;
  implementations ← map_result Program.Implementation program_objects;
  let sources :=
    Shader.QuotedSource <$> itervalues history shader_objects in
  let sep := Py.NL +:+ Py.NL in
  mret (<["Sources" := Py.join sep sources]>
         (<["Implementations" := Py.join sep implementations]>
           (<["Headers" := Py.join sep headers]> ∅))).

Definition header_path : string := "compositor/gles/shaders.h".
Definition implementation_path : string := "compositor/gles/shaders.cc".

(** [main], for any table of programs and any list [shaders.items()] of
    the items of the table of shaders, in the order in which the dictionary
    enumerates them.  The first loop inserts the names into
    [shader_objects] in that order. *)
Definition main_with {env : Env} (shaders : list (string * string))
    (programs : list (string * string * string)) : io unit :=
  shader_objects ← load_shaders shaders;
  program_objects ← lift (build_programs programs shader_objects);
  subs ← lift (render program_objects shaders.*1 shader_objects);
  _ ← open_w header_path;
  text ← lift (Template.substitute (Py.lstrip_nl header) subs);
  _ ← write header_path text;
  _ ← open_w implementation_path;
  text ← lift (Template.substitute (Py.lstrip_nl implementation) subs);
  write implementation_path text.

(** [main], for the table of shaders given as its literal. *)
Definition main_of {env : Env} (shaders : list (string * string))
    (programs : list (string * string * string)) : io unit :=
  main_with (iteritems shaders.*1 (dict_literal shaders)) programs.

Definition main {env : Env} : io unit := main_of shaders programs.


(** ** Auxiliary notions used in the statements *)

(** Whether a text ends with a newline. *)
Fixpoint ends_nl (s : string) : bool :=
  match s with
  | "" => false
  | String c "" => Ascii.eqb c Py.nl
  | String _ s' => ends_nl s'
  end.

(** The lines, each followed by a newline. *)
Definition terminated (lines : list string) : string :=
  flatten ((λ l, l +:+ Py.NL) <$> lines).

Definition no_nl (line : string) : Prop :=
  all_chars (λ c, negb (Ascii.eqb c Py.nl)) line = true.

(** The item a slot adds to the dictionary of a program. *)
Definition kv (s : Slot.t) : string * string := (Slot.name s, Slot.type s).

(** The position of a binding among the sorted bindings of a program, which
    is the position of its storage member in the generated class. *)
Definition slot_index (slots : gmap string string) (a : string)
    : option nat :=
  fst <$> list_find (λ x, x = a) (Program.sorted slots).

(** The two lines [FetchSlots] emits for a binding. *)
Definition fetch_lines (slots : gmap string string) (slot : string)
    : list string :=
  match slots !! slot ≫= (Program.accessors !!.) with
  | Some acc => [Program.fmt_fetch slot acc; Program.fmt_check slot]
  | None => []
  end.

(** A stage object that the extractor built from some file. *)
Definition extracted (sh : Shader.t) : Prop :=
  ∃ name filename fs fs', Shader.__init__ name filename fs = (inr sh, fs').

Definition isalpha (c : ascii) : bool := Py.islower c || Py.isupper c.

Fixpoint lower (s : string) : string :=
  match s with
  | "" => ""
  | String c s' => String (Py.tolower c) (lower s')
  end.

(** A capitalized segment: its first character in upper case and the
    others in lower case. *)
Definition capitalize (s : string) : string :=
  match s with
  | "" => ""
  | String c s' => String (Py.toupper c) (lower s')
  end.

Definition other (c : ascii) : bool :=
  negb (isalpha c) && negb (Ascii.eqb c "_"%char).

(** A segment of an identifier: letters, then characters that are neither
    letters nor underscores (digits, say). *)
Fixpoint segment (s : string) : bool :=
  match s with
  | "" => true
  | String c s' => if isalpha c then segment s' else all_chars other s
  end.

(** The declaration pattern as the specification words it: the keyword, a
    type token, any further tokens, then the identifier and its semicolon.
    It differs from [decl_shape] in that the type token is required. *)
Definition spec_decl_shape (line kw ident : string) : Prop :=
  ∃ ws ws1 ty toks ws2 rest,
    line = ws +:+ kw +:+ ws1 +:+ ty +:+ flatten toks +:+ ident +:+ ws2
           +:+ ";" +:+ rest
    ∧ is_ws ws ∧ (kw = "uniform" ∨ kw = "attribute")
    ∧ ws1 ≠ "" ∧ is_ws ws1
    ∧ spaced_token ty ∧ Forall spaced_token toks
    ∧ is_token ident ∧ is_ws ws2.

(** The same pattern as a regular expression:
    [^\s*(uniform|attribute)\s+\S+\s+(?:\S+\s+)*(\S+)\s*;] *)
Definition spec_slot_re : Re.regex :=
  Re.Seq Re.Bol
 (Re.Seq (Re.Star Re.space)
 (Re.Seq (Re.Group 1 (Re.Alt (Re.Lit "uniform") (Re.Lit "attribute")))
 (Re.Seq (Re.Plus Re.space)
 (Re.Seq (Re.Seq (Re.Plus Re.nonspace) (Re.Plus Re.space))
 (Re.Seq (Re.Star (Re.Seq (Re.Plus Re.nonspace) (Re.Plus Re.space)))
 (Re.Seq (Re.Group 2 (Re.Plus Re.nonspace))
 (Re.Seq (Re.Star Re.space)
         (Re.Lit ";")))))))).

(** ** The build rule *)

(** [MakeShadersEmitter], the emitter that [AddBuildRules] gives to the
    builder, for any table of shaders, given as its literal: it appends
    the script and then the file of every shader, in the order of
    [shaders.itervalues()], to [source] and replaces [target] by the two
    documents.  The third argument of the emitter, the construction
    environment of the build system, is not used and is left out.  The
    builder itself belongs to the build system and is not modelled. *)
Definition MakeShadersEmitter_with {env : Env}
    (shaders : list (string * string))
    (target source : list string) : list string * list string :=
  let source := source ++ ["make_shaders.py"] in
  let source :=
    foldl (λ source shader, source ++ [shader]) source
          (itervalues shaders.*1 (dict_literal shaders)) in
  let target := ["compositor/gles/shaders.h"; "compositor/gles/shaders.cc"] in
  (target, source).

Definition MakeShadersEmitter {env : Env} : list string → list string
    → list string * list string :=
  MakeShadersEmitter_with shaders.

(** ** Further notions used in the statements *)

(** The segment of the constant that [QuotedSource] emits for a line. *)
Definition quoted (line : string) : string :=
  "    " +:+ Py.dq +:+ line +:+ Py.bs +:+ "n" +:+ Py.dq.

(** The first line of the constant of a stage. *)
Definition source_decl (self : Shader.t) : string :=
  "static const char* " +:+ Shader.SourceName self +:+ " =".

Definition sep_char (c : ascii) : bool := negb (Ascii.eqb c "_"%char).
Definition not_semi (c : ascii) : bool := negb (Ascii.eqb c ";"%char).

(** A binding kind that has an entry in the table of [FetchSlots]. *)
Definition known_kind (k : string) : Prop := k = "uniform" ∨ k = "attribute".

Global Instance known_kind_dec k : Decision (known_kind k).
Proof. unfold known_kind. apply _. Defined.

(** The class declaration and the constructor of a program, as laid out by
    the two templates. *)
Definition class_decl (name accessors slots : string) : string :=
  "class " +:+ name +:+ " : public Shader {
 public:
  " +:+ name +:+ "();

" +:+ accessors +:+ "

 private:
" +:+ slots +:+ "

  DISALLOW_COPY_AND_ASSIGN(" +:+ name +:+ ");
};
".

Definition ctor_def (name vsrc fsrc fetch used : string) : string :=
  name +:+ "::" +:+ name +:+ "()
    : Shader(" +:+ vsrc +:+ ", " +:+ fsrc +:+ ") {
" +:+ fetch +:+ "
" +:+ used +:+ "
}
".

(** The two documents, around the text of the programs and of the
    sources. *)
Definition header_doc (headers : string) : string :=
  "// Auto generated DO NOT edit.

#ifndef WINDOW_MANAGER_GLES_SHADERS_H_
#define WINDOW_MANAGER_GLES_SHADERS_H_

#include <GLES2/gl2.h>

#include " +:+ Py.dq +:+ "base/basictypes.h" +:+ Py.dq +:+ "
#include " +:+ Py.dq +:+ "window_manager/compositor/gles/shader_base.h" +:+ Py.dq +:+ "

namespace window_manager {

" +:+ headers +:+ "

}  // namespace window_manager

#endif  // WINDOW_MANAGER_GLES_SHADERS_H_
".

Definition implementation_doc (sources implementations : string) : string :=
  "// Auto generated DO NOT edit.

#include " +:+ Py.dq +:+ "window_manager/compositor/gles/shaders.h" +:+ Py.dq +:+ "

#include <GLES2/gl2.h>

#include " +:+ Py.dq +:+ "base/logging.h" +:+ Py.dq +:+ "

#include " +:+ Py.dq +:+ "window_manager/compositor/gles/shader_base.h" +:+ Py.dq +:+ "

namespace window_manager {

" +:+ sources +:+ "

" +:+ implementations +:+ "

}  // namespace window_manager
".

(** The text of the two documents for a table of programs and the stage
    objects loaded, or the exception that building them raises. *)
Definition documents {env : Env}
    (programs : list (string * string * string))
    (history : list string) (shader_objects : gmap string Shader.t)
    : result (string * string) :=
  program_objects ← build_programs programs shader_objects;
  subs ← render program_objects history shader_objects;
  h ← Template.substitute (Py.lstrip_nl header) subs;
  i ← Template.substitute (Py.lstrip_nl implementation) subs;
  mret (h, i).

(** The stage objects for a table of shaders whose files are all read:
    the last item of a name is the one kept, as in the loop of [main]. *)
Definition stage_objects (shaders : list (string * string)) (fs : files)
    : gmap string Shader.t :=
  foldl (λ objs item,
           <[item.1 := Shader.of_text item.1 (default "" (fs !! item.2))]> objs)
        ∅ shaders.

(** The text of the lookups of a program whose kinds are all known. *)
Definition fetch_text (slots : gmap string string) : string :=
  Py.join Py.NL (mjoin (fetch_lines slots <$> Program.sorted slots)).

(** The class declaration and the constructor of a program object. *)
Definition class_text (p : Program.t) : string :=
  class_decl (Program.name p) (Program.Accessors (Program.slots p))
             (Program.Slots (Program.slots p)).

Definition ctor_text (p : Program.t) : string :=
  ctor_def (Program.name p) (Shader.SourceName (Program.vertex p))
           (Shader.SourceName (Program.fragment p))
           (fetch_text (Program.slots p))
           (Program.UsedVertexAttribs (Program.slots p)).

(** A program object that the constructor built. *)
Definition built (p : Program.t) : Prop :=
  ∃ name vertex fragment, Program.__init__ name vertex fragment = inr p.

(** The line that declares the accessor [acc] of the member [member]. *)
Definition accessor_decl (acc member : string) : string :=
  "  GLint " +:+ acc +:+ "() const { return " +:+ member +:+ "; }".

(** The name of the accessor of a binding. *)
Definition accessor_name (slot : string) : string :=
  CamelCase slot +:+ "Location".

Fixpoint starts_with (p s : string) : bool :=
  match p, s with
  | "", _ => true
  | String a p', String b s' => Ascii.eqb a b && starts_with p' s'
  | String _ _, "" => false
  end.

(** The lines of a text that declare an accessor called [acc]. *)
Definition declarations_of (acc text : string) : list string :=
  filter (λ line, starts_with ("  GLint " +:+ acc +:+ "()") line = true)
         (Py.split Py.nl text).

(** A segment with its first character in upper case and the others as
    they are: the other reading of a capitalized segment. *)
Definition upper_first (s : string) : string :=
  match s with
  | "" => ""
  | String c s' => String (Py.toupper c) s'
  end.

(** [CamelCase] as the specification words it: the identifier split at
    underscores, each segment capitalized, the segments concatenated. *)
Definition spec_CamelCase (cap : string → string) (identifier : string)
    : string :=
  flatten (cap <$> Py.split "_" identifier).

(** Title case, character by character: a letter that begins the text or
    follows a character that is not a letter is in upper case, a letter
    that follows a letter is in lower case, and any other character is
    kept. *)
Definition title_char (before : option ascii) (c : ascii) : ascii :=
  if isalpha c then
    if default false (isalpha <$> before) then Py.tolower c
    else Py.toupper c
  else c.

Definition char_before (s : string) (i : nat) : option ascii :=
  match i with
  | 0 => None
  | S j => String.get j s
  end.

(** A program of the table can be bound: its two stages are loaded and
    no name occurs twice among their slots. *)
Definition bindable (objs : gmap string Shader.t)
    (item : string * string * string) : Prop :=
  ∃ sv sf, objs !! item.1.2 = Some sv ∧ objs !! item.2 = Some sf
           ∧ NoDup (Slot.name <$> Shader.slots sv ++ Shader.slots sf).

(** ** Notions used in the statements about accessors and runs *)

(** The claim about accessors as the specification words it, for a
    reading [cap] of capitalization: in the class declared for a program,
    every binding has exactly one accessor named by its camel-cased
    identifier followed by [Location]. *)
Definition spec_accessors (cap : string → string) : Prop :=
  ∀ name (vertex fragment : Shader.t) p text n,
    Program.__init__ name vertex fragment = inr p →
    Program.Header p = inr text →
    is_Some (Program.slots p !! n) →
    length (declarations_of (spec_CamelCase cap n +:+ "Location") text) = 1.

(** What the last four steps of [main] leave, for the texts [h] and [i]
    of the two documents: each document is opened and then written, and
    the first step that raises ends the run. *)
Definition write_outcome {env : Env} (h i : string) (fs : files)
    : result unit * files :=
  if can_open header_path then
    match write_fault header_path h with
    | Some part => (inl IOError, <[header_path := part]> fs)
    | None =>
        if can_open implementation_path then
          match write_fault implementation_path i with
          | Some part =>
              (inl IOError,
               <[implementation_path := part]> (<[header_path := h]> fs))
          | None =>
              (inr (),
               <[implementation_path := i]> (<[header_path := h]> fs))
          end
        else (inl IOError, <[header_path := h]> fs)
    end
  else (inl IOError, fs).

(** The environment [plain_env], except that the paths [closed] cannot be
    opened for writing. *)
Definition closed_env (closed : list string) : Env :=
  env_of remove_dups (λ history, reflexivity (remove_dups history))
         (λ path, bool_decide (path ∉ closed)) (λ _, true).

(** * Properties *)

(** ** Strings *)

Section strings.

Implicit Types s t u w : string.

Lemma str_app_cons c s t : String c s +:+ t = String c (s +:+ t).
Proof. reflexivity. Qed.

Lemma str_app_nil_r s : s +:+ "" = s.
Proof. induction s as [|c s IH]; [done|]. by rewrite str_app_cons, IH. Qed.

Lemma str_app_assoc s t u : (s +:+ t) +:+ u = s +:+ t +:+ u.
Proof. induction s as [|c s IH]; [done|]. by rewrite !str_app_cons, IH. Qed.

Lemma str_length_app s t :
  String.length (s +:+ t) = String.length s + String.length t.
Proof. induction s as [|c s IH]; [done|]. rewrite str_app_cons. simpl. lia. Qed.

Lemma str_app_eq_nil s t : s +:+ t = "" → s = "" ∧ t = "".
Proof. destruct s; [done|]. by rewrite str_app_cons. Qed.

Lemma length_pos_ne s : s ≠ "" ↔ 0 < String.length s.
Proof. destruct s; simpl; split; (done || lia). Qed.

Lemma take_app w s :
  Re.take (String.length (w +:+ s) - String.length s) (w +:+ s) = w.
Proof.
  rewrite str_length_app.
  replace (String.length w + String.length s - String.length s)
    with (String.length w) by lia.
  induction w as [|c w IH].
  - by destruct s.
  - rewrite str_app_cons. simpl. by rewrite IH.
Qed.

End strings.

(** ** The matcher finds exactly the declarative matches *)

Section matcher.

Import Re.

Implicit Types (r : regex) (k : cont) (c : caps).
Lemma star_loop_sound body r :
  sound_body body r →
  ∀ fuel k s pos c x, star_loop body k fuel s pos c = Some x →
    ∃ w s' c', s = w +:+ s' ∧ Matches (Star r) pos w c c'
               ∧ k s' (pos + String.length w) c' = Some x.
Proof.
  intros Hbody fuel k. induction fuel as [|fuel IH]; intros s pos c x H; simpl in H.
  { exists "", s, c. rewrite Nat.add_0_r. eauto using Matches. }
  destruct (body s pos c _) as [y|] eqn:Hb.
  - injection H as ->. apply Hbody in Hb as (w1 & s1 & c1 & -> & Hm & Hk).
    case_decide as Hlt; [|done].
    apply IH in Hk as (w2 & s2 & c2 & -> & Hm2 & Hk).
    exists (w1 +:+ w2), s2, c2. rewrite str_app_assoc, str_length_app, Nat.add_assoc.
    split_and!; [done| |done].
    apply MStarS with c1; [|done..].
    rewrite (str_length_app w1) in Hlt. intros ->. simpl in Hlt. lia.
  - exists "", s, c. rewrite Nat.add_0_r. eauto using Matches.
Qed.

Lemma run_sound r : sound_body (run r) r.
Proof.
  induction r as [|p| |r1 IH1 r2 IH2|r1 IH1 r2 IH2|r IH|n r IH];
    intros s pos c k x H;
    [simpl in H..
    |change (star_loop (run r) k (S (String.length s)) s pos c = Some x) in H
    |simpl in H].
  - case_decide; [subst|done]. exists "", s, c. eauto using Matches.
  - destruct s as [|a s]; [done|]. destruct (p a) eqn:Hp; [|done].
    exists (String a ""), s, c. rewrite Nat.add_1_r. eauto using Matches.
  - exists "", s, c. rewrite Nat.add_0_r. eauto using Matches.
  - apply IH1 in H as (w1 & s1 & c1 & -> & Hm1 & H).
    apply IH2 in H as (w2 & s2 & c2 & -> & Hm2 & H).
    exists (w1 +:+ w2), s2, c2.
    rewrite str_app_assoc, str_length_app, Nat.add_assoc. eauto using Matches.
  - destruct (run r1 s pos c k) as [y|] eqn:H1.
    + injection H as ->. apply IH1 in H1 as (w & s' & c' & ? & ? & ?).
      exists w, s', c'. eauto using Matches.
    + apply IH2 in H as (w & s' & c' & ? & ? & ?).
      exists w, s', c'. eauto using Matches.
  - by apply (star_loop_sound _ r IH) in H.
  - apply IH in H as (w & s' & c' & -> & Hm & H).
    rewrite take_app in H. exists w, s', (<[n := w]> c'). eauto using Matches.
Qed.

Lemma star_loop_complete body r :
  complete_body body r →
  ∀ pos w c c', Matches (Star r) pos w c c' →
    ∀ fuel s' k, String.length (w +:+ s') < fuel →
      is_Some (k s' (pos + String.length w) c') →
      is_Some (star_loop body k fuel (w +:+ s') pos c).
Proof.
  intros Hbody pos w c c' Hm.
  remember (Star r) as sr eqn:Hsr.
  induction Hm as [| | | | | |r' pos c|r' pos w1 w2 c c1 c2 Hne Hm1 _ Hm2 IH2|];
    try discriminate; injection Hsr as ->; intros fuel s' k Hfuel Hk.
  - rewrite Nat.add_0_r in Hk. destruct fuel as [|fuel]; simpl; [done|].
    by destruct (body _ _ _ _).
  - destruct fuel as [|fuel]; [lia|]. simpl.
    rewrite str_app_assoc in *.
    destruct (body _ _ _ _) as [y|] eqn:Hb; [done|].
    exfalso. eapply is_Some_None. rewrite <-Hb.
    apply (Hbody _ _ _ _ Hm1).
    rewrite decide_True.
    + apply IH2; [done| |].
      * rewrite str_length_app in Hfuel.
        apply length_pos_ne in Hne. lia.
      * by rewrite str_length_app, Nat.add_assoc in Hk.
    + rewrite (str_length_app w1). apply length_pos_ne in Hne. lia.
Qed.

Lemma run_complete r : complete_body (run r) r.
Proof.
  induction r as [|p| |r1 IH1 r2 IH2|r1 IH1 r2 IH2|r IH|n r IH];
    intros pos w c c' Hm s' k Hk; inversion Hm; subst.
  - done.
  - simpl in *. rewrite Nat.add_1_r in Hk.
    match goal with H : p _ = true |- _ => rewrite H end. exact Hk.
  - simpl in *. by rewrite Nat.add_0_r in Hk.
  - simpl. rewrite str_app_assoc. eapply IH1; [done|]. eapply IH2; [done|].
    by rewrite str_length_app, Nat.add_assoc in Hk.
  - simpl. destruct (run r1 _ _ _ _) as [y|] eqn:H1; [done|].
    exfalso. eapply is_Some_None. rewrite <-H1. by eapply IH1.
  - simpl. destruct (run r1 _ _ _ _) as [y|] eqn:H1; [done|]. by eapply IH2.
  - apply (star_loop_complete _ r IH _ _ _ _ Hm); [lia|done].
  - apply (star_loop_complete _ r IH _ _ _ _ Hm); [lia|done].
  - simpl. eapply IH; [done|]. by rewrite take_app.
Qed.

(** [match_] succeeds exactly on the strings with a prefix in the language
    of the pattern, and the groups it returns are those of one of the
    derivations. *)
Lemma match_sound r s m :
  match_ r s = Some m → ∃ w rest, s = w +:+ rest ∧ Matches r 0 w ∅ m.
Proof.
  intros H. apply run_sound in H as (w & s' & c' & -> & Hm & [= ->]). eauto.
Qed.

Lemma match_complete r w rest m :
  Matches r 0 w ∅ m → is_Some (match_ r (w +:+ rest)).
Proof. intros Hm. by eapply run_complete. Qed.

End matcher.

(** ** The declaration pattern *)

Section slot_pattern.

Import Re.

Implicit Types (r : regex) (c : caps) (w : string).

Lemma Matches_Lit s pos w c c' : Matches (Lit s) pos w c c' → w = s ∧ c' = c.
Proof.
  revert pos w. induction s as [|a s IH]; intros pos w Hm; simpl in Hm.
  - by inversion Hm.
  - inversion Hm as [| | |? ? ? w1 w2 ? c1 ? H1 H2| | | | |]; subst.
    inversion H1 as [|? a0 ? ? Ha| | | | | | |]; subst.
    apply IH in H2 as [-> ->].
    apply Ascii.eqb_eq in Ha as ->. done.
Qed.

Lemma Lit_Matches s pos c : Matches (Lit s) pos s c c.
Proof.
  revert pos. induction s as [|a s IH]; intros pos; simpl; [constructor|].
  apply (MSeq _ _ pos (String a "") s c c c); [|done].
  constructor. apply Ascii.eqb_refl.
Qed.

Lemma Matches_Star_Cls p pos w c c' :
  Matches (Star (Cls p)) pos w c c' → all_chars p w = true ∧ c' = c.
Proof.
  intros Hm. remember (Star (Cls p)) as r eqn:Hr.
  induction Hm as [| | | | | |? ? ?|? ? w1 w2 ? ? ? ? H1 _ _ IH|];
    try discriminate; injection Hr as ->; [done|].
  destruct (IH eq_refl) as [Hall ->].
  inversion H1; subst. simpl. split; [|done]. by apply andb_true_iff.
Qed.

Lemma Star_Cls_Matches p pos w c :
  all_chars p w = true → Matches (Star (Cls p)) pos w c c.
Proof.
  revert pos. induction w as [|a w IH]; intros pos Hall; [constructor|].
  simpl in Hall. apply andb_true_iff in Hall as [Ha Hall].
  apply (MStarS _ pos (String a "") w c c c); [done|by constructor|by apply IH].
Qed.

Lemma Matches_Plus_Cls p pos w c c' :
  Matches (Plus (Cls p)) pos w c c' → w ≠ "" ∧ all_chars p w = true ∧ c' = c.
Proof.
  unfold Plus. intros Hm.
  inversion Hm as [| | |? ? ? w1 w2 ? c1 ? H1 H2| | | | |]; subst.
  inversion H1; subst. apply Matches_Star_Cls in H2 as [Hall ->].
  rewrite str_app_cons. simpl. split_and!; [done| |done]. by apply andb_true_iff.
Qed.

Lemma Plus_Cls_Matches p pos w c :
  w ≠ "" → all_chars p w = true → Matches (Plus (Cls p)) pos w c c.
Proof.
  intros Hne Hall. destruct w as [|a w]; [done|].
  simpl in Hall. apply andb_true_iff in Hall as [Ha Hall].
  apply (MSeq _ _ pos (String a "") w c c c); [by constructor|].
  by apply Star_Cls_Matches.
Qed.

(** [(?:\S+\s+)*] *)
Lemma Matches_tokens pos w c c' :
  Matches (Star (Seq (Plus nonspace) (Plus space))) pos w c c' →
  ∃ toks, w = flatten toks ∧ Forall spaced_token toks ∧ c' = c.
Proof.
  intros Hm. remember (Star (Seq (Plus nonspace) (Plus space))) as r eqn:Hr.
  induction Hm as [| | | | | |? ? ?|? ? w1 w2 ? ? ? ? H1 _ _ IH|];
    try discriminate; injection Hr as ->.
  { by exists []. }
  destruct (IH eq_refl) as (toks & -> & Htoks & ->).
  inversion H1 as [| | |? ? ? a b ? c1' ? Ha Hb| | | | |]; subst.
  apply Matches_Plus_Cls in Ha as (? & ? & ->).
  apply Matches_Plus_Cls in Hb as (? & ? & ->).
  exists ((a +:+ b) :: toks). split_and!; [done| |done].
  constructor; [|done]. by exists a, b.
Qed.

Lemma tokens_Matches pos toks c :
  Forall spaced_token toks →
  Matches (Star (Seq (Plus nonspace) (Plus space))) pos (flatten toks) c c.
Proof.
  intros Htoks. revert pos.
  induction Htoks as [|t toks (a & b & -> & [Ha1 Ha2] & Hb1 & Hb2) _ IH];
    intros pos; [constructor|].
  apply (MStarS _ pos (a +:+ b) (flatten toks) c c c); [| |by apply IH].
  - intros [-> _]%str_app_eq_nil. done.
  - apply (MSeq _ _ pos a b c c c); by apply Plus_Cls_Matches.
Qed.

Lemma Matches_Seq r1 r2 pos w c c' :
  Matches (Seq r1 r2) pos w c c' →
  ∃ w1 w2 c1, w = w1 +:+ w2 ∧ Matches r1 pos w1 c c1
              ∧ Matches r2 (pos + String.length w1) w2 c1 c'.
Proof. inversion 1; subst; eauto 10. Qed.

Lemma Matches_Alt r1 r2 pos w c c' :
  Matches (Alt r1 r2) pos w c c' →
  Matches r1 pos w c c' ∨ Matches r2 pos w c c'.
Proof. inversion 1; subst; eauto. Qed.

Lemma Matches_Group n r pos w c c' :
  Matches (Group n r) pos w c c' →
  ∃ c1, c' = <[n := w]> c1 ∧ Matches r pos w c c1.
Proof. inversion 1; subst; eauto. Qed.

Lemma Matches_Bol pos w c c' : Matches Bol pos w c c' → w = "" ∧ c' = c.
Proof. by inversion 1. Qed.

(** A match of [slot_re] fixes the two groups and the shape of the line. *)
Lemma slot_re_sound line m :
  match_ slot_re line = Some m →
  ∃ kw ident, m = <[2 := ident]> (<[1 := kw]> ∅) ∧ decl_shape line kw ident.
Proof.
  intros (w & rest & -> & Hm)%match_sound. unfold slot_re in Hm.
  apply Matches_Seq in Hm as (? & w0 & ? & -> & [-> ->]%Matches_Bol & Hm).
  apply Matches_Seq in Hm as (ws & w1 & ? & -> & [Hws ->]%Matches_Star_Cls & Hm).
  apply Matches_Seq in Hm as (kw & w2 & c1 & -> & Hkw & Hm).
  apply Matches_Group in Hkw as (c0 & -> & Hkw).
  apply Matches_Seq in Hm
    as (ws1 & w3 & ? & -> & (Hne & Hws1 & ->)%Matches_Plus_Cls & Hm).
  apply Matches_Seq in Hm
    as (? & w4 & ? & -> & (toks & -> & Htoks & ->)%Matches_tokens & Hm).
  apply Matches_Seq in Hm as (ident & w5 & c2 & -> & Hid & Hm).
  apply Matches_Group in Hid as (? & -> & (? & ? & ->)%Matches_Plus_Cls).
  apply Matches_Seq in Hm
    as (ws2 & w6 & ? & -> & [Hws2 ->]%Matches_Star_Cls & Hm).
  apply Matches_Lit in Hm as [-> ->].
  exists kw, ident.
  assert ((kw = "uniform" ∨ kw = "attribute") ∧ c0 = ∅) as [Hkw' ->].
  { apply Matches_Alt in Hkw
      as [[-> ->]%Matches_Lit | [-> ->]%Matches_Lit]; auto. }
  split; [done|].
  exists ws, ws1, toks, ws2, rest. rewrite !str_app_assoc. by split_and!.
Qed.

(** Conversely every line of that shape is matched. *)
Lemma slot_re_complete line kw ident :
  decl_shape line kw ident → is_Some (match_ slot_re line).
Proof.
  intros (ws & ws1 & toks & ws2 & rest & -> & Hws & Hkw & Hne & Hws1
          & Htoks & [Hid1 Hid2] & Hws2).
  pose (m := <[2 := ident]> (<[1 := kw]> (∅ : caps))).
  assert (Matches slot_re 0
    (ws +:+ kw +:+ ws1 +:+ flatten toks +:+ ident +:+ ws2 +:+ ";") ∅ m) as Hm.
  { unfold slot_re.
    apply (MSeq _ _ 0 "" _ ∅ ∅ m); [constructor|].
    apply (MSeq _ _ _ ws _ ∅ ∅ m); [by apply Star_Cls_Matches|].
    apply (MSeq _ _ _ kw _ ∅ (<[1 := kw]> ∅) m).
    { constructor. destruct Hkw as [-> | ->];
        [apply MAltL|apply MAltR]; apply Lit_Matches. }
    apply (MSeq _ _ _ ws1 _ _ (<[1 := kw]> ∅) m); [by apply Plus_Cls_Matches|].
    apply (MSeq _ _ _ (flatten toks) _ _ (<[1 := kw]> ∅) m);
      [by apply tokens_Matches|].
    apply (MSeq _ _ _ ident _ _ m m).
    { constructor. by apply Plus_Cls_Matches. }
    apply (MSeq _ _ _ ws2 _ _ m m); [by apply Star_Cls_Matches|].
    apply Lit_Matches. }
  apply (match_complete _ _ rest) in Hm. by rewrite !str_app_assoc in Hm.
Qed.

End slot_pattern.

Section spec_pattern.

Import Re.

(** Every line of the shape the specification describes is matched by the
    pattern [spec_slot_re]. *)
Lemma spec_slot_re_complete line kw ident :
  spec_decl_shape line kw ident → is_Some (match_ spec_slot_re line).
Proof.
  intros (ws & ws1 & ty & toks & ws2 & rest & -> & Hws & Hkw & Hne & Hws1
          & (a & b & -> & [Ha1 Ha2] & Hb1 & Hb2) & Htoks & [Hid1 Hid2] & Hws2).
  pose (m := <[2 := ident]> (<[1 := kw]> (∅ : caps))).
  assert (Matches spec_slot_re 0
    (ws +:+ kw +:+ ws1 +:+ (a +:+ b) +:+ flatten toks +:+ ident +:+ ws2
     +:+ ";") ∅ m) as Hm.
  { unfold spec_slot_re.
    apply (MSeq _ _ 0 "" _ ∅ ∅ m); [constructor|].
    apply (MSeq _ _ _ ws _ ∅ ∅ m); [by apply Star_Cls_Matches|].
    apply (MSeq _ _ _ kw _ ∅ (<[1 := kw]> ∅) m).
    { constructor. destruct Hkw as [-> | ->];
        [apply MAltL|apply MAltR]; apply Lit_Matches. }
    apply (MSeq _ _ _ ws1 _ _ (<[1 := kw]> ∅) m); [by apply Plus_Cls_Matches|].
    apply (MSeq _ _ _ (a +:+ b) _ _ (<[1 := kw]> ∅) m).
    { apply (MSeq _ _ _ a b _ (<[1 := kw]> ∅)); by apply Plus_Cls_Matches. }
    apply (MSeq _ _ _ (flatten toks) _ _ (<[1 := kw]> ∅) m);
      [by apply tokens_Matches|].
    apply (MSeq _ _ _ ident _ _ m m).
    { constructor. by apply Plus_Cls_Matches. }
    apply (MSeq _ _ _ ws2 _ _ m m); [by apply Star_Cls_Matches|].
    apply Lit_Matches. }
  apply (match_complete _ _ rest) in Hm.
  rewrite !str_app_assoc in Hm. by rewrite !str_app_assoc.
Qed.

(** The specification's shape is a special case of the shape the script
    accepts. *)
Lemma spec_decl_shape_decl line kw ident :
  spec_decl_shape line kw ident → decl_shape line kw ident.
Proof.
  intros (ws & ws1 & ty & toks & ws2 & rest & -> & ? & ? & ? & ? & ? & ? & ? & ?).
  exists ws, ws1, (ty :: toks), ws2, rest. simpl.
  rewrite str_app_assoc. split_and!; try done. by constructor.
Qed.

End spec_pattern.

(** ** The slot extractor *)

Section extractor.

Lemma slot_of_line_Some line sl :
  Shader.slot_of_line line = Some sl →
  decl_shape line (Slot.type sl) (Slot.name sl).
Proof.
  unfold Shader.slot_of_line. intros H.
  destruct (Re.match_ slot_re line) as [m|] eqn:Hm; [|done].
  simpl in H. injection H as <-.
  apply slot_re_sound in Hm as (kw & ident & -> & Hshape).
  unfold Re.group. simpl. by rewrite lookup_insert_ne, !lookup_insert_eq.
Qed.

Lemma slot_of_line_is_Some line :
  is_Some (Shader.slot_of_line line) ↔ ∃ kw ident, decl_shape line kw ident.
Proof.
  split.
  - intros [sl Hsl]. eauto using slot_of_line_Some.
  - intros (kw & ident & [m Hm]%slot_re_complete).
    unfold Shader.slot_of_line. rewrite Hm. by eexists.
Qed.

Lemma slot_of_line_match line :
  is_Some (Shader.slot_of_line line) ↔ is_Some (Re.match_ slot_re line).
Proof.
  unfold Shader.slot_of_line.
  destruct (Re.match_ slot_re line); simpl; split; intros [? ?]; by eauto.
Qed.

Lemma parse_fold src sl ls :
  foldl Shader.parse_line (src, sl) ls
  = (src ++ (Py.rstrip_nl <$> ls),
     sl ++ omap Shader.slot_of_line (Py.rstrip_nl <$> ls)).
Proof.
  revert src sl. induction ls as [|l ls IH]; intros src sl; simpl.
  - by rewrite !(right_id_L [] (++)).
  - unfold Shader.parse_line at 2, Shader.slot_of_line. simpl.
    destruct (Re.match_ slot_re (Py.rstrip_nl l)) as [m|]; simpl;
      rewrite IH, <-!(assoc_L (++)); done.
Qed.

Lemma parse_text_source text :
  (Shader.parse_text text).1 = Py.rstrip_nl <$> Py.readlines text.
Proof. unfold Shader.parse_text. by rewrite parse_fold. Qed.

Lemma parse_text_slots text :
  (Shader.parse_text text).2
  = omap Shader.slot_of_line (Shader.parse_text text).1.
Proof. unfold Shader.parse_text. by rewrite parse_fold. Qed.

Lemma length_omap_filter {A B} (f : A → option B) (l : list A) :
  length (omap f l) = length (filter (λ x, is_Some (f x)) l).
Proof.
  induction l as [|x l IH]; [done|].
  rewrite filter_cons.
  change (omap f (x :: l))
    with (match f x with Some y => y :: omap f l | None => omap f l end).
  destruct (f x) as [y|] eqn:Hfx.
  - rewrite decide_True by eauto. simpl. by f_equal.
  - rewrite decide_False; [done|]. by intros [? ?].
Qed.

Lemma join_cons sep x l :
  l ≠ [] → Py.join sep (x :: l) = x +:+ sep +:+ Py.join sep l.
Proof. by destruct l. Qed.

Lemma join_cons_char sep c x l :
  Py.join sep (String c x :: l) = String c (Py.join sep (x :: l)).
Proof. by destruct l. Qed.

Lemma rstrip_nl_cons_ne c s :
  c ≠ Py.nl → Py.rstrip_nl (String c s) = String c (Py.rstrip_nl s).
Proof.
  intros Hc. simpl. destruct (Py.rstrip_nl s); [|done].
  by destruct (Ascii.eqb_spec c Py.nl).
Qed.

Lemma readlines_nil text : Py.readlines text = [] → text = "".
Proof.
  destruct text as [|c s]; [done|]. simpl.
  destruct (Ascii.eqb c Py.nl); [done|]. by destruct (Py.readlines s).
Qed.

(** Joining the stripped lines with newlines gives the text back, up to
    the newline that ends it. *)
Lemma lines_roundtrip text :
  text = Py.join Py.NL (Py.rstrip_nl <$> Py.readlines text)
         +:+ (if ends_nl text then Py.NL else "").
Proof.
  induction text as [|c s IH]; [done|].
  simpl Py.readlines. destruct (Ascii.eqb_spec c Py.nl) as [->|Hc].
  - destruct s as [|c' s']; [done|].
    rewrite fmap_cons, join_cons.
    + change (ends_nl (String Py.nl (String c' s')))
        with (ends_nl (String c' s')).
      rewrite !str_app_assoc, <-IH. done.
    + intros Hnil%fmap_nil_inv%readlines_nil. done.
  - destruct (Py.readlines s) as [|l ls] eqn:Hls.
    + apply readlines_nil in Hls as ->. simpl.
      rewrite (proj2 (Ascii.eqb_neq _ _) Hc). by rewrite str_app_nil_r.
    + rewrite fmap_cons, rstrip_nl_cons_ne, join_cons_char by done.
      rewrite str_app_cons. f_equal.
      replace (ends_nl (String c s)) with (ends_nl s); [done|].
      destruct s; [done|]. done.
Qed.

Lemma lines_no_nl text : Forall no_nl (Py.rstrip_nl <$> Py.readlines text).
Proof.
  induction text as [|c s IH]; [constructor|].
  simpl Py.readlines. destruct (Ascii.eqb_spec c Py.nl) as [->|Hc].
  - rewrite fmap_cons. by constructor.
  - assert (negb (Ascii.eqb c Py.nl) = true) as Hb.
    { by rewrite (proj2 (Ascii.eqb_neq _ _) Hc). }
    destruct (Py.readlines s) as [|l ls] eqn:Hls.
    + constructor; [|done]. unfold no_nl. simpl.
      rewrite (proj2 (Ascii.eqb_neq _ _) Hc). simpl. by rewrite Hb.
    + rewrite fmap_cons in *. rewrite rstrip_nl_cons_ne by done.
      apply Forall_cons in IH as [Hl Hls']. constructor; [|done].
      unfold no_nl in *. simpl. by rewrite Hb, Hl.
Qed.

End extractor.

(** C6, as amended.  The extractor keeps every line of the text: the
    lines it stores hold no newline, there is one per line of the file,
    and joining them with newlines gives the original text without the
    newline that ends it (when it ends with one). *)
Theorem source_lines_roundtrip text :
  let lines := (Shader.parse_text text).1 in
  text = Py.join Py.NL lines +:+ (if ends_nl text then Py.NL else "")
  ∧ Forall no_nl lines
  ∧ length lines = length (Py.readlines text).
Proof.
  simpl. rewrite parse_text_source. split_and!.
  - apply lines_roundtrip.
  - apply lines_no_nl.
  - by rewrite length_fmap.
Qed.

(** C6, as stated, fails: a text and the same text followed by a newline
    yield the same lines, so no way of putting the lines together gives
    back every text; joining with newlines loses a final newline, and
    ending every line with a newline adds one to a text that has none. *)
Lemma source_lines_roundtrip_fails :
  let t1 := "a
" in
  let t2 := "a" in
  (Shader.parse_text t1).1 = (Shader.parse_text t2).1
  ∧ t1 ≠ t2
  ∧ Py.join Py.NL (Shader.parse_text t1).1 ≠ t1
  ∧ terminated (Shader.parse_text t2).1 ≠ t2.
Proof. vm_compute. split_and!; [reflexivity|discriminate..]. Qed.

(** C5, as amended.  The slots of a stage are, in file order, the
    keyword and the identifier matched on each line that the pattern
    matches, one per such line, and the other lines give none.  The
    pattern matches the lines made of optional whitespace, [uniform] or
    [attribute], whitespace, any number (zero included) of tokens each
    followed by whitespace, an identifier token, optional whitespace and a
    semicolon: a type token is not required. *)
Theorem slots_follow_declaration_lines text :
  let source := (Shader.parse_text text).1 in
  let slots := (Shader.parse_text text).2 in
  slots = omap Shader.slot_of_line source
  ∧ length slots
    = length (filter (λ l, is_Some (Re.match_ slot_re l)) source)
  ∧ (∀ line, is_Some (Re.match_ slot_re line)
             ↔ ∃ kw ident, decl_shape line kw ident)
  ∧ (∀ line sl, Shader.slot_of_line line = Some sl →
       decl_shape line (Slot.type sl) (Slot.name sl)).
Proof.
  simpl. split_and!.
  - apply parse_text_slots.
  - rewrite parse_text_slots, length_omap_filter. f_equal.
    apply list_filter_iff. intros l. apply slot_of_line_match.
  - intros line. rewrite <-slot_of_line_match. apply slot_of_line_is_Some.
  - apply slot_of_line_Some.
Qed.

Lemma slots_follow_declaration_lines_witness :
  decl_shape "  attribute vec4 position ; // input" "attribute" "position".
Proof.
  apply (proj2 (proj2 (proj2 (slots_follow_declaration_lines "")))
           "  attribute vec4 position ; // input"
           (Slot.Build "attribute" "position")).
  vm_compute. reflexivity.
Defined.

(** C5, as stated, fails: a line without a type token does not have the
    shape the claim describes and still yields a binding. *)
Lemma untyped_declaration_is_extracted :
  (∀ kw ident, ¬ spec_decl_shape "uniform foo;" kw ident)
  ∧ (Shader.parse_text "uniform foo;").2 = [Slot.Build "uniform" "foo"].
Proof.
  split.
  - intros kw ident [m Hm]%spec_slot_re_complete.
    vm_compute in Hm. discriminate.
  - vm_compute. reflexivity.
Qed.

(** ** The program binder *)

Section binder.

Implicit Types (m slots : gmap string string) (l : list Slot.t).

Lemma kv_fst l : (kv <$> l).*1 = Slot.name <$> l.
Proof. by rewrite <-list_fmap_compose. Qed.

Lemma add_slot_eq m s :
  Program.add_slot m s
  = match m !! Slot.name s with
    | Some _ => inl AssertionError
    | None => inr (<[Slot.name s := Slot.type s]> m)
    end.
Proof.
  unfold Program.add_slot. destruct (m !! Slot.name s) eqn:Hs.
  - by rewrite decide_True.
  - rewrite decide_False; [done|]. by intros [? ?].
Qed.

Lemma add_slots l m :
  for_each Program.add_slot m l
  = if decide (NoDup (Slot.name <$> l)
               ∧ Forall (λ s, m !! Slot.name s = None) l)
    then inr (list_to_map (kv <$> l) ∪ m) else inl AssertionError.
Proof.
  revert m. induction l as [|s l IH]; intros m.
  { rewrite decide_True by (split; constructor).
    simpl. by rewrite (left_id_L ∅ (∪)). }
  change (for_each Program.add_slot m (s :: l))
    with (Program.add_slot m s ≫= λ st', for_each Program.add_slot st' l).
  rewrite add_slot_eq. destruct (m !! Slot.name s) as [k|] eqn:Hs.
  { rewrite decide_False; [done|].
    intros [_ [Hnone _]%Forall_cons]. by rewrite Hnone in Hs. }
  simpl. rewrite IH.
  destruct (decide (_ ∧ Forall _ l)) as [[Hnd Hall]|Hno].
  - assert (Slot.name s ∉ Slot.name <$> l) as Hnotin.
    { intros (s' & Heq & Hin)%list_elem_of_fmap.
      rewrite Forall_forall in Hall. specialize (Hall _ Hin).
      rewrite <-Heq in Hall. by rewrite lookup_insert_eq in Hall. }
    rewrite decide_True.
    + f_equal. rewrite <-insert_union_l. symmetry. apply insert_union_r.
      apply not_elem_of_list_to_map_1. by rewrite kv_fst.
    + split; [by constructor|]. constructor; [done|].
      eapply Forall_impl; [exact Hall|]. simpl.
      by intros s' [? _]%lookup_insert_None.
  - rewrite decide_False; [done|].
    intros [[Hnotin Hnd]%NoDup_cons [_ Hall]%Forall_cons]. apply Hno.
    split; [done|]. rewrite Forall_forall in Hall |- *. intros s' Hin.
    apply lookup_insert_None. split; [by apply Hall|].
    intros Heq. apply Hnotin, list_elem_of_fmap. eauto.
Qed.

(** The merge succeeds exactly when no name occurs twice in the slots of
    the two stages together. *)
Lemma MakeSlots_decide (vertex fragment : Shader.t) :
  let all_slots := Shader.slots vertex ++ Shader.slots fragment in
  Program._MakeSlots vertex fragment
  = if decide (NoDup (Slot.name <$> all_slots))
    then inr (list_to_map (kv <$> all_slots)) else inl AssertionError.
Proof.
  simpl. unfold Program._MakeSlots. rewrite add_slots.
  assert (∀ l, Forall (λ s, (∅ : gmap string string) !! Slot.name s = None) l)
    as Hall by (intros l; apply Forall_forall; intros; apply lookup_empty).
  destruct (decide (NoDup _)) as [Hnd|Hnd].
  - rewrite decide_True by done. by rewrite (right_id_L ∅ (∪)).
  - rewrite decide_False; [done|]. by intros [? _].
Qed.

Lemma MakeSlots_size (vertex fragment : Shader.t) slots :
  let all_slots := Shader.slots vertex ++ Shader.slots fragment in
  Program._MakeSlots vertex fragment = inr slots →
  size slots = size (list_to_set (Slot.name <$> all_slots) : gset string)
  ∧ size slots = length all_slots.
Proof.
  simpl. rewrite MakeSlots_decide. simpl.
  destruct (decide (NoDup _)) as [Hnd|]; [|done]. intros [= <-].
  rewrite size_list_to_set by done.
  rewrite map_size_list_to_map by (by rewrite kv_fst).
  by rewrite !length_fmap.
Qed.

Lemma MakeSlots_duplicate (vertex fragment : Shader.t) n k1 k2 :
  Slot.Build k1 n ∈ Shader.slots vertex →
  Slot.Build k2 n ∈ Shader.slots fragment →
  Program._MakeSlots vertex fragment = inl AssertionError.
Proof.
  intros Hv Hf. rewrite MakeSlots_decide. simpl.
  rewrite decide_False; [done|].
  rewrite fmap_app. intros (_ & Hdisj & _)%NoDup_app.
  apply (Hdisj n).
  - apply list_elem_of_fmap. by exists (Slot.Build k1 n).
  - apply list_elem_of_fmap. by exists (Slot.Build k2 n).
Qed.

Lemma MakeSlots_perm (v f v' f' : Shader.t) :
  Shader.slots v ++ Shader.slots f ≡ₚ Shader.slots v' ++ Shader.slots f' →
  Program._MakeSlots v f = Program._MakeSlots v' f'.
Proof.
  intros Hperm. rewrite !MakeSlots_decide. simpl.
  destruct (decide (NoDup (Slot.name <$> _ v ++ _))) as [Hnd|Hnd].
  - rewrite decide_True by (by rewrite <-Hperm).
    f_equal. apply list_to_map_proper; [by rewrite kv_fst|by rewrite Hperm].
  - rewrite decide_False; [done|]. by rewrite <-Hperm.
Qed.

Lemma init_fails name (vertex fragment : Shader.t) e :
  Program._MakeSlots vertex fragment = inl e →
  Program.__init__ name vertex fragment = inl e.
Proof. unfold Program.__init__. by intros ->. Qed.

End binder.

(** C1, as amended.  The merge of the two stages' bindings succeeds
    exactly when no name occurs twice among them, whatever the kinds: a
    name that recurs with the same kind fails the assertion like any other
    duplicate.  When the merge succeeds, the merged set has one entry per
    distinct name, which is then one per declared binding. *)
Theorem MakeSlots_requires_distinct_names (vertex fragment : Shader.t) :
  let all_slots := Shader.slots vertex ++ Shader.slots fragment in
  let names := Slot.name <$> all_slots in
  Program._MakeSlots vertex fragment
  = (if decide (NoDup names)
     then inr (list_to_map (kv <$> all_slots)) else inl AssertionError)
  ∧ (∀ slots, Program._MakeSlots vertex fragment = inr slots →
       size slots = size (list_to_set names : gset string)
       ∧ size slots = length all_slots).
Proof.
  simpl. split; [apply MakeSlots_decide|].
  intros slots. apply MakeSlots_size.
Qed.

Lemma MakeSlots_requires_distinct_names_witness :
  let v := Shader.of_text "V" "uniform mat4 mvp;" in
  let f := Shader.of_text "F" "uniform vec4 color;" in
  size ({[ "mvp" := "uniform"; "color" := "uniform" ]} : gmap string string)
  = size (list_to_set ["mvp"; "color"] : gset string)
  ∧ size ({[ "mvp" := "uniform"; "color" := "uniform" ]} : gmap string string)
    = 2.
Proof.
  intros v f.
  apply (proj2 (MakeSlots_requires_distinct_names v f)
           {[ "mvp" := "uniform"; "color" := "uniform" ]}).
  vm_compute. reflexivity.
Defined.

(** C1, as stated, fails: two stages that declare the same name with the
    same kind are not merged; the assertion of the binder fails and no
    program object is built. *)
Lemma same_kind_duplicate_is_rejected :
  let v := Shader.of_text "V" "uniform mat4 foo;" in
  let f := Shader.of_text "F" "uniform mat4 foo;" in
  Shader.slots v = [Slot.Build "uniform" "foo"]
  ∧ Shader.slots f = [Slot.Build "uniform" "foo"]
  ∧ Program._MakeSlots v f = inl AssertionError
  ∧ Program.__init__ "P" v f = inl AssertionError.
Proof. vm_compute. by split_and!. Qed.

(** C3.  When the two stages declare one name with different kinds, the
    merge raises (the failed assertion is the fatal error) and neither a
    merged mapping nor a program object is produced. *)
Theorem conflicting_kinds_fail (vertex fragment : Shader.t) n k1 k2 :
  Slot.Build k1 n ∈ Shader.slots vertex →
  Slot.Build k2 n ∈ Shader.slots fragment →
  k1 ≠ k2 →
  Program._MakeSlots vertex fragment = inl AssertionError
  ∧ (∀ slots, Program._MakeSlots vertex fragment ≠ inr slots)
  ∧ (∀ name, Program.__init__ name vertex fragment = inl AssertionError).
Proof.
  intros Hv Hf _.
  pose proof (MakeSlots_duplicate _ _ _ _ _ Hv Hf) as H.
  split_and!; [done|by rewrite H|]. intros name. by apply init_fails.
Qed.

Lemma conflicting_kinds_fail_witness :
  let v := Shader.of_text "V" "uniform mat4 foo;" in
  let f := Shader.of_text "F" "attribute vec4 foo;" in
  Program._MakeSlots v f = inl AssertionError
  ∧ (∀ slots, Program._MakeSlots v f ≠ inr slots)
  ∧ (∀ name, Program.__init__ name v f = inl AssertionError).
Proof.
  intros v f.
  apply (conflicting_kinds_fail v f "foo" "uniform" "attribute").
  - vm_compute. apply list_elem_of_here.
  - vm_compute. apply list_elem_of_here.
  - discriminate.
Defined.

(** ** Rendering *)

Section rendering.

Implicit Types (slots : gmap string string).

Lemma sorted_perm slots : Program.sorted slots ≡ₚ (map_to_list slots).*1.
Proof. apply merge_sort_Permutation. Qed.

Lemma sorted_NoDup slots : NoDup (Program.sorted slots).
Proof. rewrite sorted_perm. apply NoDup_fst_map_to_list. Qed.

Lemma elem_of_sorted slots n :
  n ∈ Program.sorted slots ↔ is_Some (slots !! n).
Proof.
  rewrite sorted_perm, list_elem_of_fmap. split.
  - intros ([n' k] & -> & Hin%elem_of_map_to_list). by exists k.
  - intros [k Hk]. exists (n, k). by rewrite elem_of_map_to_list.
Qed.

Lemma length_sorted slots : length (Program.sorted slots) = size slots.
Proof. by rewrite sorted_perm, length_fmap, length_map_to_list. Qed.

Lemma le_ne_compare (a b : string) :
  String.le a b → a ≠ b → String.compare a b = Lt.
Proof.
  unfold String.le, String.leb. intros Hle Hne.
  destruct (String.compare a b) eqn:Hc; [|done..].
  by apply String.compare_eq_iff in Hc.
Qed.

(** The sorted names strictly increase in the byte-wise order of
    strings. *)
Lemma sorted_strict slots :
  StronglySorted (λ a b, String.compare a b = Lt) (Program.sorted slots).
Proof.
  pose proof (sorted_NoDup slots) as Hnd.
  assert (StronglySorted String.le (Program.sorted slots)) as Hs
    by (apply StronglySorted_merge_sort; apply _).
  induction Hs as [|a l Hs IH Hall]; [constructor|].
  apply NoDup_cons in Hnd as [Hnotin Hnd].
  constructor; [by apply IH|].
  rewrite Forall_forall in Hall |- *. intros b Hb.
  apply le_ne_compare; [by apply Hall|]. by intros ->.
Qed.

Lemma foldl_snoc_map {A B} (f : A → B) (acc : list B) (l : list A) :
  foldl (λ out x, out ++ [f x]) acc l = acc ++ (f <$> l).
Proof.
  revert acc. induction l as [|x l IH]; intros acc; simpl.
  - by rewrite (right_id_L [] (++)).
  - by rewrite IH, <-(assoc_L (++)).
Qed.

Lemma foldl_snoc_filter {A} (P : A → Prop) `{!∀ x, Decision (P x)}
    (acc : list A) (l : list A) :
  foldl (λ out x, if decide (P x) then out ++ [x] else out) acc l
  = acc ++ filter P l.
Proof.
  revert acc. induction l as [|x l IH]; intros acc.
  - simpl. by rewrite filter_nil, (right_id_L [] (++)).
  - simpl foldl. rewrite IH, filter_cons. destruct (decide (P x)); [|done].
    by rewrite <-(assoc_L (++)).
Qed.

Lemma Slots_eq slots :
  Program.Slots slots
  = Py.join Py.NL (Program.fmt_slot <$> Program.sorted slots).
Proof. unfold Program.Slots. by rewrite foldl_snoc_map. Qed.

Lemma Accessors_eq slots :
  Program.Accessors slots
  = Py.join Py.NL (Program.fmt_accessor <$> Program.sorted slots).
Proof. unfold Program.Accessors. by rewrite foldl_snoc_map. Qed.

Lemma attribs_eq slots :
  Program.attribs slots
  = filter (λ n, slots !! n = Some "attribute") (Program.sorted slots).
Proof. unfold Program.attribs. by rewrite foldl_snoc_filter. Qed.

Lemma fetch_body_eq slots out n :
  Program.fetch_body slots out n
  = match slots !! n ≫= (Program.accessors !!.) with
    | Some acc => inr (out ++ fetch_lines slots n)
    | None => inl KeyError
    end.
Proof.
  unfold Program.fetch_body, fetch_lines, getitem.
  destruct (slots !! n) as [k|]; [|done]. simpl.
  destruct (Program.accessors !! k) as [a|]; [|done]. simpl.
  by rewrite <-(assoc_L (++)).
Qed.

(** The loop of [FetchSlots]: when it ends without raising, it has
    emitted the two lines of every binding, in order. *)
Lemma fetch_loop_inv slots l acc0 out :
  for_each (Program.fetch_body slots) acc0 l = inr out →
  out = acc0 ++ mjoin (fetch_lines slots <$> l).
Proof.
  revert acc0. induction l as [|n l IH]; intros acc0.
  - intros [= <-]. simpl. by rewrite (right_id_L [] (++)).
  - change (for_each (Program.fetch_body slots) acc0 (n :: l))
      with (Program.fetch_body slots acc0 n
            ≫= λ st', for_each (Program.fetch_body slots) st' l).
    rewrite fetch_body_eq.
    destruct (slots !! n ≫= _) as [a|]; [|done]. simpl.
    intros ->%IH. by rewrite <-(assoc_L (++)).
Qed.

Lemma fetch_loop_ok slots l acc0 :
  (∀ n, n ∈ l → ∃ k, slots !! n = Some k
                     ∧ (k = "uniform" ∨ k = "attribute")) →
  ∃ out, for_each (Program.fetch_body slots) acc0 l = inr out.
Proof.
  revert acc0. induction l as [|n l IH]; intros acc0 Hl; [by eexists|].
  change (for_each (Program.fetch_body slots) acc0 (n :: l))
    with (Program.fetch_body slots acc0 n
          ≫= λ st', for_each (Program.fetch_body slots) st' l).
  rewrite fetch_body_eq.
  destruct (Hl n) as (k & Hk & Hkind); [apply list_elem_of_here|].
  rewrite Hk. simpl.
  assert (is_Some (Program.accessors !! k)) as [a ->].
  { destruct Hkind as [-> | ->]; by eexists. }
  simpl. apply IH. intros n' Hn'. apply Hl. by apply list_elem_of_further.
Qed.

Lemma FetchSlots_inv slots text :
  Program.FetchSlots slots = inr text →
  text = Py.join Py.NL (mjoin (fetch_lines slots <$> Program.sorted slots)).
Proof.
  unfold Program.FetchSlots, Program.FetchSlots_out.
  destruct (for_each _ _ _) as [e|out] eqn:Hout; [done|].
  apply fetch_loop_inv in Hout as ->. by intros [= <-].
Qed.

End rendering.

(** C4.  The storage slots, the accessors and the location lookups are
    each rendered from the same list of names, which holds every binding
    of the program once and strictly increases in the lexicographic
    (byte-wise) order of strings; and the merged bindings, from which all
    of this is rendered, do not depend on the order in which the stages
    declare them. *)
Theorem rendering_is_name_sorted (slots : gmap string string) :
  let names := Program.sorted slots in
  StronglySorted (λ a b, String.compare a b = Lt) names
  ∧ (∀ n, n ∈ names ↔ is_Some (slots !! n))
  ∧ Program.Slots slots = Py.join Py.NL (Program.fmt_slot <$> names)
  ∧ Program.Accessors slots = Py.join Py.NL (Program.fmt_accessor <$> names)
  ∧ (∀ text, Program.FetchSlots slots = inr text →
       text = Py.join Py.NL (mjoin (fetch_lines slots <$> names)))
  ∧ (∀ v f v' f' : Shader.t,
       Shader.slots v ++ Shader.slots f ≡ₚ Shader.slots v' ++ Shader.slots f' →
       Program._MakeSlots v f = Program._MakeSlots v' f').
Proof.
  simpl. split_and!.
  - apply sorted_strict.
  - apply elem_of_sorted.
  - apply Slots_eq.
  - apply Accessors_eq.
  - apply FetchSlots_inv.
  - apply MakeSlots_perm.
Qed.

Lemma rendering_is_name_sorted_witness :
  let v := Shader.of_text "V" "uniform mat4 mvp;
attribute vec4 position;" in
  let f := Shader.of_text "F" "uniform vec4 color;" in
  let v' := Shader.of_text "V" "attribute vec4 position;
uniform vec4 color;" in
  let f' := Shader.of_text "F" "uniform mat4 mvp;" in
  Program._MakeSlots v f = Program._MakeSlots v' f'.
Proof.
  intros v f v' f'.
  apply (proj2 (proj2 (proj2 (proj2 (proj2
           (rendering_is_name_sorted ∅))))) v f v' f').
  vm_compute.
  apply (Permutation_trans (perm_swap _ _ _)).
  apply perm_skip, perm_swap.
Defined.

Section mask.

Implicit Types (slots : gmap string string).

Lemma UsedVertexAttribs_eq slots :
  let attrs :=
    filter (λ n, slots !! n = Some "attribute") (Program.sorted slots) in
  Program.UsedVertexAttribs slots
  = Program.prefix
    +:+ match attrs with
        | [a] => Program.fmt_shift1 a
        | _ => Py.join Program.separator (Program.fmt_shift <$> attrs)
        end
    +:+ ");".
Proof.
  simpl. unfold Program.UsedVertexAttribs. rewrite attribs_eq.
  by destruct (filter _ _) as [|a [|b l]].
Qed.

(** A program without attribute bindings gets a registration call
    without argument. *)
Lemma UsedVertexAttribs_no_attribute slots :
  (∀ n, slots !! n ≠ Some "attribute") →
  Program.UsedVertexAttribs slots = "  SetUsedVertexAttribs();".
Proof.
  intros Hno. rewrite UsedVertexAttribs_eq. simpl.
  assert (filter (λ n, slots !! n = Some "attribute") (Program.sorted slots)
          = []) as ->; [|done].
  induction (Program.sorted slots) as [|n l IH]; [done|].
  rewrite filter_cons, decide_False; [done|apply Hno].
Qed.

Lemma fetch_of_attribute slots a lines :
  slots !! a = Some "attribute" →
  Program.FetchSlots_out slots = inr lines →
  Program.fmt_fetch a "Attrib" ∈ lines.
Proof.
  intros Ha Hlines. apply fetch_loop_inv in Hlines as ->. simpl.
  apply list_elem_of_join. exists (fetch_lines slots a). split.
  - unfold fetch_lines. rewrite Ha. simpl. apply list_elem_of_here.
  - apply list_elem_of_fmap. exists a. split; [done|].
    apply elem_of_sorted. by rewrite Ha.
Qed.

End mask.

(** C2, as amended.  The registration call names the attribute bindings
    in the order of their names and shifts by the storage member of each,
    [1 << name_], the member that the constructor fills with the location
    it fetches for that attribute at run time; the bit is that location,
    not the position of the binding in the sorted list.  For sorted
    bindings [a_pos] (attribute), [b_mvp] (uniform), [c_tex] (attribute)
    the argument is [(1 << a_pos_) | (1 << c_tex_)]. *)
Theorem attribute_mask_shifts_by_slot_members (slots : gmap string string) :
  let attrs :=
    filter (λ n, slots !! n = Some "attribute") (Program.sorted slots) in
  Program.UsedVertexAttribs slots
  = Program.prefix
    +:+ match attrs with
        | [a] => Program.fmt_shift1 a
        | _ => Py.join Program.separator (Program.fmt_shift <$> attrs)
        end
    +:+ ");"
  ∧ (∀ a lines, a ∈ attrs → Program.FetchSlots_out slots = inr lines →
       Program.fmt_fetch a "Attrib" ∈ lines)
  ∧ Program.UsedVertexAttribs
      {[ "a_pos" := "attribute"; "b_mvp" := "uniform";
         "c_tex" := "attribute" ]}
    = "  SetUsedVertexAttribs((1 << a_pos_) |
                       (1 << c_tex_));".
Proof.
  simpl. split_and!.
  - apply UsedVertexAttribs_eq.
  - intros a lines [Ha _]%list_elem_of_filter. by apply fetch_of_attribute.
  - vm_compute. reflexivity.
Qed.

Lemma attribute_mask_shifts_by_slot_members_witness :
  Program.fmt_fetch "position" "Attrib"
  ∈ ["  mvp_ = glGetUniformLocation(program(), " +:+ Py.dq +:+ "mvp"
       +:+ Py.dq +:+ ");";
     "  CHECK(mvp_ >= 0);";
     "  position_ = glGetAttribLocation(program(), " +:+ Py.dq +:+ "position"
       +:+ Py.dq +:+ ");";
     "  CHECK(position_ >= 0);"].
Proof.
  apply (proj1 (proj2 (attribute_mask_shifts_by_slot_members
                         {[ "mvp" := "uniform"; "position" := "attribute" ]}))
           "position").
  - vm_compute. apply list_elem_of_here.
  - vm_compute. reflexivity.
Defined.

(** C2, as stated, fails: the emitted call is the same text whether an
    attribute is the first or the second of the sorted bindings, so no bit
    index read off the call can equal the position of the binding. *)
Lemma mask_bits_are_not_positions :
  ¬ ∃ bit_index : string → string → option nat,
      ∀ (slots : gmap string string) a,
        slots !! a = Some "attribute" →
        bit_index (Program.UsedVertexAttribs slots) a = slot_index slots a.
Proof.
  intros [bit_index H].
  pose proof (H {[ "b" := "attribute" ]} "b" eq_refl) as H0.
  pose proof (H {[ "a" := "uniform"; "b" := "attribute" ]} "b" eq_refl) as H1.
  vm_compute in H0, H1. congruence.
Qed.

(** C7, at a program whose stages declare nothing.  The stages have no
    bindings and keep their lines; the class has no accessor, no storage
    slot and no lookup; and the registration call is emitted without any
    argument, [SetUsedVertexAttribs();], where a mask of zero is
    expected. *)
Theorem program_without_declarations :
  let v := Shader.of_text "V" "void main() {
  gl_Position = vec4(0.0);
}
" in
  let f := Shader.of_text "F" "void main() {
  gl_FragColor = vec4(1.0);
}
" in
  Shader.slots v = [] ∧ Shader.slots f = []
  ∧ Shader.source v = ["void main() {"; "  gl_Position = vec4(0.0);"; "}"]
  ∧ ∃ p, Program.__init__ "P" v f = inr p
         ∧ Program.slots p = ∅
         ∧ Program.subs p !! "Accessors" = Some ""
         ∧ Program.subs p !! "Slots" = Some ""
         ∧ Program.subs p !! "FetchSlots" = Some ""
         ∧ Program.subs p !! "UsedVertexAttribs"
           = Some "  SetUsedVertexAttribs();"
         ∧ Program.Implementation p = inr "P::P()
    : Shader(kVSrc, kFSrc) {

  SetUsedVertexAttribs();
}
".
Proof.
  vm_compute. split_and!; [reflexivity..|].
  eexists. split_and!; reflexivity.
Qed.

(** ** Camel case *)

Section camel.

Lemma islower_not_upper c : Py.islower c = true → Py.isupper c = false.
Proof.
  unfold Py.islower, Py.isupper. intros [H1 H2]%andb_true_iff.
  apply Nat.leb_le in H1. apply andb_false_iff. right.
  apply Nat.leb_gt. lia.
Qed.

Lemma other_title b s :
  all_chars other s = true → Py.title_from b s = s ∧ lower s = s.
Proof.
  revert b. induction s as [|c s IH]; intros b Hs; [done|].
  simpl in Hs. apply andb_true_iff in Hs as [Hc Hs].
  unfold other, isalpha in Hc.
  apply andb_true_iff in Hc as [Hc _]. apply negb_true_iff in Hc.
  apply orb_false_iff in Hc as [Hl Hu].
  destruct (IH false Hs) as [IH1 IH2].
  simpl. unfold Py.tolower. by rewrite Hl, Hu, IH1, IH2.
Qed.

Lemma segment_cons c s :
  segment (String c s)
  = if isalpha c then segment s else all_chars other (String c s).
Proof. reflexivity. Qed.

Lemma segment_title_cased s :
  segment s = true → Py.title_from true s = lower s.
Proof.
  induction s as [|c s IH]; intros Hs; [done|].
  rewrite segment_cons in Hs. destruct (isalpha c) eqn:Hc.
  - simpl. unfold Py.tolower. destruct (Py.islower c) eqn:Hl.
    + by rewrite (islower_not_upper _ Hl), IH.
    + unfold isalpha in Hc. rewrite Hl in Hc. simpl in Hc.
      by rewrite Hc, IH.
  - by destruct (other_title true _ Hs) as [-> ->].
Qed.

(** On a segment [title] is capitalization. *)
Lemma segment_title s : segment s = true → Py.title s = capitalize s.
Proof.
  destruct s as [|c s]; [done|]. intros Hs.
  rewrite segment_cons in Hs. destruct (isalpha c) eqn:Hc.
  - unfold Py.title. simpl. unfold Py.toupper.
    destruct (Py.islower c) eqn:Hl.
    + by rewrite segment_title_cased.
    + unfold isalpha in Hc. rewrite Hl in Hc. simpl in Hc.
      by rewrite Hc, segment_title_cased.
  - destruct (other_title false _ Hs) as [H1 H2].
    unfold Py.title. rewrite H1. simpl in Hs |- *.
    apply andb_true_iff in Hs as [Hc' Hs].
    destruct (other_title false _ Hs) as [_ ->].
    unfold Py.toupper. unfold isalpha in Hc.
    apply orb_false_iff in Hc as [-> _]. done.
Qed.

Lemma segment_no_sep s :
  segment s = true →
  all_chars (λ c, negb (Ascii.eqb c "_"%char)) s = true.
Proof.
  assert (∀ t, all_chars other t = true →
               all_chars (λ c, negb (Ascii.eqb c "_"%char)) t = true) as Hother.
  { induction t as [|c t IH]; [done|]. simpl.
    intros [[_ ->]%andb_true_iff Ht]%andb_true_iff. by apply IH. }
  induction s as [|c s IH]; [done|]. intros Hs.
  rewrite segment_cons in Hs. destruct (isalpha c) eqn:Hc; [|by apply Hother].
  simpl. rewrite IH by done. rewrite andb_true_r.
  destruct (Ascii.eqb_spec c "_"%char) as [->|]; [|done].
  by vm_compute in Hc.
Qed.

Lemma split_no_sep sep x :
  all_chars (λ c, negb (Ascii.eqb c sep)) x = true → Py.split sep x = [x].
Proof.
  induction x as [|c x IH]; [done|]. simpl.
  intros [Hc Hx]%andb_true_iff. apply negb_true_iff in Hc.
  by rewrite Hc, IH.
Qed.

Lemma split_app sep x rest :
  all_chars (λ c, negb (Ascii.eqb c sep)) x = true →
  Py.split sep (x +:+ String sep rest) = x :: Py.split sep rest.
Proof.
  induction x as [|c x IH].
  - intros _. simpl. by rewrite Ascii.eqb_refl.
  - intros [Hc Hx]%andb_true_iff. apply negb_true_iff in Hc.
    rewrite str_app_cons. simpl. by rewrite Hc, IH.
Qed.

Lemma split_join sep segs :
  segs ≠ [] →
  Forall (λ x, all_chars (λ c, negb (Ascii.eqb c sep)) x = true) segs →
  Py.split sep (Py.join (String sep "") segs) = segs.
Proof.
  intros Hne Hall. induction Hall as [|x l Hx Hl IH]; [done|].
  destruct l as [|y l]; [by apply split_no_sep|].
  rewrite join_cons by done.
  set (rest := Py.join _ (y :: l)) in *.
  change (String sep "" +:+ rest) with (String sep rest).
  rewrite split_app by done. by rewrite IH.
Qed.

Lemma join_empty l : Py.join "" l = flatten l.
Proof.
  induction l as [|x l IH]; [done|].
  destruct l as [|y l]; [simpl; by rewrite str_app_nil_r|].
  rewrite join_cons by done. simpl in *. by rewrite IH.
Qed.

(** An identifier made of segments joined by underscores is rendered as
    its capitalized segments, concatenated. *)
Lemma CamelCase_segments segs :
  segs ≠ [] → Forall (λ x, segment x = true) segs →
  CamelCase (Py.join "_" segs) = flatten (capitalize <$> segs).
Proof.
  intros Hne Hsegs. unfold CamelCase.
  rewrite (split_join "_"%char), join_empty; [|done|].
  - f_equal. apply Forall_fmap_ext_1.
    eapply Forall_impl; [exact Hsegs|]. apply segment_title.
  - eapply Forall_impl; [exact Hsegs|]. apply segment_no_sep.
Qed.

End camel.

(** ** Stages built by the extractor *)

Section extracted_stages.

Lemma init_eq name filename (fs : files) :
  Shader.__init__ name filename fs
  = match fs !! filename with
    | Some text => (inr (Shader.of_text name text), fs)
    | None => (inl IOError, fs)
    end.
Proof.
  unfold Shader.__init__, Shader._Parse, read_file, mbind, io_bind.
  destruct (fs !! filename) as [text|]; [|done].
  simpl. unfold Shader.of_text. by destruct (Shader.parse_text text).
Qed.

Lemma extracted_of_text sh :
  extracted sh ↔ ∃ name text, sh = Shader.of_text name text.
Proof.
  split.
  - intros (name & filename & fs & fs' & H). rewrite init_eq in H.
    destruct (fs !! filename) as [text|]; [|done].
    injection H as <- _. eauto.
  - intros (name & text & ->).
    exists name, "f", {[ "f" := text ]}, {[ "f" := text ]}.
    rewrite init_eq. by rewrite lookup_singleton_eq.
Qed.

Lemma extracted_kinds sh :
  extracted sh →
  Forall (λ s, Slot.type s = "uniform" ∨ Slot.type s = "attribute")
         (Shader.slots sh).
Proof.
  intros (name & text & ->)%extracted_of_text. simpl.
  rewrite parse_text_slots. apply Forall_forall.
  intros sl (line & _ & Hsl)%list_elem_of_omap.
  apply slot_of_line_Some in Hsl as (? & ? & ? & ? & ? & _ & _ & Hkw & _).
  done.
Qed.

Lemma MakeSlots_lookup (vertex fragment : Shader.t) slots n k :
  Program._MakeSlots vertex fragment = inr slots →
  slots !! n = Some k →
  Slot.Build k n ∈ Shader.slots vertex ++ Shader.slots fragment.
Proof.
  rewrite MakeSlots_decide. simpl.
  destruct (decide (NoDup _)); [|done]. intros [= <-].
  intros ([k' n'] & [= <- <-] & Hin)%elem_of_list_to_map_2%list_elem_of_fmap.
  done.
Qed.

Lemma FetchSlots_ok (slots : gmap string string) :
  (∀ n k, slots !! n = Some k → k = "uniform" ∨ k = "attribute") →
  ∃ text, Program.FetchSlots slots = inr text.
Proof.
  intros Hkinds. unfold Program.FetchSlots, Program.FetchSlots_out.
  destruct (fetch_loop_ok slots (Program.sorted slots) []) as [out ->].
  - intros n [k Hk]%elem_of_sorted. eauto.
  - by eexists.
Qed.

End extracted_stages.

(** C10.  In a program built from stages that the extractor produced,
    every merged binding has kind [uniform] or [attribute], so the lookup
    of the kind in the table of [FetchSlots] always finds an entry:
    [FetchSlots] returns its text and the program object is built, without
    any [KeyError]. *)
Theorem fetch_lookup_is_total (vertex fragment : Shader.t)
    (slots : gmap string string) :
  extracted vertex → extracted fragment →
  Program._MakeSlots vertex fragment = inr slots →
  (∀ n k, slots !! n = Some k → k = "uniform" ∨ k = "attribute")
  ∧ (∀ n k, slots !! n = Some k → is_Some (Program.accessors !! k))
  ∧ (∃ text, Program.FetchSlots slots = inr text)
  ∧ (∀ name, ∃ p, Program.__init__ name vertex fragment = inr p).
Proof.
  intros Hv Hf Hslots.
  assert (∀ n k, slots !! n = Some k → k = "uniform" ∨ k = "attribute")
    as Hkinds.
  { intros n k Hk.
    pose proof (MakeSlots_lookup _ _ _ _ _ Hslots Hk) as Hin.
    apply extracted_kinds in Hv, Hf. rewrite Forall_forall in Hv, Hf.
    apply elem_of_app in Hin as [Hin|Hin]; [by apply Hv in Hin|by apply Hf in Hin]. }
  split_and!; [done| | |].
  - intros n k [-> | ->]%Hkinds; by eexists.
  - by apply FetchSlots_ok.
  - intros name. unfold Program.__init__. rewrite Hslots. simpl.
    destruct (FetchSlots_ok slots Hkinds) as [text ->]. by eexists.
Qed.

Lemma fetch_lookup_is_total_witness :
  ∃ text,
    Program.FetchSlots {[ "mvp" := "uniform"; "position" := "attribute";
                          "color" := "uniform" ]} = inr text.
Proof.
  apply (fetch_lookup_is_total
           (Shader.of_text "V" "uniform mat4 mvp;
attribute vec4 position;")
           (Shader.of_text "F" "uniform vec4 color;")).
  - exists "V", "v", {[ "v" := "uniform mat4 mvp;
attribute vec4 position;" ]}. eexists. vm_compute. reflexivity.
  - exists "F", "f", {[ "f" := "uniform vec4 color;" ]}. eexists.
    vm_compute. reflexivity.
  - vm_compute. reflexivity.
Defined.

(** ** The run *)

Section run.

Context {env : Env}.
Implicit Types (fs : files) (objs : gmap string Shader.t).

Lemma load_body_eq objs name filename fs :
  load_body objs (name, filename) fs
  = match fs !! filename with
    | Some text => (inr (<[name := Shader.of_text name text]> objs), fs)
    | None => (inl IOError, fs)
    end.
Proof.
  unfold load_body, mbind, io_bind. rewrite init_eq.
  by destruct (fs !! filename).
Qed.

Lemma for_each_io_cons {A S} (body : S → A → io S) st x l fs :
  for_each body st (x :: l) fs
  = match body st x fs with
    | (inl e, fs') => (inl e, fs')
    | (inr st', fs') => for_each body st' l fs'
    end.
Proof. reflexivity. Qed.

(** Loading the stages only reads files. *)
Lemma load_loop_state shaders objs fs :
  (for_each load_body objs shaders fs).2 = fs.
Proof.
  revert objs. induction shaders as [|[name filename] l IH]; intros objs.
  - done.
  - rewrite for_each_io_cons, load_body_eq.
    destruct (fs !! filename); [apply IH|done].
Qed.

(** A stage whose file cannot be read makes the loading raise. *)
Lemma load_loop_missing shaders objs fs name filename :
  (name, filename) ∈ shaders → fs !! filename = None →
  (for_each load_body objs shaders fs).1 = inl IOError.
Proof.
  intros Hin Hnone. revert objs.
  induction shaders as [|[name' filename'] l IH]; intros objs.
  - by apply elem_of_nil in Hin.
  - rewrite for_each_io_cons, load_body_eq.
    destruct (fs !! filename') as [text|] eqn:Hf; [|done].
    apply elem_of_cons in Hin as [[= <- <-]|Hin]; [congruence|].
    by apply IH.
Qed.

Lemma build_body_fail objs acc name v f (sv sf : Shader.t) e :
  objs !! v = Some sv → objs !! f = Some sf →
  Program._MakeSlots sv sf = inl e →
  build_body objs acc (name, v, f) = inl e.
Proof.
  intros Hv Hf He. unfold build_body, getitem. rewrite Hv, Hf. simpl.
  by rewrite (init_fails _ _ _ _ He).
Qed.

(** A program whose binding fails makes the second loop raise. *)
Lemma build_loop_fail objs programs acc name v f (sv sf : Shader.t) e :
  (name, v, f) ∈ programs →
  objs !! v = Some sv → objs !! f = Some sf →
  Program._MakeSlots sv sf = inl e →
  ∃ e', for_each (build_body objs) acc programs = inl e'.
Proof.
  intros Hin Hv Hf He. revert acc.
  induction programs as [|item l IH]; intros acc.
  - by apply elem_of_nil in Hin.
  - change (for_each (build_body objs) acc (item :: l))
      with (build_body objs acc item ≫= λ st', for_each (build_body objs) st' l).
    apply elem_of_cons in Hin as [<-|Hin].
    + rewrite (build_body_fail _ _ _ _ _ _ _ _ Hv Hf He). by eexists.
    + destruct (build_body objs acc item) as [e'|acc']; [by eexists|].
      by apply IH.
Qed.

(** A run that raises while loading the stages or building the programs
    leaves the files as they were. *)
Lemma main_load_fails shaders programs fs e :
  (load_shaders shaders fs).1 = inl e →
  main_with shaders programs fs = (inl e, fs).
Proof.
  intros He. unfold main_with, mbind at 1, io_bind.
  pose proof (load_loop_state shaders ∅ fs) as Hst.
  unfold load_shaders in *.
  destruct (for_each load_body ∅ shaders fs) as [[e'|objs] fs'];
    simpl in *; congruence.
Qed.

Lemma main_build_fails shaders programs fs objs e :
  (load_shaders shaders fs).1 = inr objs →
  build_programs programs objs = inl e →
  main_with shaders programs fs = (inl e, fs).
Proof.
  intros Hobjs He. unfold main_with, mbind at 1, io_bind.
  pose proof (load_loop_state shaders ∅ fs) as Hst.
  unfold load_shaders in *.
  destruct (for_each load_body ∅ shaders fs) as [[e'|objs'] fs'];
    simpl in *; [done|]. injection Hobjs as ->. subst fs'.
  unfold mbind, io_bind, lift. by rewrite He.
Qed.

End run.

(** C9.  When a stage file cannot be read, or when all stages are read
    and the binding of some program fails, [main] raises and the file
    system it leaves is the one it found: neither the declarations nor
    the definitions document has been opened or written. *)
Theorem failed_run_writes_nothing {env : Env}
    (shaders : list (string * string))
    (programs : list (string * string * string)) (fs : files) :
  (∃ name filename, (name, filename) ∈ shaders ∧ fs !! filename = None)
  ∨ (∃ objs name v f (sv sf : Shader.t) e,
       (load_shaders shaders fs).1 = inr objs
       ∧ (name, v, f) ∈ programs
       ∧ objs !! v = Some sv ∧ objs !! f = Some sf
       ∧ Program._MakeSlots sv sf = inl e) →
  ∃ e, main_with shaders programs fs = (inl e, fs).
Proof.
  intros [(name & filename & Hin & Hnone)
         |(objs & name & v & f & sv & sf & e & Hobjs & Hin & Hv & Hf & He)].
  - exists IOError. apply main_load_fails.
    by apply (load_loop_missing _ _ _ name filename).
  - destruct (build_loop_fail objs programs [] _ _ _ _ _ _ Hin Hv Hf He)
      as [e' He'].
    exists e'. by apply (main_build_fails _ _ _ objs).
Qed.

Lemma failed_run_writes_nothing_witness :
  let fs : files :=
    {[ "v.glsl" := "uniform mat4 foo;"; "f.glsl" := "attribute vec4 foo;" ]} in
  ∃ e, main_with (env := plain_env)
         [("V", "v.glsl"); ("F", "f.glsl")] [("P", "V", "F")] fs
       = (inl e, fs).
Proof.
  intros fs.
  apply (failed_run_writes_nothing (env := plain_env)
           [("V", "v.glsl"); ("F", "f.glsl")] [("P", "V", "F")] fs).
  right.
  exists {[ "V" := Shader.of_text "V" "uniform mat4 foo;";
            "F" := Shader.of_text "F" "attribute vec4 foo;" ]},
         "P", "V", "F",
         (Shader.of_text "V" "uniform mat4 foo;"),
         (Shader.of_text "F" "attribute vec4 foo;"), AssertionError.
  split_and!.
  - vm_compute. reflexivity.
  - apply list_elem_of_here.
  - vm_compute. reflexivity.
  - vm_compute. reflexivity.
  - vm_compute. reflexivity.
Defined.

(** In an environment without faults, a run over two readable stages that
    bind without clash returns and leaves both documents behind, the stage
    files untouched. *)
Example run_writes_both_documents :
  let fs : files :=
    {[ "v.glsl" := "uniform mat4 mvp;
attribute vec4 position;
void main() { gl_Position = mvp * position; }
";
       "f.glsl" := "uniform vec4 color;
void main() { gl_FragColor = color; }
" ]} in
  let run := main_with (env := plain_env)
               [("V", "v.glsl"); ("F", "f.glsl")] [("P", "V", "F")] fs in
  run.1 = inr ()
  ∧ is_Some (run.2 !! header_path)
  ∧ is_Some (run.2 !! implementation_path)
  ∧ run.2 !! "v.glsl" = fs !! "v.glsl"
  ∧ run.2 !! "f.glsl" = fs !! "f.glsl".
Proof. vm_compute. split_and!; (reflexivity || by eexists). Qed.

(** The class declared for that program. *)
Example declaration_of_the_scenario :
  let v := Shader.of_text "V" "uniform mat4 mvp;
attribute vec4 position;
" in
  let f := Shader.of_text "F" "uniform vec4 color;
" in
  (p ← Program.__init__ "P" v f; Program.Header p) = inr "class P : public Shader {
 public:
  P();

  GLint ColorLocation() const { return color_; }
  GLint MvpLocation() const { return mvp_; }
  GLint PositionLocation() const { return position_; }

 private:
  GLint color_;
  GLint mvp_;
  GLint position_;

  DISALLOW_COPY_AND_ASSIGN(P);
};
"
  ∧ (Program.UsedVertexAttribs <$> Program._MakeSlots v f)
    = inr "  SetUsedVertexAttribs(1 << position_);".
Proof. vm_compute. by split. Qed.

(** * Further properties of the script *)

(** ** The constant of a stage *)

Section quoted_source.

Lemma join_snoc_app sep l x s :
  Py.join sep (l ++ [x +:+ s]) = Py.join sep (l ++ [x]) +:+ s.
Proof.
  induction l as [|a l IH]; [done|].
  rewrite <-!app_comm_cons.
  rewrite !join_cons by (by destruct l).
  by rewrite IH, !str_app_assoc.
Qed.

Lemma add_to_last_snoc l x s :
  Shader.add_to_last (l ++ [x]) s = l ++ [x +:+ s].
Proof.
  unfold Shader.add_to_last. rewrite reverse_snoc.
  by rewrite reverse_cons, reverse_involutive.
Qed.

Lemma join_add_to_last sep out s :
  out ≠ [] →
  Py.join sep (Shader.add_to_last out s) = Py.join sep out +:+ s.
Proof.
  intros Hne. destruct (exists_last Hne) as (l & x & ->).
  by rewrite add_to_last_snoc, join_snoc_app.
Qed.

Lemma QuotedSource_eq (self : Shader.t) :
  Shader.QuotedSource self
  = Py.join Py.NL (source_decl self :: (quoted <$> Shader.source self))
    +:+ ";".
Proof.
  unfold Shader.QuotedSource.
  rewrite (foldl_snoc_map quoted), join_add_to_last; done.
Qed.

Lemma str_app_inv_tail s t u : s +:+ u = t +:+ u → s = t.
Proof.
  revert t. induction s as [|a s IH]; intros [|b t] H.
  - done.
  - apply (f_equal String.length) in H.
    rewrite !str_length_app in H. simpl in H. lia.
  - apply (f_equal String.length) in H.
    rewrite !str_length_app in H. simpl in H. lia.
  - rewrite !str_app_cons in H. injection H as -> H. f_equal. by apply IH.
Qed.

End quoted_source.

(** X1.  The constant of a stage is its declaration line and one quoted
    segment per stored line, joined by newlines, and the semicolon comes
    after the last of them; for a stage without any line the semicolon
    therefore follows the [=] of the declaration line directly. *)
Theorem QuotedSource_layout (self : Shader.t) :
  Shader.QuotedSource self
  = Py.join Py.NL (source_decl self :: (quoted <$> Shader.source self))
    +:+ ";"
  ∧ (Shader.source self = [] →
     Shader.QuotedSource self
     = "static const char* k" +:+ Shader.name self +:+ "Src =;").
Proof.
  split; [apply QuotedSource_eq|].
  intros Hnil. rewrite QuotedSource_eq, Hnil. simpl.
  unfold source_decl, Shader.SourceName. by rewrite !str_app_assoc.
Qed.

Lemma QuotedSource_layout_witness :
  Shader.QuotedSource (Shader.of_text "Empty" "")
  = "static const char* k" +:+ "Empty" +:+ "Src =;".
Proof.
  apply (proj2 (QuotedSource_layout (Shader.of_text "Empty" ""))).
  vm_compute. reflexivity.
Defined.

(** X2.  Stages with different names get constants with different
    names. *)
Theorem SourceName_inj (a b : Shader.t) :
  Shader.SourceName a = Shader.SourceName b → Shader.name a = Shader.name b.
Proof.
  unfold Shader.SourceName. intros H.
  apply (inj (String.app "k")) in H. by apply str_app_inv_tail in H.
Qed.

Lemma SourceName_inj_witness :
  Shader.name (Shader.of_text "TexColorVertex" "")
  = Shader.name (Shader.Build "TexColorVertex" ["void main() {}"] []).
Proof.
  apply (SourceName_inj (Shader.of_text "TexColorVertex" "")
           (Shader.Build "TexColorVertex" ["void main() {}"] [])).
  vm_compute. reflexivity.
Defined.

(** ** More on the extractor *)

Section extractor_more.

Lemma readlines_app a b :
  a = "" ∨ ends_nl a = true →
  Py.readlines (a +:+ b) = Py.readlines a ++ Py.readlines b.
Proof.
  induction a as [|c a IH]; [done|]. intros [|Hend]; [done|].
  rewrite str_app_cons. simpl Py.readlines.
  destruct (Ascii.eqb_spec c Py.nl) as [->|Hc].
  - rewrite IH; [done|]. destruct a; [by left|by right].
  - destruct a as [|c' a'].
    { simpl in Hend. by apply Ascii.eqb_eq in Hend. }
    rewrite IH by (by right).
    assert (Py.readlines (String c' a') ≠ []) as Hne
      by (by intros ?%readlines_nil).
    by destruct (Py.readlines (String c' a')).
Qed.

Lemma parse_text_eq text :
  Shader.parse_text text
  = (Py.rstrip_nl <$> Py.readlines text,
     omap Shader.slot_of_line (Py.rstrip_nl <$> Py.readlines text)).
Proof. unfold Shader.parse_text. by rewrite parse_fold. Qed.

Lemma parse_text_app a b :
  a = "" ∨ ends_nl a = true →
  Shader.parse_text (a +:+ b)
  = ((Shader.parse_text a).1 ++ (Shader.parse_text b).1,
     (Shader.parse_text a).2 ++ (Shader.parse_text b).2).
Proof.
  intros Ha. rewrite !parse_text_eq. simpl.
  by rewrite readlines_app, fmap_app, omap_app.
Qed.

Lemma no_nl_cons c l :
  no_nl (String c l) → c ≠ Py.nl ∧ no_nl l.
Proof.
  unfold no_nl. simpl. intros [Hc Hl]%andb_true_iff. split; [|done].
  apply negb_true_iff in Hc. by apply Ascii.eqb_neq.
Qed.

Lemma readlines_line l rest :
  no_nl l →
  Py.readlines ((l +:+ Py.NL) +:+ rest) = (l +:+ Py.NL) :: Py.readlines rest.
Proof.
  induction l as [|c l IH]; intros Hl.
  - done.
  - apply no_nl_cons in Hl as [Hc Hl].
    rewrite !str_app_cons. simpl Py.readlines.
    rewrite (proj2 (Ascii.eqb_neq _ _) Hc). by rewrite IH.
Qed.

Lemma rstrip_line l : no_nl l → Py.rstrip_nl (l +:+ Py.NL) = l.
Proof.
  induction l as [|c l IH]; intros Hl; [done|].
  apply no_nl_cons in Hl as [Hc Hl].
  by rewrite str_app_cons, rstrip_nl_cons_ne, IH.
Qed.

Lemma terminated_cons l lines :
  terminated (l :: lines) = (l +:+ Py.NL) +:+ terminated lines.
Proof. reflexivity. Qed.

Lemma lines_of_terminated lines :
  Forall no_nl lines →
  Py.rstrip_nl <$> Py.readlines (terminated lines) = lines.
Proof.
  induction 1 as [|l lines Hl _ IH]; [done|].
  rewrite terminated_cons, readlines_line by done.
  by rewrite fmap_cons, rstrip_line, IH.
Qed.

Lemma all_chars_app p a b :
  all_chars p (a +:+ b) = all_chars p a && all_chars p b.
Proof.
  induction a as [|c a IH]; [done|].
  rewrite str_app_cons. simpl. by rewrite IH, andb_assoc.
Qed.

(** The whitespace that starts a line is determined by the line. *)
Lemma ws_prefix_unique w1 c1 r1 w2 c2 r2 :
  is_ws w1 → is_ws w2 → Py.isspace c1 = false → Py.isspace c2 = false →
  w1 +:+ String c1 r1 = w2 +:+ String c2 r2 →
  w1 = w2 ∧ c1 = c2 ∧ r1 = r2.
Proof.
  unfold is_ws. revert w2.
  induction w1 as [|a w1 IH]; intros [|b w2] H1 H2 Hc1 Hc2 Heq.
  - by injection Heq as -> ->.
  - rewrite str_app_cons in Heq. injection Heq as -> _.
    simpl in H2. rewrite Hc1 in H2. done.
  - rewrite str_app_cons in Heq. injection Heq as -> _.
    simpl in H1. rewrite Hc2 in H1. done.
  - rewrite !str_app_cons in Heq. injection Heq as -> Heq.
    simpl in H1, H2.
    apply andb_true_iff in H1 as [_ H1]. apply andb_true_iff in H2 as [_ H2].
    destruct (IH w2 H1 H2 Hc1 Hc2 Heq) as (-> & -> & ->). done.
Qed.

Lemma decl_shape_start line kw ident :
  decl_shape line kw ident →
  ∃ ws c rest, line = ws +:+ String c rest ∧ is_ws ws
               ∧ Py.isspace c = false
               ∧ (c = "u"%char ∨ c = "a"%char).
Proof.
  intros (ws & ws1 & toks & ws2 & rest & -> & Hws & [-> | ->] & _).
  - exists ws, "u"%char. eexists. split; [reflexivity|]. auto.
  - exists ws, "a"%char. eexists. split; [reflexivity|]. auto.
Qed.

Lemma not_decl_line ws c rest :
  is_ws ws → Py.isspace c = false → c ≠ "u"%char → c ≠ "a"%char →
  Shader.slot_of_line (ws +:+ String c rest) = None.
Proof.
  intros Hws Hc Hu Ha.
  destruct (Shader.slot_of_line _) as [sl|] eqn:Hsl; [|done].
  apply slot_of_line_Some, decl_shape_start in Hsl
    as (ws' & c' & rest' & Heq & Hws' & Hc' & Hkw).
  destruct (ws_prefix_unique _ _ _ _ _ _ Hws Hws' Hc Hc' Heq) as (_ & -> & _).
  by destruct Hkw.
Qed.

Lemma blank_line ws : is_ws ws → Shader.slot_of_line ws = None.
Proof.
  intros Hws.
  destruct (Shader.slot_of_line _) as [sl|] eqn:Hsl; [|done].
  apply slot_of_line_Some, decl_shape_start in Hsl
    as (ws' & c' & rest' & -> & Hws' & Hc' & _).
  unfold is_ws in Hws. rewrite all_chars_app in Hws. simpl in Hws.
  rewrite Hc' in Hws. by rewrite andb_false_r in Hws.
Qed.

End extractor_more.

(** X3.  Extraction goes line by line: when a text ends with a newline
    (or is empty), the lines and the slots of that text followed by another
    are the lines and the slots of the first followed by those of the
    second. *)
Theorem parse_text_concat (a b : string) :
  a = "" ∨ ends_nl a = true →
  Shader.parse_text (a +:+ b)
  = ((Shader.parse_text a).1 ++ (Shader.parse_text b).1,
     (Shader.parse_text a).2 ++ (Shader.parse_text b).2).
Proof. apply parse_text_app. Qed.

Lemma parse_text_concat_witness :
  Shader.parse_text ("uniform mat4 mvp;
" +:+ "attribute vec4 position;")
  = (["uniform mat4 mvp;"] ++ ["attribute vec4 position;"],
     [Slot.Build "uniform" "mvp"] ++ [Slot.Build "attribute" "position"]).
Proof.
  apply (parse_text_concat "uniform mat4 mvp;
" "attribute vec4 position;").
  right. vm_compute. reflexivity.
Defined.

(** X4.  For lines without newline, the text made of each line followed
    by a newline is read back by the extractor as exactly those lines, and
    gives as slots the slots of those lines, in order. *)
Theorem parse_text_terminated (lines : list string) :
  Forall no_nl lines →
  Shader.parse_text (terminated lines)
  = (lines, omap Shader.slot_of_line lines).
Proof.
  intros Hlines. by rewrite parse_text_eq, lines_of_terminated.
Qed.

Lemma parse_text_terminated_witness :
  Shader.parse_text (terminated ["uniform vec4 color;"; ""; "void main() {}"])
  = (["uniform vec4 color;"; ""; "void main() {}"],
     omap Shader.slot_of_line ["uniform vec4 color;"; ""; "void main() {}"]).
Proof.
  apply (parse_text_terminated ["uniform vec4 color;"; ""; "void main() {}"]).
  repeat constructor.
Defined.

(** X5.  A line that is blank, or whose first character after the leading
    whitespace is neither [u] nor [a], gives no slot: comments, [varying]
    and [precision] declarations and code are never taken for a binding. *)
Theorem other_lines_give_no_slot (ws : string) :
  is_ws ws →
  Shader.slot_of_line ws = None
  ∧ ∀ c rest, Py.isspace c = false → c ≠ "u"%char → c ≠ "a"%char →
      Shader.slot_of_line (ws +:+ String c rest) = None.
Proof.
  intros Hws. split; [by apply blank_line|].
  intros c rest. by apply not_decl_line.
Qed.

Lemma other_lines_give_no_slot_witness :
  Shader.slot_of_line ("  " +:+ "// uniform mat4 old;") = None.
Proof.
  apply (proj2 (other_lines_give_no_slot "  " eq_refl)
           "/"%char "/ uniform mat4 old;"); [reflexivity|discriminate..].
Defined.

(** ** A declaration line with one semicolon *)

Section one_declaration.

(** The characters of a string. *)
Local Abbreviation chars := Stdlib.Strings.String.list_ascii_of_string.

Implicit Types (s w : string) (l : list ascii).

Lemma chars_app a b :
  chars (a +:+ b)
  = chars a ++ chars b.
Proof. induction a as [|c a IH]; [done|]. rewrite str_app_cons. simpl. by f_equal. Qed.

Lemma chars_split a b c d :
  chars (a +:+ b +:+ c +:+ d) = chars (a +:+ b) ++ chars c ++ chars d.
Proof. by rewrite !chars_app, <-!(assoc_L (++)). Qed.

Lemma chars_inj a b : chars a = chars b → a = b.
Proof.
  intros H. rewrite <-(Stdlib.Strings.String.string_of_list_ascii_of_string a), H.
  apply Stdlib.Strings.String.string_of_list_ascii_of_string.
Qed.

Lemma chars_all p s :
  all_chars p s = true ↔ Forall (λ c, p c = true) (chars s).
Proof.
  induction s as [|c s IH]; simpl.
  - split; [constructor|done].
  - rewrite andb_true_iff, Forall_cons. by rewrite IH.
Qed.

Lemma all_chars_impl (p q : ascii → bool) s :
  (∀ c, p c = true → q c = true) →
  all_chars p s = true → all_chars q s = true.
Proof.
  intros Hpq. induction s as [|c s IH]; [done|]. simpl.
  intros [Hc Hs]%andb_true_iff. by rewrite (Hpq _ Hc), IH.
Qed.

Lemma space_not_semi c : Py.isspace c = true → not_semi c = true.
Proof. by destruct c as [[] [] [] [] [] [] [] []]. Qed.

(** A run of characters of one class that is followed by a character of
    the other class is determined by the whole. *)
Lemma span_unique {A} (P : A → Prop) (l1 l2 r1 r2 : list A) x1 x2 :
  Forall P l1 → Forall P l2 → ¬ P x1 → ¬ P x2 →
  l1 ++ x1 :: r1 = l2 ++ x2 :: r2 → l1 = l2 ∧ x1 :: r1 = x2 :: r2.
Proof.
  revert l2. induction l1 as [|a l1 IH]; intros [|b l2] H1 H2 Hx1 Hx2 Heq.
  - done.
  - injection Heq as -> _. by apply Forall_cons in H2 as [? _].
  - injection Heq as -> _. by apply Forall_cons in H1 as [? _].
  - injection Heq as -> Heq.
    apply Forall_cons in H1 as [_ H1]. apply Forall_cons in H2 as [_ H2].
    by destruct (IH l2 H1 H2 Hx1 Hx2 Heq) as [-> ->].
Qed.

(** The text before the only semicolon is determined by the line. *)
Lemma semi_split_unique a1 r1 a2 r2 :
  all_chars not_semi a1 = true → all_chars not_semi r1 = true →
  a1 +:+ String ";" r1 = a2 +:+ String ";" r2 → a1 = a2 ∧ r1 = r2.
Proof.
  revert a2. induction a1 as [|c a1 IH]; intros [|c2 a2] Ha Hr Heq.
  - by injection Heq as ->.
  - rewrite str_app_cons in Heq. injection Heq as <- ->.
    rewrite all_chars_app in Hr. simpl in Hr.
    by rewrite andb_false_r in Hr.
  - rewrite str_app_cons in Heq. injection Heq as -> _. done.
  - rewrite !str_app_cons in Heq. injection Heq as -> Heq.
    simpl in Ha. apply andb_true_iff in Ha as [_ Ha].
    by destruct (IH a2 Ha Hr Heq) as [-> ->].
Qed.

Lemma last_char p s :
  s ≠ "" → all_chars p s = true →
  ∃ l c, chars s = l ++ [c] ∧ p c = true.
Proof.
  intros Hne Hall. apply chars_all in Hall.
  destruct (chars s) as [|a l] eqn:Hl.
  { by destruct s. }
  assert (a :: l ≠ []) as Hne' by done.
  destruct (exists_last Hne') as (l' & c & Heq).
  rewrite Heq in Hall |- *. exists l', c. split; [done|].
  apply Forall_app in Hall as [_ Hc]. by inversion Hc.
Qed.

(** The whitespace and the tokens before the identifier end with a
    whitespace character. *)
Lemma before_ident_ends_with_space ws1 toks :
  ws1 ≠ "" → is_ws ws1 → Forall spaced_token toks →
  ∃ l c, chars (ws1 +:+ flatten toks) = l ++ [c]
         ∧ Py.isspace c = true.
Proof.
  intros Hne Hws Htoks. revert ws1 Hne Hws.
  induction Htoks as [|t toks (a & b & -> & _ & Hb & Hbws) _ IH];
    intros ws1 Hne Hws.
  - simpl. rewrite str_app_nil_r. by apply last_char.
  - simpl. destruct (IH b Hb Hbws) as (l & c & Hl & Hc).
    exists (chars (ws1 +:+ a) ++ l), c. split; [|done].
    rewrite <-(assoc_L (++)), <-Hl, <-chars_app. by rewrite !str_app_assoc.
Qed.

Lemma ident_unique (b1 b2 i1 i2 w1 w2 : list ascii) c1 c2 :
  Py.isspace c1 = true → Py.isspace c2 = true →
  i1 ≠ [] → i2 ≠ [] →
  Forall (λ c, negb (Py.isspace c) = true) i1 →
  Forall (λ c, negb (Py.isspace c) = true) i2 →
  Forall (λ c, Py.isspace c = true) w1 →
  Forall (λ c, Py.isspace c = true) w2 →
  (b1 ++ [c1]) ++ i1 ++ w1 = (b2 ++ [c2]) ++ i2 ++ w2 → i1 = i2.
Proof.
  intros Hc1 Hc2 Hi1 Hi2 Hn1 Hn2 Hw1 Hw2 Heq.
  apply (f_equal reverse) in Heq.
  rewrite !reverse_app, !reverse_singleton, <-!(assoc_L (++)) in Heq.
  apply Forall_reverse in Hn1, Hn2.
  destruct (reverse i1) as [|x1 ri1] eqn:Hr1.
  { by apply (f_equal reverse) in Hr1; rewrite reverse_involutive in Hr1. }
  destruct (reverse i2) as [|x2 ri2] eqn:Hr2.
  { by apply (f_equal reverse) in Hr2; rewrite reverse_involutive in Hr2. }
  assert (∀ x r, Forall (λ c, negb (Py.isspace c) = true) (x :: r) →
                 ¬ Py.isspace x = true) as Hhead.
  { intros x r [Hx _]%Forall_cons. apply negb_true_iff in Hx. by rewrite Hx. }
  change (reverse w1 ++ x1 :: (ri1 ++ c1 :: reverse b1)
          = reverse w2 ++ x2 :: (ri2 ++ c2 :: reverse b2)) in Heq.
  apply Forall_reverse in Hw1, Hw2.
  destruct (span_unique (λ c, Py.isspace c = true) _ _ _ _ _ _
              Hw1 Hw2 (Hhead _ _ Hn1) (Hhead _ _ Hn2) Heq) as [_ Heq'].
  change ((x1 :: ri1) ++ c1 :: reverse b1
          = (x2 :: ri2) ++ c2 :: reverse b2) in Heq'.
  assert (∀ c, Py.isspace c = true → ¬ negb (Py.isspace c) = true) as Hsp
    by (by intros c ->).
  destruct (span_unique (λ c, negb (Py.isspace c) = true) _ _ _ _ _ _
              Hn1 Hn2 (Hsp _ Hc1) (Hsp _ Hc2) Heq') as [Heq'' _].
  rewrite <-Hr1, <-Hr2 in Heq''. by apply (inj reverse) in Heq''.
Qed.

Lemma kw_start kw :
  known_kind kw →
  ∃ c t, kw = String c t ∧ Py.isspace c = false
         ∧ ((c = "u"%char ∧ t = "niform") ∨ (c = "a"%char ∧ t = "ttribute")).
Proof.
  intros [-> | ->]; eexists _, _; (split; [reflexivity|]); split; auto.
Qed.

Lemma decl_line_unique ws kw ws1 toks ident ws2 rest kw' ident' :
  is_ws ws → known_kind kw → ws1 ≠ "" → is_ws ws1 →
  Forall spaced_token toks → is_token ident → is_ws ws2 →
  all_chars not_semi (flatten toks +:+ ident) = true →
  all_chars not_semi rest = true →
  decl_shape
    (ws +:+ kw +:+ ws1 +:+ flatten toks +:+ ident +:+ ws2 +:+ ";" +:+ rest)
    kw' ident' →
  kw' = kw ∧ ident' = ident.
Proof.
  intros Hws Hkw Hne Hws1 Htoks [Hid1 Hid2] Hws2 Hsemi Hrest.
  intros (ws' & ws1' & toks' & ws2' & rest' & Heq & Hws' & Hkw' & Hne'
          & Hws1' & Htoks' & [Hid1' Hid2'] & Hws2').
  assert (kw' = kw
          ∧ ws1 +:+ flatten toks +:+ ident +:+ ws2 +:+ ";" +:+ rest
            = ws1' +:+ flatten toks' +:+ ident' +:+ ws2' +:+ ";" +:+ rest')
    as [-> Heq1].
  { destruct (kw_start _ Hkw) as (c & t & -> & Hc & Hct).
    destruct (kw_start _ Hkw') as (c' & t' & -> & Hc' & Hct').
    rewrite !str_app_cons in Heq.
    destruct (ws_prefix_unique _ _ _ _ _ _ Hws Hws' Hc Hc' Heq)
      as (_ & <- & Hr).
    assert (t' = t) as ->.
    { destruct Hct as [[-> ->]|[-> ->]], Hct' as [[? ->]|[? ->]]; done. }
    split; [done|]. by apply (inj (String.app _)) in Hr. }
  split; [done|].
  set (A := ws1 +:+ flatten toks +:+ ident +:+ ws2).
  set (A' := ws1' +:+ flatten toks' +:+ ident' +:+ ws2').
  assert (A +:+ String ";" rest = A' +:+ String ";" rest') as Heq2.
  { subst A A'. rewrite !str_app_assoc. exact Heq1. }
  apply semi_split_unique in Heq2 as [HA _]; [|subst A|done].
  - subst A A'. apply (f_equal chars) in HA.
    destruct (before_ident_ends_with_space ws1 toks) as (b1 & c1 & Hb1 & Hc1);
      [done..|].
    destruct (before_ident_ends_with_space ws1' toks')
      as (b2 & c2 & Hb2 & Hc2); [done..|].
    rewrite !chars_split in HA. rewrite Hb1, Hb2 in HA.
    symmetry. apply chars_inj.
    eapply (ident_unique b1 b2 _ _ _ _ c1 c2 Hc1 Hc2); [..|exact HA].
    + by destruct ident.
    + by destruct ident'.
    + by apply chars_all.
    + by apply chars_all.
    + by apply chars_all.
    + by apply chars_all.
  - rewrite (all_chars_app _ ws1), <-(str_app_assoc (flatten toks)).
    rewrite (all_chars_app _ (flatten toks +:+ ident)), Hsemi.
    rewrite (all_chars_impl _ _ ws1 space_not_semi Hws1).
    by rewrite (all_chars_impl _ _ ws2 space_not_semi Hws2).
Qed.

Lemma decl_line_slot ws kw ws1 toks ident ws2 rest :
  is_ws ws → known_kind kw → ws1 ≠ "" → is_ws ws1 →
  Forall spaced_token toks → is_token ident → is_ws ws2 →
  all_chars not_semi (flatten toks +:+ ident) = true →
  all_chars not_semi rest = true →
  Shader.slot_of_line
    (ws +:+ kw +:+ ws1 +:+ flatten toks +:+ ident +:+ ws2 +:+ ";" +:+ rest)
  = Some (Slot.Build kw ident).
Proof.
  intros Hws Hkw Hne Hws1 Htoks Hid Hws2 Hsemi Hrest.
  set (line := ws +:+ _).
  assert (decl_shape line kw ident) as Hshape.
  { exists ws, ws1, toks, ws2, rest. by split_and!. }
  destruct (proj2 (slot_of_line_is_Some line)) as [[k n] Hsl]; [eauto|].
  rewrite Hsl. f_equal.
  apply slot_of_line_Some in Hsl. simpl in Hsl.
  apply decl_line_unique in Hsl as [-> ->]; done.
Qed.

End one_declaration.

(** X6.  A declaration line with a single semicolon gives exactly its own
    binding: after optional whitespace, the keyword [uniform] or
    [attribute], whitespace, any tokens (a precision, a type) and an
    identifier without semicolon, then optional whitespace, the semicolon
    and any text without semicolon (a comment, say), the slot has that
    keyword as its type and that identifier as its name. *)
Theorem declaration_line_gives_its_binding
    (ws kw ws1 : string) (toks : list string) (ident ws2 rest : string) :
  is_ws ws → known_kind kw → ws1 ≠ "" → is_ws ws1 →
  Forall spaced_token toks → is_token ident → is_ws ws2 →
  all_chars not_semi (flatten toks +:+ ident) = true →
  all_chars not_semi rest = true →
  Shader.slot_of_line
    (ws +:+ kw +:+ ws1 +:+ flatten toks +:+ ident +:+ ws2 +:+ ";" +:+ rest)
  = Some (Slot.Build kw ident).
Proof. apply decl_line_slot. Qed.

Lemma declaration_line_gives_its_binding_witness :
  Shader.slot_of_line
    ("  " +:+ "uniform" +:+ " " +:+ flatten ["highp "; "mat4  "] +:+ "mvp"
     +:+ " " +:+ ";" +:+ " // model view projection")
  = Some (Slot.Build "uniform" "mvp").
Proof.
  apply (declaration_line_gives_its_binding
           "  " "uniform" " " ["highp "; "mat4  "] "mvp" " "
           " // model view projection").
  - reflexivity.
  - by left.
  - discriminate.
  - reflexivity.
  - repeat constructor.
    + exists "highp", " ". repeat split; (reflexivity || discriminate).
    + exists "mat4", "  ". repeat split; (reflexivity || discriminate).
  - split; [discriminate|reflexivity].
  - reflexivity.
  - reflexivity.
  - reflexivity.
Defined.

(** ** More on camel case *)

Section camel_more.

Lemma split_ne sep s : Py.split sep s ≠ [].
Proof.
  destruct s as [|c s]; [done|]. simpl.
  destruct (Ascii.eqb c sep); [done|]. by destruct (Py.split sep s).
Qed.

Lemma split_pieces sep s :
  Forall (λ x, all_chars (λ c, negb (Ascii.eqb c sep)) x = true)
         (Py.split sep s).
Proof.
  induction s as [|c s IH]; [by repeat constructor|]. simpl.
  destruct (Ascii.eqb c sep) eqn:Hc; [by constructor|].
  destruct (Py.split sep s) as [|w ws]; [by repeat constructor; simpl; rewrite Hc|].
  apply Forall_cons in IH as [Hw Hws]. constructor; [|done].
  simpl. by rewrite Hc, Hw.
Qed.

Lemma case_keeps_sep_char c :
  sep_char c = true →
  sep_char (Py.toupper c) = true ∧ sep_char (Py.tolower c) = true.
Proof. by destruct c as [[] [] [] [] [] [] [] []]. Qed.

Lemma title_from_sep_char b x :
  all_chars sep_char x = true → all_chars sep_char (Py.title_from b x) = true.
Proof.
  revert b. induction x as [|c x IH]; intros b; [done|]. simpl.
  intros [Hc Hx]%andb_true_iff.
  destruct (case_keeps_sep_char c Hc) as [Hu Hl].
  destruct (Py.islower c), (Py.isupper c), b; simpl;
    rewrite ?Hc, ?Hu, ?Hl, IH; done.
Qed.

Lemma flatten_all p l :
  Forall (λ x, all_chars p x = true) l → all_chars p (flatten l) = true.
Proof.
  induction 1 as [|x l Hx _ IH]; [done|].
  simpl. by rewrite all_chars_app, Hx, IH.
Qed.

Lemma CamelCase_sep_char s : all_chars sep_char (CamelCase s) = true.
Proof.
  unfold CamelCase. rewrite join_empty. apply flatten_all.
  apply Forall_fmap. eapply Forall_impl; [apply (split_pieces "_"%char)|].
  intros x Hx. by apply title_from_sep_char.
Qed.

Lemma CamelCase_one_segment s :
  all_chars sep_char s = true → CamelCase s = Py.title s.
Proof.
  intros Hs. unfold CamelCase. by rewrite split_no_sep.
Qed.

Lemma split_snoc_sep sep s :
  Py.split sep (s +:+ String sep "") = Py.split sep s ++ [""].
Proof.
  induction s as [|c s IH].
  - simpl. by rewrite Ascii.eqb_refl.
  - rewrite str_app_cons. simpl. rewrite IH.
    destruct (Ascii.eqb c sep); [done|].
    pose proof (split_ne sep s). by destruct (Py.split sep s).
Qed.

Lemma flatten_app l k : flatten (l ++ k) = flatten l +:+ flatten k.
Proof.
  induction l as [|x l IH]; [done|]. simpl. by rewrite IH, str_app_assoc.
Qed.

Lemma CamelCase_underscores s :
  CamelCase (String "_" s) = CamelCase s
  ∧ CamelCase (s +:+ "_") = CamelCase s.
Proof.
  unfold CamelCase. split.
  - change (Py.split "_" (String "_" s)) with ("" :: Py.split "_" s).
    rewrite fmap_cons, !join_empty. reflexivity.
  - rewrite (split_snoc_sep "_"%char), fmap_app, !join_empty, flatten_app.
    simpl. by rewrite str_app_nil_r.
Qed.

End camel_more.

(** X7.  The camel-cased form of an identifier holds no underscore, and
    an identifier without underscore is a single segment: its camel-cased
    form is its title-cased form. *)
Theorem CamelCase_has_no_underscore (identifier : string) :
  all_chars sep_char (CamelCase identifier) = true
  ∧ (all_chars sep_char identifier = true →
     CamelCase identifier = Py.title identifier).
Proof.
  split; [apply CamelCase_sep_char|apply CamelCase_one_segment].
Qed.

Lemma CamelCase_has_no_underscore_witness :
  CamelCase "texCoord0" = Py.title "texCoord0".
Proof.
  apply (proj2 (CamelCase_has_no_underscore "texCoord0")). reflexivity.
Defined.

(** X8.  An underscore at the start or at the end of an identifier leaves
    no trace in its camel-cased form, so that two bindings whose names
    differ only by such an underscore get accessors of the same name. *)
Theorem CamelCase_drops_outer_underscores (identifier : string) :
  CamelCase (String "_" identifier) = CamelCase identifier
  ∧ CamelCase (identifier +:+ "_") = CamelCase identifier.
Proof. apply CamelCase_underscores. Qed.

(** ** The templates *)

Section templates.

Lemma shader_template_subst (a fs frs n sl u vs : string) :
  Template.substitute (Py.lstrip_nl shader_template)
    {[ "Accessors" := a; "FetchSlots" := fs; "FragmentSource" := frs;
       "ShaderName" := n; "Slots" := sl; "UsedVertexAttribs" := u;
       "VertexSource" := vs ]}
  = inr (class_decl n a sl).
Proof. vm_compute. reflexivity. Qed.

Lemma ctor_template_subst (a fs frs n sl u vs : string) :
  Template.substitute (Py.lstrip_nl ctor_template)
    {[ "Accessors" := a; "FetchSlots" := fs; "FragmentSource" := frs;
       "ShaderName" := n; "Slots" := sl; "UsedVertexAttribs" := u;
       "VertexSource" := vs ]}
  = inr (ctor_def n vs frs fs u).
Proof. vm_compute. reflexivity. Qed.

Lemma header_subst (h i src : string) :
  Template.substitute (Py.lstrip_nl header)
    (<["Sources" := src]> (<["Implementations" := i]> (<["Headers" := h]> ∅)))
  = inr (header_doc h).
Proof. vm_compute. reflexivity. Qed.

Lemma implementation_subst (h i src : string) :
  Template.substitute (Py.lstrip_nl implementation)
    (<["Sources" := src]> (<["Implementations" := i]> (<["Headers" := h]> ∅)))
  = inr (implementation_doc src i).
Proof. vm_compute. reflexivity. Qed.

End templates.

(** ** More on the rendering of a program *)

Section rendering_more.

Implicit Types (slots : gmap string string).

Lemma accessors_lookup k : is_Some (Program.accessors !! k) ↔ known_kind k.
Proof.
  unfold Program.accessors, known_kind.
  rewrite lookup_insert_is_Some, lookup_singleton_is_Some.
  split; [intros [?|[_ ?]]|intros [?|?]]; auto.
  destruct (decide ("uniform" = k)); auto.
Qed.

Lemma fetch_loop_decide slots l acc :
  for_each (Program.fetch_body slots) acc l
  = if decide (Forall (λ n, is_Some (slots !! n ≫= (Program.accessors !!.))) l)
    then inr (acc ++ mjoin (fetch_lines slots <$> l)) else inl KeyError.
Proof.
  revert acc. induction l as [|n l IH]; intros acc.
  - rewrite decide_True by constructor. simpl. by rewrite (right_id_L [] (++)).
  - change (for_each (Program.fetch_body slots) acc (n :: l))
      with (Program.fetch_body slots acc n
            ≫= λ st', for_each (Program.fetch_body slots) st' l).
    rewrite fetch_body_eq.
    destruct (slots !! n ≫= _) as [a|] eqn:Hn.
    + simpl. rewrite IH.
      destruct (decide (Forall _ l)) as [Hl|Hl].
      * rewrite decide_True.
        { by rewrite <-(assoc_L (++)). }
        constructor; [by rewrite Hn|done].
      * rewrite decide_False; [done|]. by intros [_ ?]%Forall_cons.
    + rewrite decide_False; [done|].
      intros [[? Hs] _]%Forall_cons. by rewrite Hn in Hs.
Qed.

Lemma sorted_kinds_known slots :
  Forall (λ n, is_Some (slots !! n ≫= (Program.accessors !!.)))
         (Program.sorted slots)
  ↔ ∀ n k, slots !! n = Some k → known_kind k.
Proof.
  rewrite Forall_forall. split.
  - intros H n k Hk. apply accessors_lookup.
    specialize (H n). rewrite Hk in H. apply H.
    apply elem_of_sorted. by rewrite Hk.
  - intros H n [k Hk]%elem_of_sorted. rewrite Hk. simpl.
    apply accessors_lookup. eauto.
Qed.

Lemma FetchSlots_out_decide slots :
  Program.FetchSlots_out slots
  = if decide (∀ n k, slots !! n = Some k → known_kind k)
    then inr (mjoin (fetch_lines slots <$> Program.sorted slots))
    else inl KeyError.
Proof.
  unfold Program.FetchSlots_out. rewrite fetch_loop_decide.
  destruct (decide (Forall _ _)) as [H|H];
    [rewrite decide_True|rewrite decide_False];
    by rewrite <-?sorted_kinds_known.
Qed.

Lemma FetchSlots_KeyError slots :
  Program.FetchSlots slots = inl KeyError
  ↔ ∃ n k, slots !! n = Some k ∧ ¬ known_kind k.
Proof.
  unfold Program.FetchSlots, Program.FetchSlots_out.
  rewrite fetch_loop_decide.
  destruct (decide (Forall _ _)) as [H|H]; simpl.
  - split; [done|]. intros (n & k & Hk & Hno). exfalso. apply Hno.
    apply (proj1 (sorted_kinds_known slots) H n k Hk).
  - split; [|done]. intros _.
    apply not_Forall_Exists in H; [|apply _].
    apply Exists_exists in H as (n & [k Hk]%elem_of_sorted & Hno).
    exists n, k. split; [done|]. intros Hkind%accessors_lookup.
    apply Hno. simpl. by rewrite Hk.
Qed.

Lemma FetchSlots_only_KeyError slots e :
  Program.FetchSlots slots = inl e → e = KeyError.
Proof.
  unfold Program.FetchSlots. rewrite FetchSlots_out_decide.
  destruct (decide _); simpl; [done|]. by intros [= <-].
Qed.

Lemma pairs_lookup {A B} (f g : A → B) (l : list A) i :
  mjoin ((λ x, [f x; g x]) <$> l) !! (2 * i) = f <$> l !! i
  ∧ mjoin ((λ x, [f x; g x]) <$> l) !! (2 * i + 1) = g <$> l !! i.
Proof.
  revert i. induction l as [|x l IH]; intros i; [done|].
  destruct i as [|i]; [done|].
  replace (2 * S i) with (S (S (2 * i))) by lia.
  replace (S (S (2 * i)) + 1) with (S (S (2 * i + 1))) by lia.
  simpl. apply IH.
Qed.

Lemma pairs_length {A B} (f g : A → B) (l : list A) :
  length (mjoin ((λ x, [f x; g x]) <$> l)) = 2 * length l.
Proof. induction l as [|x l IH]; [done|]. unfold fmap in *. simpl in *. lia. Qed.

Lemma fetch_lines_known slots l :
  Forall (λ n, is_Some (slots !! n ≫= (Program.accessors !!.))) l →
  fetch_lines slots <$> l
  = (λ n, [Program.fmt_fetch n
             (default "" (slots !! n ≫= (Program.accessors !!.)));
           Program.fmt_check n]) <$> l.
Proof.
  intros H. apply Forall_fmap_ext_1. eapply Forall_impl; [exact H|].
  intros n [a Ha]. unfold fetch_lines. by rewrite Ha.
Qed.

Lemma FetchSlots_out_lines slots lines :
  Program.FetchSlots_out slots = inr lines →
  length lines = 2 * size slots
  ∧ ∀ i n, Program.sorted slots !! i = Some n →
      ∃ k acc, slots !! n = Some k ∧ Program.accessors !! k = Some acc
               ∧ lines !! (2 * i) = Some (Program.fmt_fetch n acc)
               ∧ lines !! (2 * i + 1) = Some (Program.fmt_check n).
Proof.
  unfold Program.FetchSlots_out. rewrite fetch_loop_decide.
  destruct (decide (Forall _ _)) as [H|]; [|done]. intros [= <-].
  rewrite fetch_lines_known by done. split.
  - rewrite <-length_sorted. apply pairs_length.
  - intros i n Hi.
    rewrite Forall_forall in H.
    destruct (H n) as [acc Hacc]; [by eapply list_elem_of_lookup_2|].
    destruct (slots !! n) as [k|] eqn:Hk; [|done]. simpl in Hacc.
    exists k, acc. split_and!; [done..| |].
    + rewrite (proj1 (pairs_lookup _ _ _ i)), Hi. simpl.
      by rewrite Hk; simpl; rewrite Hacc.
    + by rewrite (proj2 (pairs_lookup _ _ _ i)), Hi.
Qed.

Lemma init_decide name (vertex fragment : Shader.t) :
  let all_slots := Shader.slots vertex ++ Shader.slots fragment in
  let slots : gmap string string := list_to_map (kv <$> all_slots) in
  Program.__init__ name vertex fragment
  = if decide (NoDup (Slot.name <$> all_slots)) then
      if decide (Forall (λ s, known_kind (Slot.type s)) all_slots) then
        inr (Program.Build name vertex fragment slots
               {[ "Accessors" := Program.Accessors slots;
                  "FetchSlots" :=
                    Py.join Py.NL
                      (mjoin (fetch_lines slots <$> Program.sorted slots));
                  "FragmentSource" := Shader.SourceName fragment;
                  "ShaderName" := name;
                  "Slots" := Program.Slots slots;
                  "UsedVertexAttribs" := Program.UsedVertexAttribs slots;
                  "VertexSource" := Shader.SourceName vertex ]})
      else inl KeyError
    else inl AssertionError.
Proof.
  simpl. unfold Program.__init__. rewrite MakeSlots_decide. simpl.
  destruct (decide (NoDup _)) as [Hnd|]; [|done]. simpl.
  unfold Program.FetchSlots. rewrite FetchSlots_out_decide.
  set (all_slots := Shader.slots vertex ++ Shader.slots fragment) in *.
  assert ((∀ n k, (list_to_map (kv <$> all_slots) : gmap string string) !! n
                  = Some k → known_kind k)
          ↔ Forall (λ s, known_kind (Slot.type s)) all_slots) as Hiff.
  { rewrite Forall_forall. split.
    - intros H [k n] Hin. apply (H n k).
      apply elem_of_list_to_map_1; [by rewrite kv_fst|].
      apply list_elem_of_fmap. by exists (Slot.Build k n).
    - intros H n k ([k' n'] & [= <- <-] & Hin)%elem_of_list_to_map_2%list_elem_of_fmap.
      by apply H in Hin. }
  destruct (decide (∀ n k, _)) as [H|H];
    [rewrite decide_True by (by apply Hiff)
    |rewrite decide_False by (by rewrite <-Hiff)]; done.
Qed.

End rendering_more.

(** X9.  [FetchSlots] raises exactly when some binding of the program has
    a kind other than [uniform] and [attribute], and the exception is then
    a [KeyError]. *)
Theorem FetchSlots_raises_for_unknown_kinds (slots : gmap string string) :
  (∀ e, Program.FetchSlots slots = inl e → e = KeyError)
  ∧ (Program.FetchSlots slots = inl KeyError
     ↔ ∃ n k, slots !! n = Some k ∧ ¬ known_kind k).
Proof.
  split; [apply FetchSlots_only_KeyError|apply FetchSlots_KeyError].
Qed.

Lemma FetchSlots_raises_for_unknown_kinds_witness :
  Program.FetchSlots {[ "mvp" := "uniform"; "tex" := "varying" ]}
  = inl KeyError.
Proof.
  apply (proj2 (FetchSlots_raises_for_unknown_kinds
                  {[ "mvp" := "uniform"; "tex" := "varying" ]})).
  exists "tex", "varying". split; [reflexivity|].
  intros [H|H]; discriminate H.
Defined.

(** X10.  When [FetchSlots] returns, it has emitted two lines per binding,
    in the order of the sorted names: the lookup of the binding, by the
    call that the table gives for its kind, directly followed by the check
    of the member it has just assigned. *)
Theorem lookups_are_checked_in_order (slots : gmap string string)
    (lines : list string) :
  Program.FetchSlots_out slots = inr lines →
  length lines = 2 * size slots
  ∧ ∀ i n, Program.sorted slots !! i = Some n →
      ∃ k acc, slots !! n = Some k ∧ Program.accessors !! k = Some acc
               ∧ lines !! (2 * i) = Some (Program.fmt_fetch n acc)
               ∧ lines !! (2 * i + 1) = Some (Program.fmt_check n).
Proof. apply FetchSlots_out_lines. Qed.

Lemma lookups_are_checked_in_order_witness :
  length [Program.fmt_fetch "mvp" "Uniform"; Program.fmt_check "mvp";
          Program.fmt_fetch "pos" "Attrib"; Program.fmt_check "pos"]
  = 2 * size ({[ "pos" := "attribute"; "mvp" := "uniform" ]}
                : gmap string string).
Proof.
  apply (lookups_are_checked_in_order
           {[ "pos" := "attribute"; "mvp" := "uniform" ]}).
  vm_compute. reflexivity.
Defined.

(** X11.  The outcome of building a program: an [AssertionError] when a
    name occurs twice among the slots of its two stages; otherwise a
    [KeyError] when some slot has a kind other than [uniform] and
    [attribute]; otherwise the program object, whose bindings map every
    declared name to its kind and whose substitutions are the seven texts
    rendered from them. *)
Theorem Program_init_outcome (name : string) (vertex fragment : Shader.t) :
  let all_slots := Shader.slots vertex ++ Shader.slots fragment in
  let slots : gmap string string := list_to_map (kv <$> all_slots) in
  Program.__init__ name vertex fragment
  = if decide (NoDup (Slot.name <$> all_slots)) then
      if decide (Forall (λ s, known_kind (Slot.type s)) all_slots) then
        inr (Program.Build name vertex fragment slots
               {[ "Accessors" := Program.Accessors slots;
                  "FetchSlots" :=
                    Py.join Py.NL
                      (mjoin (fetch_lines slots <$> Program.sorted slots));
                  "FragmentSource" := Shader.SourceName fragment;
                  "ShaderName" := name;
                  "Slots" := Program.Slots slots;
                  "UsedVertexAttribs" := Program.UsedVertexAttribs slots;
                  "VertexSource" := Shader.SourceName vertex ]})
      else inl KeyError
    else inl AssertionError.
Proof. apply init_decide. Qed.

(** X12.  A program without attribute binding, whether it has uniforms or
    no binding at all, gets the registration call without argument. *)
Theorem no_attribute_no_argument (slots : gmap string string) :
  (∀ n, slots !! n ≠ Some "attribute") →
  Program.UsedVertexAttribs slots = "  SetUsedVertexAttribs();".
Proof. apply UsedVertexAttribs_no_attribute. Qed.

Lemma no_attribute_no_argument_witness :
  Program.UsedVertexAttribs {[ "color" := "uniform"; "mvp" := "uniform" ]}
  = "  SetUsedVertexAttribs();".
Proof.
  apply (no_attribute_no_argument
           {[ "color" := "uniform"; "mvp" := "uniform" ]}).
  intros n.
  destruct (decide (n = "color")) as [->|]; [by vm_compute|].
  destruct (decide (n = "mvp")) as [->|]; [by vm_compute|].
  by rewrite lookup_insert_ne, lookup_singleton_ne.
Defined.

Section built_program.

Lemma built_program_texts name (vertex fragment : Shader.t) p :
  Program.__init__ name vertex fragment = inr p →
  Program.Header p
  = inr (class_decl name (Program.Accessors (Program.slots p))
                         (Program.Slots (Program.slots p)))
  ∧ ∃ fetch,
      Program.FetchSlots (Program.slots p) = inr fetch
      ∧ Program.Implementation p
        = inr (ctor_def name (Shader.SourceName vertex)
                 (Shader.SourceName fragment) fetch
                 (Program.UsedVertexAttribs (Program.slots p))).
Proof.
  unfold Program.__init__.
  destruct (Program._MakeSlots vertex fragment) as [|slots]; [done|]. simpl.
  destruct (Program.FetchSlots slots) as [|fetch] eqn:Hfetch; [done|]. simpl.
  intros [= <-]. unfold Program.Header, Program.Implementation. simpl.
  split; [apply shader_template_subst|].
  exists fetch. split; [done|]. apply ctor_template_subst.
Qed.

End built_program.

(** X13.  For a program that has been built, the two templates are always
    filled without error, whatever its name and the text of its bindings:
    [Header] is the class declaration around the accessors and the storage
    slots, and [Implementation] is the constructor around the names of the
    two source constants, the lookups and the registration call. *)
Theorem built_program_renders (name : string) (vertex fragment : Shader.t)
    (p : Program.t) :
  Program.__init__ name vertex fragment = inr p →
  Program.Header p
  = inr (class_decl name (Program.Accessors (Program.slots p))
                         (Program.Slots (Program.slots p)))
  ∧ ∃ fetch,
      Program.FetchSlots (Program.slots p) = inr fetch
      ∧ Program.Implementation p
        = inr (ctor_def name (Shader.SourceName vertex)
                 (Shader.SourceName fragment) fetch
                 (Program.UsedVertexAttribs (Program.slots p))).
Proof. apply built_program_texts. Qed.

Lemma built_program_renders_witness :
  ∃ p, Program.__init__ "P$1" (Shader.of_text "V" "attribute vec4 pos;")
         (Shader.of_text "F" "") = inr p
       ∧ Program.Header p
         = inr (class_decl "P$1" (Program.Accessors (Program.slots p))
                  (Program.Slots (Program.slots p))).
Proof.
  destruct (Program.__init__ "P$1" (Shader.of_text "V" "attribute vec4 pos;")
              (Shader.of_text "F" "")) as [e|p] eqn:Hp.
  { vm_compute in Hp. discriminate Hp. }
  exists p. split; [reflexivity|].
  exact (proj1 (built_program_renders _ _ _ p Hp)).
Defined.

(** ** Accessors *)

Section accessors.

Lemma fmt_accessor_decl slot :
  Program.fmt_accessor slot
  = accessor_decl (accessor_name slot) (slot +:+ "_").
Proof.
  unfold Program.fmt_accessor, accessor_decl, accessor_name.
  by rewrite !str_app_assoc.
Qed.

Lemma title_from_get before s i :
  String.get i (Py.title_from (default false (isalpha <$> before)) s)
  = title_char (match i with 0 => before | S j => String.get j s end)
      <$> String.get i s.
Proof.
  revert before i. induction s as [|c s IH]; intros before i.
  - by destruct i.
  - destruct i as [|i].
    + unfold title_char. generalize (default false (isalpha <$> before)).
      intros b. unfold isalpha. simpl.
      destruct (Py.islower c) eqn:Hl.
      * simpl. unfold Py.tolower. rewrite (islower_not_upper _ Hl).
        by destruct b.
      * destruct (Py.isupper c) eqn:Hu; simpl; [|done].
        unfold Py.toupper. rewrite Hl. by destruct b.
    + assert (∀ b, String.get (S i) (Py.title_from b (String c s))
              = String.get i (Py.title_from (isalpha c) s)) as ->.
      { intros b. unfold isalpha. simpl.
        destruct (Py.islower c); [done|]. by destruct (Py.isupper c). }
      etrans; [apply (IH (Some c) i)|].
      simpl. by destruct i.
Qed.

(** Title case, character by character. *)
Lemma title_get s i :
  String.get i (Py.title s)
  = title_char (char_before s i) <$> String.get i s.
Proof. apply (title_from_get None). Qed.

(** An identifier made of pieces joined by underscores is rendered as the
    pieces in title case, concatenated. *)
Lemma CamelCase_join segs :
  segs ≠ [] → Forall (λ x, all_chars sep_char x = true) segs →
  CamelCase (Py.join "_" segs) = flatten (Py.title <$> segs).
Proof.
  intros Hne Hsegs. unfold CamelCase.
  by rewrite (split_join "_"%char), join_empty.
Qed.

Lemma NoDup_fmap_iff {A B} (f : A → B) (l : list A) :
  NoDup l →
  NoDup (f <$> l) ↔ ∀ x y, x ∈ l → y ∈ l → f x = f y → x = y.
Proof.
  intros Hl. split.
  - intros Hfl x y [i Hi]%list_elem_of_lookup [j Hj]%list_elem_of_lookup Hxy.
    assert (i = j) as ->.
    { apply (proj1 (NoDup_alt (f <$> l)) Hfl i j (f x)).
      - by rewrite list_lookup_fmap, Hi.
      - by rewrite list_lookup_fmap, Hj, Hxy. }
    congruence.
  - intros Hinj. by apply NoDup_fmap_2_strong.
Qed.

Lemma accessor_name_inj n m :
  accessor_name n = accessor_name m ↔ CamelCase n = CamelCase m.
Proof.
  unfold accessor_name. split; [apply str_app_inv_tail|by intros ->].
Qed.

(** The bindings of a program are the slots that its stages declare. *)
Lemma sorted_MakeSlots (vertex fragment : Shader.t) slots :
  Program._MakeSlots vertex fragment = inr slots →
  Program.sorted slots
  ≡ₚ Slot.name <$> Shader.slots vertex ++ Shader.slots fragment.
Proof.
  rewrite MakeSlots_decide. simpl.
  destruct (decide (NoDup _)) as [Hnd|]; [|done]. intros [= <-].
  rewrite sorted_perm, map_to_list_to_map.
  - by rewrite <-list_fmap_compose.
  - by rewrite <-list_fmap_compose.
Qed.

Lemma init_slots name (vertex fragment : Shader.t) p :
  Program.__init__ name vertex fragment = inr p →
  Program._MakeSlots vertex fragment = inr (Program.slots p).
Proof.
  unfold Program.__init__.
  destruct (Program._MakeSlots vertex fragment) as [|slots]; [done|]. simpl.
  destruct (Program.FetchSlots slots) as [|fetch]; [done|]. simpl.
  by intros [= <-].
Qed.

End accessors.

(** C8, as stated, fails.  Two bindings whose identifiers differ by the
    case of a letter only, [foo] and [Foo], have the same camel-cased
    name: the class declares two accessors called [FooLocation], not one
    for each.  And the segments are put in title case, which is not
    capitalization when a letter follows a digit: the accessor of
    [tex2d_in] is [Tex2DInLocation], and the class has no accessor
    [Tex2dInLocation]. *)
Lemma accessor_names_are_not_capitalized_segments :
  ¬ spec_accessors capitalize ∧ ¬ spec_accessors upper_first
  ∧ CamelCase "tex2d_in" = "Tex2DIn"
  ∧ spec_CamelCase capitalize "tex2d_in" = "Tex2dIn"
  ∧ spec_CamelCase upper_first "tex2d_in" = "Tex2dIn"
  ∧ (∃ p text,
       Program.__init__ "P" (Shader.of_text "V" "uniform vec4 foo;
uniform vec4 Foo;
") (Shader.of_text "F" "") = inr p
       ∧ Program.Header p = inr text
       ∧ declarations_of "FooLocation" text
         = ["  GLint FooLocation() const { return Foo_; }";
            "  GLint FooLocation() const { return foo_; }"])
  ∧ (∃ p text,
       Program.__init__ "P" (Shader.of_text "V" "uniform sampler2D tex2d_in;
") (Shader.of_text "F" "") = inr p
       ∧ Program.Header p = inr text
       ∧ declarations_of "Tex2DInLocation" text
         = ["  GLint Tex2DInLocation() const { return tex2d_in_; }"]
       ∧ declarations_of "Tex2dInLocation" text = []).
Proof.
  assert (∀ cap, cap "foo" = "Foo" → ¬ spec_accessors cap) as Hclash.
  { intros cap Hcap H.
    assert (∃ p text,
       Program.__init__ "P" (Shader.of_text "V" "uniform vec4 foo;
uniform vec4 Foo;
") (Shader.of_text "F" "") = inr p
       ∧ Program.Header p = inr text
       ∧ is_Some (Program.slots p !! "foo")
       ∧ length (declarations_of "FooLocation" text) = 2)
      as (p & text & Hp & Ht & Hs & Hlen).
    { eexists _, _. split; [vm_compute; reflexivity|].
      split; [vm_compute; reflexivity|].
      split; [by eexists|]. vm_compute. reflexivity. }
    pose proof (H _ _ _ _ _ _ Hp Ht Hs) as H1.
    unfold spec_CamelCase in H1.
    change (Py.split "_" "foo") with ["foo"] in H1.
    change (flatten (cap <$> ["foo"])) with (cap "foo" +:+ "") in H1.
    rewrite Hcap in H1.
    change (("Foo" +:+ "") +:+ "Location") with "FooLocation" in H1.
    rewrite Hlen in H1. discriminate H1. }
  split_and!.
  - by apply Hclash.
  - by apply Hclash.
  - vm_compute. reflexivity.
  - vm_compute. reflexivity.
  - vm_compute. reflexivity.
  - eexists _, _. split; [vm_compute; reflexivity|].
    split; vm_compute; reflexivity.
  - eexists _, _. split; [vm_compute; reflexivity|].
    split; [vm_compute; reflexivity|].
    split; vm_compute; reflexivity.
Qed.

(** C8, amended.  The class declared for a program holds one accessor
    line for each binding that its stages declare, in the order of the
    sorted names, which strictly increase: the accessor of [name] is
    called [CamelCase(name)] followed by [Location] and returns the member
    [name_].  The names of
    the accessors are pairwise distinct exactly when the camel-cased
    names of the bindings are.  [CamelCase] cuts the identifier at
    underscores, puts each piece in title case and concatenates the
    pieces; in title case a letter that begins the piece or follows a
    character that is not a letter is in upper case, a letter that
    follows a letter is in lower case, and the other characters are kept.
    On a piece made of letters followed by characters that are not
    letters this is capitalization, so [some_name] gives [SomeName], and
    bindings [mvp], [position] and [color] give [ColorLocation],
    [MvpLocation] and [PositionLocation]. *)
Theorem accessors_are_title_cased (name : string)
    (vertex fragment : Shader.t) (p : Program.t) :
  Program.__init__ name vertex fragment = inr p →
  let names := Program.sorted (Program.slots p) in
  Program.Header p
  = inr (class_decl name
           (Py.join Py.NL
              ((λ n, accessor_decl (accessor_name n) (n +:+ "_")) <$> names))
           (Program.Slots (Program.slots p)))
  ∧ names ≡ₚ Slot.name <$> Shader.slots vertex ++ Shader.slots fragment
  ∧ NoDup names
  ∧ StronglySorted (λ a b, String.compare a b = Lt) names
  ∧ (NoDup (accessor_name <$> names)
     ↔ ∀ n m, n ∈ names → m ∈ names → CamelCase n = CamelCase m → n = m)
  ∧ (∀ segs, segs ≠ [] → Forall (λ x, all_chars sep_char x = true) segs →
       CamelCase (Py.join "_" segs) = flatten (Py.title <$> segs))
  ∧ (∀ s i, String.get i (Py.title s)
            = title_char (char_before s i) <$> String.get i s)
  ∧ (∀ s, segment s = true → Py.title s = capitalize s)
  ∧ (∀ segs, segs ≠ [] → Forall (λ x, segment x = true) segs →
       CamelCase (Py.join "_" segs) = flatten (capitalize <$> segs))
  ∧ CamelCase "some_name" = "SomeName"
  ∧ accessor_name
      <$> Program.sorted {[ "mvp" := "uniform"; "position" := "attribute";
                            "color" := "uniform" ]}
    = ["ColorLocation"; "MvpLocation"; "PositionLocation"].
Proof.
  intros Hp names. split_and!.
  - destruct (built_program_texts _ _ _ _ Hp) as [-> _].
    rewrite Accessors_eq. do 3 f_equal.
    apply list_fmap_ext. intros _ n _. apply fmt_accessor_decl.
  - by apply sorted_MakeSlots, (init_slots name).
  - apply sorted_NoDup.
  - apply sorted_strict.
  - rewrite (NoDup_fmap_iff accessor_name) by apply sorted_NoDup.
    split; intros H n m Hn Hm Hnm; apply (H n m Hn Hm);
      by apply accessor_name_inj.
  - apply CamelCase_join.
  - apply title_get.
  - apply segment_title.
  - apply CamelCase_segments.
  - vm_compute. reflexivity.
  - vm_compute. reflexivity.
Qed.

Lemma accessors_are_title_cased_witness :
  ∃ p,
    Program.__init__ "P"
      (Shader.of_text "V" "uniform mat4 mvp;
attribute vec4 position;
") (Shader.of_text "F" "uniform vec4 color;
") = inr p
    ∧ Program.Header p
      = inr (class_decl "P"
               (Py.join Py.NL
                  ((λ n, accessor_decl (accessor_name n) (n +:+ "_"))
                     <$> Program.sorted (Program.slots p)))
               (Program.Slots (Program.slots p))).
Proof.
  eexists. split; [vm_compute; reflexivity|].
  apply (accessors_are_title_cased "P"
      (Shader.of_text "V" "uniform mat4 mvp;
attribute vec4 position;
") (Shader.of_text "F" "uniform vec4 color;
")).
  vm_compute. reflexivity.
Defined.

(** ** Dictionaries in the order of enumeration *)

Section dictionaries.

Context {env : Env}.

Lemma elem_of_iter_keys history k : k ∈ iter_keys history ↔ k ∈ history.
Proof. by rewrite iter_keys_perm, elem_of_remove_dups. Qed.

Lemma NoDup_iter_keys history : NoDup (iter_keys history).
Proof. rewrite iter_keys_perm. apply NoDup_remove_dups. Qed.

Lemma iteritems_snd {V} history (d : gmap string V) :
  (iteritems history d).*2 = itervalues history d.
Proof.
  unfold iteritems, itervalues.
  induction (iter_keys history) as [|k l IH]; [done|].
  simpl. destruct (d !! k); simpl; [f_equal|]; exact IH.
Qed.

Lemma iteritems_fst {V} history (d : gmap string V) :
  (iteritems history d).*1
  = filter (λ k, is_Some (d !! k)) (iter_keys history).
Proof.
  unfold iteritems.
  induction (iter_keys history) as [|k l IH]; [done|].
  simpl. destruct (d !! k) eqn:Hk; simpl.
  - rewrite filter_cons_True by (by rewrite Hk). f_equal. exact IH.
  - rewrite filter_cons_False; [exact IH|]. rewrite Hk. by intros [? ?].
Qed.

Lemma elem_of_iteritems {V} history (d : gmap string V) k v :
  (k, v) ∈ iteritems history d ↔ k ∈ history ∧ d !! k = Some v.
Proof.
  unfold iteritems. rewrite list_elem_of_omap. split.
  - intros (k' & Hk' & Hv). apply (proj1 (elem_of_iter_keys _ _)) in Hk'.
    destruct (d !! k') as [v'|] eqn:Hd; [|done].
    injection Hv as <- <-. by split.
  - intros [Hk Hv]. exists k. rewrite elem_of_iter_keys, Hv. by split.
Qed.

Lemma elem_of_itervalues {V} history (d : gmap string V) v :
  v ∈ itervalues history d ↔ ∃ k, k ∈ history ∧ d !! k = Some v.
Proof.
  unfold itervalues. rewrite list_elem_of_omap.
  split.
  - intros (k & Hk & Hv). exists k. split; [|done].
    by apply (proj1 (elem_of_iter_keys _ _)).
  - intros (k & Hk & Hv). exists k. split; [|done].
    by apply (proj2 (elem_of_iter_keys _ _)).
Qed.

Lemma omap_lookup_keys {V} (d : gmap string V) (l : list (string * V)) :
  Forall (λ kv, d !! kv.1 = Some kv.2) l → omap (d !!.) l.*1 = l.*2.
Proof.
  induction 1 as [|[k v] l Hkv _ IH]; [done|].
  simpl in *. rewrite Hkv. f_equal. exact IH.
Qed.

Lemma omap_lookup_absent {V} (d : gmap string V) (l : list string) :
  Forall (λ k, d !! k = None) l → omap (d !!.) l = [].
Proof. induction 1 as [|k l Hk _ IH]; [done|]. simpl. by rewrite Hk. Qed.

(** A dictionary enumerates each of its values once, whatever the order,
    when every key is in the history of its insertions. *)
Lemma itervalues_perm {V} history (d : gmap string V) :
  (∀ k, is_Some (d !! k) → k ∈ history) →
  itervalues history d ≡ₚ (map_to_list d).*2.
Proof.
  intros Hdom. unfold itervalues.
  rewrite <-(filter_app_complement (λ k, is_Some (d !! k)) (iter_keys history)).
  rewrite omap_app,
    (omap_lookup_absent d (filter (λ k, ¬ is_Some (d !! k)) _)).
  - rewrite app_nil_r.
    assert (filter (λ k, is_Some (d !! k)) (iter_keys history)
            ≡ₚ (map_to_list d).*1) as ->.
    { apply NoDup_Permutation.
      - apply NoDup_filter, NoDup_iter_keys.
      - apply NoDup_fst_map_to_list.
      - intros k. rewrite list_elem_of_filter, elem_of_iter_keys.
        rewrite list_elem_of_fmap. split.
        + intros [[v Hv] _]. exists (k, v). by rewrite elem_of_map_to_list.
        + intros ([k' v] & -> & Hin%elem_of_map_to_list). simpl.
          split; [by eexists|]. apply Hdom. by eexists. }
    rewrite omap_lookup_keys; [done|].
    apply Forall_forall. by intros [k v] Hin%elem_of_map_to_list.
  - apply Forall_forall. intros k [Hk _]%list_elem_of_filter.
    by apply eq_None_not_Some.
Qed.

Lemma dict_literal_dom {V} (items : list (string * V)) k :
  is_Some (dict_literal items !! k) ↔ k ∈ items.*1.
Proof.
  unfold dict_literal.
  assert (∀ d : gmap string V,
            is_Some (foldl (λ d item, <[item.1 := item.2]> d) d items !! k)
            ↔ is_Some (d !! k) ∨ k ∈ items.*1) as H.
  { induction items as [|item l IH]; intros d.
    - simpl. rewrite elem_of_nil. tauto.
    - rewrite fmap_cons, elem_of_cons. simpl.
      rewrite IH, lookup_insert_is_Some.
      destruct (decide (item.1 = k)) as [Heq|Hne].
      + split; intros _; [right; left; done|left; left; done].
      + split.
        * intros [[?|[_ ?]]|?]; [done|by left|by right; right].
        * intros [?|[?|?]]; [left; right; done|congruence|by right]. }
  rewrite H, lookup_empty, is_Some_alt. tauto.
Qed.

End dictionaries.

(** ** More on the run *)

Section run_more.

Context {env : Env}.
Implicit Types (fs : files) (objs : gmap string Shader.t).

Lemma load_loop_eq shaders objs fs :
  for_each load_body objs shaders fs
  = if decide (Forall (λ item, is_Some (fs !! item.2)) shaders)
    then (inr (foldl (λ objs item,
                 <[item.1 := Shader.of_text item.1 (default "" (fs !! item.2))]>
                   objs) objs shaders), fs)
    else (inl IOError, fs).
Proof.
  revert objs. induction shaders as [|[name filename] l IH]; intros objs.
  - by rewrite decide_True by constructor.
  - rewrite for_each_io_cons, load_body_eq.
    destruct (fs !! filename) as [text|] eqn:Hf.
    + rewrite IH. destruct (decide (Forall _ l)) as [Hl|Hl].
      * rewrite decide_True; [simpl; by rewrite Hf|].
        constructor; [simpl; by rewrite Hf|done].
      * rewrite decide_False; [done|]. by intros [_ ?]%Forall_cons.
    + rewrite decide_False; [done|].
      intros [[? Hs] _]%Forall_cons. simpl in Hs. by rewrite Hf in Hs.
Qed.

Lemma load_shaders_eq shaders fs :
  load_shaders shaders fs
  = if decide (Forall (λ item, is_Some (fs !! item.2)) shaders)
    then (inr (stage_objects shaders fs), fs) else (inl IOError, fs).
Proof. apply load_loop_eq. Qed.

Lemma render_subs progs history objs subs :
  render progs history objs = inr subs →
  ∃ h i src,
    subs = <["Sources" := src]>
             (<["Implementations" := i]> (<["Headers" := h]> ∅)).
Proof.
  unfold render.
  destruct (map_result Program.Header progs) as [|hs]; [done|]. simpl.
  destruct (map_result Program.Implementation progs) as [|ims]; [done|]. simpl.
  intros [= <-]. eauto.
Qed.

(** [main] is the loading of the stages, the computation of the two
    documents from them, and then the four steps that open and write
    them, each of which may raise. *)
Lemma main_eq shaders programs fs :
  main_with shaders programs fs
  = match (load_shaders shaders fs).1 with
    | inl e => (inl e, fs)
    | inr objs =>
        match documents programs shaders.*1 objs with
        | inl e => (inl e, fs)
        | inr (h, i) => write_outcome h i fs
        end
    end.
Proof.
  pose proof (load_loop_state shaders ∅ fs) as Hst.
  unfold main_with, documents, load_shaders, write_outcome in *.
  generalize (shaders.*1). intros history.
  cbv [mbind io_bind result_bind lift mret io_ret result_ret].
  destruct (for_each load_body ∅ shaders fs) as [[e|objs] fs'];
    cbv [fst snd] in *; subst fs'; [done|].
  destruct (build_programs programs objs) as [e|progs]; [done|].
  destruct (render progs history objs) as [e|subs] eqn:Hsubs; [done|].
  apply render_subs in Hsubs as (h & i & src & ->).
  rewrite !header_subst, !implementation_subst.
  cbv [open_w write].
  destruct (can_open header_path); [|done].
  rewrite !lookup_insert_eq. cbv [default id].
  assert (∀ t, "" +:+ t = t) as Hnil by done.
  rewrite !Hnil.
  destruct (write_fault header_path (header_doc h)) as [part|].
  { f_equal. apply insert_insert_eq. }
  rewrite (insert_insert_eq fs header_path).
  destruct (can_open implementation_path); [|done].
  rewrite !lookup_insert_eq. cbv [default id]. rewrite !Hnil.
  destruct (write_fault implementation_path _) as [part|];
    f_equal; apply insert_insert_eq.
Qed.

(** The same, with the stage objects that the loading gives. *)
Lemma main_stage_eq shaders programs fs :
  main_with shaders programs fs
  = if decide (Forall (λ item, is_Some (fs !! item.2)) shaders) then
      match documents programs shaders.*1 (stage_objects shaders fs) with
      | inl e => (inl e, fs)
      | inr (h, i) => write_outcome h i fs
      end
    else (inl IOError, fs).
Proof.
  rewrite main_eq, load_shaders_eq. by destruct (decide _).
Qed.

End run_more.

Section run_documents.

Context {env : Env}.
Implicit Types (fs : files) (objs : gmap string Shader.t).

Lemma Forall2_left {A B} (R : A → B → Prop) (P : A → Prop) l k :
  Forall2 R l k → (∀ x y, R x y → P x) → Forall P l.
Proof. induction 1; intros HP; constructor; eauto. Qed.

Lemma Forall2_right {A B} (R : A → B → Prop) (P : B → Prop) l k :
  Forall2 R l k → (∀ x y, R x y → P y) → Forall P k.
Proof. induction 1; intros HP; constructor; eauto. Qed.

Lemma stage_objects_extracted shaders fs v sv :
  stage_objects shaders fs !! v = Some sv → extracted sv.
Proof.
  unfold stage_objects.
  assert (∀ objs, (∀ v sv, objs !! v = Some sv → extracted sv) →
          ∀ v sv, foldl (λ objs item,
                    <[item.1 := Shader.of_text item.1
                                  (default "" (fs !! item.2))]> objs)
                    objs shaders !! v = Some sv → extracted sv) as H.
  { induction shaders as [|item l IH]; intros objs Hobjs; [done|].
    simpl. apply IH. intros v' sv'.
    destruct (decide (item.1 = v')) as [<-|Hne].
    - rewrite lookup_insert_eq. intros [= <-].
      apply extracted_of_text. eauto.
    - rewrite lookup_insert_ne by done. apply Hobjs. }
  apply H. intros v' sv'. by rewrite lookup_empty.
Qed.

Lemma built_fields name (vertex fragment : Shader.t) p :
  Program.__init__ name vertex fragment = inr p →
  Program.name p = name ∧ Program.vertex p = vertex
  ∧ Program.fragment p = fragment
  ∧ Program._MakeSlots vertex fragment = inr (Program.slots p)
  ∧ Program.FetchSlots (Program.slots p) = inr (fetch_text (Program.slots p)).
Proof.
  unfold Program.__init__.
  destruct (Program._MakeSlots vertex fragment) as [|slots]; [done|]. simpl.
  destruct (Program.FetchSlots slots) as [|fetch] eqn:Hfetch; [done|]. simpl.
  intros [= <-]. simpl. split_and!; try done.
  rewrite Hfetch. f_equal. by apply FetchSlots_inv.
Qed.

Lemma built_texts p :
  built p →
  Program.Header p = inr (class_text p)
  ∧ Program.Implementation p = inr (ctor_text p).
Proof.
  intros (name & v & f & Hp).
  destruct (built_fields _ _ _ _ Hp) as (Hn & Hv & Hf & _ & Hfetch).
  destruct (built_program_texts _ _ _ _ Hp) as (Hh & fetch & Hfetch' & Hi).
  unfold class_text, ctor_text. rewrite Hn, Hv, Hf. split; [done|].
  rewrite Hi. rewrite Hfetch in Hfetch'. by injection Hfetch' as <-.
Qed.

Lemma map_result_loop {A B} (f : A → result B) (g : A → B) l acc :
  Forall (λ x, f x = inr (g x)) l →
  for_each (λ acc x, y ← f x; mret (acc ++ [y])) acc l = inr (acc ++ (g <$> l)).
Proof.
  intros Hl. revert acc. induction Hl as [|x l Hx _ IH]; intros acc.
  - simpl. by rewrite (right_id_L [] (++)).
  - simpl. rewrite Hx. simpl. rewrite IH. by rewrite <-(assoc_L (++)).
Qed.

Lemma map_result_eq {A B} (f : A → result B) (g : A → B) l :
  Forall (λ x, f x = inr (g x)) l → map_result f l = inr (g <$> l).
Proof. apply (map_result_loop f g l []). Qed.

Lemma render_built progs history objs :
  Forall built progs →
  render progs history objs
  = inr (<["Sources" := Py.join (Py.NL +:+ Py.NL)
                          (Shader.QuotedSource
                             <$> itervalues history objs)]>
          (<["Implementations" := Py.join (Py.NL +:+ Py.NL)
                                    (ctor_text <$> progs)]>
            (<["Headers" := Py.join (Py.NL +:+ Py.NL)
                              (class_text <$> progs)]> ∅))).
Proof.
  intros Hb. unfold render.
  assert (map_result Program.Header progs = inr (class_text <$> progs)) as ->.
  { apply map_result_eq. eapply Forall_impl; [exact Hb|].
    by intros p [? _]%built_texts. }
  assert (map_result Program.Implementation progs
          = inr (ctor_text <$> progs)) as ->.
  { apply map_result_eq. eapply Forall_impl; [exact Hb|].
    by intros p [_ ?]%built_texts. }
  reflexivity.
Qed.

Lemma build_body_eq objs acc name v f :
  build_body objs acc (name, v, f)
  = match objs !! v, objs !! f with
    | Some sv, Some sf =>
        match Program.__init__ name sv sf with
        | inl e => inl e
        | inr p => inr (acc ++ [p])
        end
    | _, _ => inl KeyError
    end.
Proof.
  unfold build_body, getitem.
  destruct (objs !! v); [|done]. simpl.
  destruct (objs !! f); [|done]. simpl.
  by destruct (Program.__init__ _ _ _).
Qed.

(** What the second loop of [main] has appended when it ends. *)
Lemma build_loop_inv objs programs acc progs :
  for_each (build_body objs) acc programs = inr progs →
  ∃ new, progs = acc ++ new
         ∧ Forall2 (λ item p, ∃ sv sf,
               objs !! item.1.2 = Some sv ∧ objs !! item.2 = Some sf
               ∧ Program.__init__ item.1.1 sv sf = inr p) programs new.
Proof.
  revert acc. induction programs as [|[[name v] f] l IH]; intros acc.
  - intros [= <-]. exists []. by rewrite (right_id_L [] (++)).
  - change (for_each (build_body objs) acc ((name, v, f) :: l))
      with (build_body objs acc (name, v, f)
            ≫= λ st', for_each (build_body objs) st' l).
    rewrite build_body_eq.
    destruct (objs !! v) as [sv|] eqn:Hv; [|done].
    destruct (objs !! f) as [sf|] eqn:Hf; [|done].
    destruct (Program.__init__ name sv sf) as [|p] eqn:Hp; [done|]. simpl.
    intros (new & -> & Hnew)%IH. exists (p :: new).
    rewrite <-(assoc_L (++)). split; [done|].
    constructor; [|done]. by exists sv, sf.
Qed.

Lemma build_loop_ok objs programs acc :
  Forall (λ item, ∃ sv sf p,
            objs !! item.1.2 = Some sv ∧ objs !! item.2 = Some sf
            ∧ Program.__init__ item.1.1 sv sf = inr p) programs →
  ∃ progs, for_each (build_body objs) acc programs = inr progs.
Proof.
  intros H. revert acc.
  induction H as [|[[name v] f] l (sv & sf & p & Hv & Hf & Hp) _ IH];
    intros acc; [by eexists|].
  change (for_each (build_body objs) acc ((name, v, f) :: l))
    with (build_body objs acc (name, v, f)
          ≫= λ st', for_each (build_body objs) st' l).
  rewrite build_body_eq. simpl in Hv, Hf, Hp. rewrite Hv, Hf, Hp. simpl.
  apply IH.
Qed.

Lemma init_extracted name (sv sf : Shader.t) :
  extracted sv → extracted sf →
  (∃ p, Program.__init__ name sv sf = inr p)
  ↔ NoDup (Slot.name <$> Shader.slots sv ++ Shader.slots sf).
Proof.
  intros Hsv Hsf. rewrite init_decide. simpl.
  destruct (decide (NoDup _)) as [Hnd|Hnd].
  - rewrite decide_True.
    + split; [done|]. intros _. by eexists.
    + apply Forall_app. split; by apply extracted_kinds.
  - split; [by intros [? ?]|done].
Qed.

Lemma build_programs_stage_objects shaders programs fs :
  (∃ progs, build_programs programs (stage_objects shaders fs) = inr progs)
  ↔ Forall (bindable (stage_objects shaders fs)) programs.
Proof.
  unfold build_programs. split.
  - intros [progs (new & _ & Hnew)%build_loop_inv].
    apply (Forall2_left _ _ _ _ Hnew).
    intros item p (sv & sf & Hv & Hf & Hp).
    exists sv, sf. split_and!; [done..|].
    apply (init_extracted item.1.1); eauto using stage_objects_extracted.
  - intros H. apply build_loop_ok.
    eapply Forall_impl; [exact H|].
    intros item (sv & sf & Hv & Hf & Hnd).
    apply (init_extracted item.1.1) in Hnd as [p Hp];
      eauto 10 using stage_objects_extracted.
Qed.

Lemma documents_built programs history objs progs :
  build_programs programs objs = inr progs →
  Forall built progs
  ∧ Program.name <$> progs = (λ item, item.1.1) <$> programs
  ∧ documents programs history objs
    = inr (header_doc (Py.join (Py.NL +:+ Py.NL) (class_text <$> progs)),
           implementation_doc
             (Py.join (Py.NL +:+ Py.NL)
                (Shader.QuotedSource <$> itervalues history objs))
             (Py.join (Py.NL +:+ Py.NL) (ctor_text <$> progs))).
Proof.
  intros Hb. pose proof Hb as (new & Heq & Hnew)%build_loop_inv.
  simpl in Heq. subst new.
  assert (Forall built progs) as Hbuilt.
  { apply (Forall2_right _ _ _ _ Hnew).
    intros item p (sv & sf & _ & _ & Hp). by exists item.1.1, sv, sf. }
  split_and!; [done| |].
  - clear Hb Hbuilt. induction Hnew as [|item p l k (sv & sf & _ & _ & Hp) _ IH];
      [done|].
    rewrite !fmap_cons, IH. f_equal.
    by destruct (built_fields _ _ _ _ Hp) as [? _].
  - unfold documents. rewrite Hb. cbv [mbind result_bind].
    rewrite render_built by done.
    by rewrite header_subst, implementation_subst.
Qed.

Lemma documents_fail programs history objs e :
  build_programs programs objs = inl e →
  documents programs history objs = inl e.
Proof. unfold documents. by intros ->. Qed.

(** The stage objects depend on the stage files only. *)
Lemma load_agree shaders fs1 fs2 :
  (∀ p, p ∈ shaders.*2 → fs1 !! p = fs2 !! p) →
  (load_shaders shaders fs1).1 = (load_shaders shaders fs2).1.
Proof.
  intros Hagree. unfold load_shaders.
  generalize (∅ : gmap string Shader.t).
  induction shaders as [|[name filename] l IH]; intros objs; [done|].
  rewrite !for_each_io_cons, !load_body_eq.
  rewrite <-(Hagree filename) by (rewrite fmap_cons; apply list_elem_of_here).
  destruct (fs1 !! filename); [|done].
  apply IH. intros p Hp. apply Hagree. rewrite fmap_cons.
  by apply list_elem_of_further.
Qed.

End run_documents.

Section run_theorems.

Context {env : Env}.
Implicit Types (fs : files).

Lemma stage_objects_dom shaders fs name :
  is_Some (stage_objects shaders fs !! name) ↔ name ∈ shaders.*1.
Proof.
  unfold stage_objects.
  assert (∀ objs : gmap string Shader.t,
            is_Some (foldl (λ objs item,
                       <[item.1 := Shader.of_text item.1
                                     (default "" (fs !! item.2))]> objs)
                       objs shaders !! name)
            ↔ is_Some (objs !! name) ∨ name ∈ shaders.*1) as H.
  { induction shaders as [|item l IH]; intros objs.
    - simpl. rewrite elem_of_nil. tauto.
    - rewrite fmap_cons, elem_of_cons. simpl.
      rewrite IH, lookup_insert_is_Some.
      destruct (decide (item.1 = name)) as [Heq|Hne].
      + split; intros _; [right; left; done|left; left; done].
      + split.
        * intros [[?|[_ ?]]|?]; [done|by left|by right; right].
        * intros [?|[?|?]]; [left; right; done|congruence|by right]. }
  rewrite H, lookup_empty, is_Some_alt. tauto.
Qed.

Lemma main_succeeds_iff shaders programs fs :
  (main_with shaders programs fs).1 = inr ()
  ↔ Forall (λ item, is_Some (fs !! item.2)) shaders
    ∧ Forall (bindable (stage_objects shaders fs)) programs
    ∧ can_open header_path = true
    ∧ can_open implementation_path = true
    ∧ ∀ h i,
        documents programs shaders.*1 (stage_objects shaders fs) = inr (h, i) →
        write_fault header_path h = None
        ∧ write_fault implementation_path i = None.
Proof.
  rewrite main_stage_eq.
  destruct (decide (Forall _ shaders)) as [Hsh|Hsh];
    [|split; [done|by intros [? _]]].
  rewrite <-build_programs_stage_objects.
  destruct (build_programs programs (stage_objects shaders fs))
    as [e|progs] eqn:Hb.
  - rewrite (documents_fail _ _ _ _ Hb). split; [done|].
    by intros (_ & [? ?] & _).
  - destruct (documents_built _ shaders.*1 _ _ Hb) as (_ & _ & ->).
    set (h := header_doc _). set (i := implementation_doc _ _).
    unfold write_outcome.
    destruct (can_open header_path);
      [|split; [done|by intros (_ & _ & ? & _)]].
    destruct (write_fault header_path h) as [part|] eqn:Hwh.
    { split; [done|]. intros (_ & _ & _ & _ & H).
      destruct (H h i eq_refl) as [? _]. congruence. }
    destruct (can_open implementation_path);
      [|split; [done|by intros (_ & _ & _ & ? & _)]].
    destruct (write_fault implementation_path i) as [part|] eqn:Hwi.
    { split; [done|]. intros (_ & _ & _ & _ & H).
      destruct (H h i eq_refl) as [_ ?]. congruence. }
    split; [|done]. intros _. split_and!; [done|by eexists|done..|].
    intros h' i' [= <- <-]. done.
Qed.

Lemma main_documents shaders programs fs :
  (main_with shaders programs fs).1 = inr () →
  ∃ progs,
    build_programs programs (stage_objects shaders fs) = inr progs
    ∧ Program.name <$> progs = (λ item, item.1.1) <$> programs
    ∧ (main_with shaders programs fs).2
      = <[implementation_path :=
            implementation_doc
              (Py.join (Py.NL +:+ Py.NL)
                 (Shader.QuotedSource
                    <$> itervalues shaders.*1 (stage_objects shaders fs)))
              (Py.join (Py.NL +:+ Py.NL) (ctor_text <$> progs))]>
         (<[header_path :=
              header_doc (Py.join (Py.NL +:+ Py.NL) (class_text <$> progs))]>
            fs).
Proof.
  rewrite main_stage_eq.
  destruct (decide (Forall _ shaders)) as [Hsh|Hsh]; [|done].
  destruct (build_programs programs (stage_objects shaders fs))
    as [e|progs] eqn:Hb.
  - by rewrite (documents_fail _ _ _ _ Hb).
  - destruct (documents_built _ shaders.*1 _ _ Hb) as (_ & Hnames & ->).
    unfold write_outcome.
    destruct (can_open header_path); [|done].
    destruct (write_fault header_path _); [done|].
    destruct (can_open implementation_path); [|done].
    destruct (write_fault implementation_path _); [done|].
    intros _. by exists progs.
Qed.

Lemma stage_values_perm shaders fs :
  itervalues shaders.*1 (stage_objects shaders fs)
  ≡ₚ (map_to_list (stage_objects shaders fs)).*2.
Proof. apply itervalues_perm. intros k. apply stage_objects_dom. Qed.

Lemma emitter_sources_eq shaders target source :
  (MakeShadersEmitter_with shaders target source).2
  = source ++ "make_shaders.py"
      :: (iteritems shaders.*1 (dict_literal shaders)).*2.
Proof.
  rewrite iteritems_snd. unfold MakeShadersEmitter_with. cbv [snd].
  rewrite (foldl_snoc_map id), list_fmap_id.
  by rewrite <-(assoc_L (++)).
Qed.

Lemma emitter_sources shaders target source p :
  p ∈ (MakeShadersEmitter_with shaders target source).2
  ↔ p ∈ source ∨ p = "make_shaders.py"
    ∨ ∃ name, dict_literal shaders !! name = Some p.
Proof.
  rewrite emitter_sources_eq, iteritems_snd, elem_of_app, elem_of_cons.
  rewrite elem_of_itervalues.
  split; (intros [?|[?|H]]; [by left|by right; left|right; right]).
  - destruct H as (k & _ & Hk). by exists k.
  - destruct H as (k & Hk). exists k. split; [|done].
    apply dict_literal_dom. by eexists.
Qed.

Lemma main_depends_on_stage_files shaders programs fs1 fs2 :
  (∀ p, p ∈ shaders.*2 → fs1 !! p = fs2 !! p) →
  (main_with shaders programs fs1).1 = (main_with shaders programs fs2).1
  ∧ ∀ t, t ∈ [header_path; implementation_path] →
      (main_with shaders programs fs1).1 = inr () →
      (main_with shaders programs fs1).2 !! t
      = (main_with shaders programs fs2).2 !! t.
Proof.
  intros Hagree. rewrite !main_eq, (load_agree _ _ _ Hagree).
  destruct (load_shaders shaders fs2).1 as [e|objs]; [done|].
  destruct (documents programs shaders.*1 objs) as [e|[h i]]; [done|].
  unfold write_outcome.
  destruct (can_open header_path); [|done].
  destruct (write_fault header_path h); [done|].
  destruct (can_open implementation_path); [|done].
  destruct (write_fault implementation_path i); [done|].
  split; [done|]. intros t Ht _. cbv [snd].
  apply elem_of_cons in Ht as [->|Ht].
  - by rewrite !(lookup_insert_ne _ implementation_path header_path),
      !lookup_insert_eq by done.
  - apply list_elem_of_singleton in Ht as ->. by rewrite !lookup_insert_eq.
Qed.

Lemma main_touches_only_documents shaders programs fs p :
  p ∉ [header_path; implementation_path] →
  (main_with shaders programs fs).2 !! p = fs !! p.
Proof.
  intros Hp.
  assert (header_path ≠ p ∧ implementation_path ≠ p) as [Hh Hi].
  { split; intros <-; apply Hp; [apply list_elem_of_here|].
    apply list_elem_of_further, list_elem_of_here. }
  rewrite main_eq.
  destruct (load_shaders shaders fs).1 as [e|objs]; [done|].
  destruct (documents programs shaders.*1 objs) as [e|[h i]]; [done|].
  unfold write_outcome.
  destruct (can_open header_path); [|done].
  destruct (write_fault header_path h);
    [cbv [snd]; by rewrite lookup_insert_ne|].
  destruct (can_open implementation_path);
    [|cbv [snd]; by rewrite lookup_insert_ne].
  destruct (write_fault implementation_path i);
    cbv [snd]; by rewrite !lookup_insert_ne.
Qed.

Lemma build_loop_errors shaders fs programs acc e :
  Forall (λ item, item.1.2 ∈ shaders.*1 ∧ item.2 ∈ shaders.*1) programs →
  for_each (build_body (stage_objects shaders fs)) acc programs = inl e →
  e = AssertionError.
Proof.
  intros H. revert acc.
  induction H as [|[[name v] f] l [Hv Hf] _ IH]; intros acc; [done|].
  change (for_each (build_body (stage_objects shaders fs)) acc
            ((name, v, f) :: l))
    with (build_body (stage_objects shaders fs) acc (name, v, f)
          ≫= λ st', for_each (build_body (stage_objects shaders fs)) st' l).
  rewrite build_body_eq. simpl in Hv, Hf.
  destruct (proj2 (stage_objects_dom _ fs _) Hv) as [sv Hsv].
  destruct (proj2 (stage_objects_dom _ fs _) Hf) as [sf Hsf].
  rewrite Hsv, Hsf, init_decide. cbv zeta.
  destruct (decide (NoDup _)); [|by intros [= <-]].
  rewrite decide_True.
  - apply IH.
  - apply Forall_app.
    split; eapply extracted_kinds, stage_objects_extracted; eauto.
Qed.

Lemma main_errors shaders programs fs e :
  Forall (λ item, item.1.2 ∈ shaders.*1 ∧ item.2 ∈ shaders.*1) programs →
  (main_with shaders programs fs).1 = inl e →
  (e = IOError ∧ ¬ Forall (λ item, is_Some (fs !! item.2)) shaders)
  ∨ (e = AssertionError
     ∧ Forall (λ item, is_Some (fs !! item.2)) shaders
     ∧ ¬ Forall (bindable (stage_objects shaders fs)) programs)
  ∨ (e = IOError
     ∧ Forall (λ item, is_Some (fs !! item.2)) shaders
     ∧ Forall (bindable (stage_objects shaders fs)) programs
     ∧ ∃ h i,
         documents programs shaders.*1 (stage_objects shaders fs)
         = inr (h, i)
         ∧ (can_open header_path = false
            ∨ is_Some (write_fault header_path h)
            ∨ can_open implementation_path = false
            ∨ is_Some (write_fault implementation_path i))).
Proof.
  intros Hpr. rewrite main_stage_eq.
  destruct (decide (Forall _ shaders)) as [Hsh|Hsh];
    [|intros [= <-]; by left].
  rewrite <-build_programs_stage_objects.
  destruct (build_programs programs (stage_objects shaders fs))
    as [e'|progs] eqn:Hb.
  - rewrite (documents_fail _ _ _ _ Hb). intros [= <-]. right. left.
    apply build_loop_errors in Hb as ->; [|done].
    split_and!; [done..|]. by intros [? ?].
  - destruct (documents_built _ shaders.*1 _ _ Hb) as (_ & _ & ->).
    set (h := header_doc _). set (i := implementation_doc _ _).
    unfold write_outcome. intros He. right. right.
    assert (e = IOError
            ∧ (can_open header_path = false
               ∨ is_Some (write_fault header_path h)
               ∨ can_open implementation_path = false
               ∨ is_Some (write_fault implementation_path i))) as [-> Hc].
    { destruct (can_open header_path);
        [|injection He as <-; split; [done|by left]].
      destruct (write_fault header_path h);
        [injection He as <-; split; [done|right; left; by eexists]|].
      destruct (can_open implementation_path);
        [|injection He as <-; split; [done|right; right; by left]].
      destruct (write_fault implementation_path i); [|done].
      injection He as <-. split; [done|]. right; right; right. by eexists. }
    split_and!; [done..|by eexists|]. by exists h, i.
Qed.

End run_theorems.

(** X14.  A run stops at the first step that raises, and what it leaves
    depends on how far it came.  When a stage file cannot be read, when
    the documents cannot be computed or when the declarations document
    cannot be opened, it raises and the file system is the one it found.
    Past that point the run is not all-or-nothing: if the write of the
    declarations raises, that document holds a part of its text; if the
    definitions document cannot be opened, the run raises with the
    declarations written in full and the definitions untouched; if the
    write of the definitions raises, that document holds a part of its
    text; otherwise the run returns and both documents are whole. *)
Theorem run_stops_at_the_first_fault {env : Env}
    (shaders : list (string * string))
    (programs : list (string * string * string)) (fs : files) :
  main_with shaders programs fs
  = if decide (Forall (λ item, is_Some (fs !! item.2)) shaders) then
      match documents programs shaders.*1 (stage_objects shaders fs) with
      | inl e => (inl e, fs)
      | inr (h, i) =>
          if can_open header_path then
            match write_fault header_path h with
            | Some part => (inl IOError, <[header_path := part]> fs)
            | None =>
                if can_open implementation_path then
                  match write_fault implementation_path i with
                  | Some part =>
                      (inl IOError,
                       <[implementation_path := part]>
                         (<[header_path := h]> fs))
                  | None =>
                      (inr (),
                       <[implementation_path := i]>
                         (<[header_path := h]> fs))
                  end
                else (inl IOError, <[header_path := h]> fs)
            end
          else (inl IOError, fs)
      end
    else (inl IOError, fs).
Proof. apply main_stage_eq. Qed.

(** When the definitions document cannot be opened, the run raises after
    it has written the declarations. *)
Lemma run_stops_at_the_first_fault_witness :
  let fs : files := {[ "v" := "attribute vec4 pos;"; "f" := "uniform vec4 c;" ]} in
  let run := main_with (env := closed_env [implementation_path])
               [("V", "v"); ("F", "f")] [("P", "V", "F")] fs in
  run.1 = inl IOError
  ∧ run.2 !! header_path = Some (header_doc "class P : public Shader {
 public:
  P();

  GLint CLocation() const { return c_; }
  GLint PosLocation() const { return pos_; }

 private:
  GLint c_;
  GLint pos_;

  DISALLOW_COPY_AND_ASSIGN(P);
};
")
  ∧ run.2 !! implementation_path = None.
Proof.
  intros fs run. unfold run.
  rewrite (run_stops_at_the_first_fault (env := closed_env [implementation_path])
             [("V", "v"); ("F", "f")] [("P", "V", "F")] fs).
  vm_compute. split_and!; reflexivity.
Defined.

(** X15.  A run returns exactly when every stage file of the table can be
    read, every program of the table can be bound (its two stages are in
    the table and no name occurs twice among their slots), both documents
    can be opened, and the writes of their texts do not raise. *)
Theorem run_succeeds_iff {env : Env}
    (shaders : list (string * string))
    (programs : list (string * string * string)) (fs : files) :
  (main_with shaders programs fs).1 = inr ()
  ↔ Forall (λ item, is_Some (fs !! item.2)) shaders
    ∧ Forall (bindable (stage_objects shaders fs)) programs
    ∧ can_open header_path = true
    ∧ can_open implementation_path = true
    ∧ ∀ h i,
        documents programs shaders.*1 (stage_objects shaders fs) = inr (h, i) →
        write_fault header_path h = None
        ∧ write_fault implementation_path i = None.
Proof. apply main_succeeds_iff. Qed.

Lemma run_succeeds_iff_witness :
  let fs : files := {[ "v" := "attribute vec4 pos;"; "f" := "uniform vec4 c;" ]} in
  (main_with (env := plain_env)
     [("V", "v"); ("F", "f")] [("P", "V", "F")] fs).1 = inr ().
Proof.
  intros fs.
  apply (proj2 (run_succeeds_iff (env := plain_env)
                  [("V", "v"); ("F", "f")] [("P", "V", "F")] fs)).
  split_and!.
  - repeat constructor; by eexists.
  - repeat constructor.
    exists (Shader.of_text "V" "attribute vec4 pos;"),
           (Shader.of_text "F" "uniform vec4 c;").
    split_and!; [by vm_compute..|].
    vm_compute. apply NoDup_cons. split; [|apply NoDup_singleton].
    intros Hin%list_elem_of_singleton. discriminate Hin.
  - reflexivity.
  - reflexivity.
  - intros h i _. split; reflexivity.
Defined.

(** X16.  When a run returns, the declarations document is the fixed
    prologue and epilogue around the class declarations of the programs,
    one per program of the table and in the order of the table, separated
    by blank lines; the definitions document holds the constants of the
    stages, in the order in which the dictionary of the stage objects
    enumerates them, and then the constructors of the programs in the
    order of the table.  Whatever that order, every stage of the table
    has its constant once, whether zero, one or several programs use
    it. *)
Theorem run_writes_the_two_documents {env : Env}
    (shaders : list (string * string))
    (programs : list (string * string * string)) (fs : files) :
  (main_with shaders programs fs).1 = inr () →
  ∃ progs,
    build_programs programs (stage_objects shaders fs) = inr progs
    ∧ Program.name <$> progs = (λ item, item.1.1) <$> programs
    ∧ (main_with shaders programs fs).2
      = <[implementation_path :=
            implementation_doc
              (Py.join (Py.NL +:+ Py.NL)
                 (Shader.QuotedSource
                    <$> itervalues shaders.*1 (stage_objects shaders fs)))
              (Py.join (Py.NL +:+ Py.NL) (ctor_text <$> progs))]>
         (<[header_path :=
              header_doc (Py.join (Py.NL +:+ Py.NL) (class_text <$> progs))]>
            fs)
    ∧ itervalues shaders.*1 (stage_objects shaders fs)
      ≡ₚ (map_to_list (stage_objects shaders fs)).*2.
Proof.
  intros (progs & Hb & Hn & Hfs)%main_documents.
  exists progs. split_and!; [done..|]. apply stage_values_perm.
Qed.

Lemma run_writes_the_two_documents_witness :
  let fs : files := {[ "v" := "attribute vec4 pos;"; "f" := "uniform vec4 c;" ]} in
  ∃ progs,
    build_programs [("P", "V", "F"); ("Q", "V", "F")]
      (stage_objects [("V", "v"); ("F", "f")] fs) = inr progs
    ∧ Program.name <$> progs = ["P"; "Q"].
Proof.
  intros fs.
  destruct (run_writes_the_two_documents (env := reversed_env)
              [("V", "v"); ("F", "f")]
              [("P", "V", "F"); ("Q", "V", "F")] fs) as (progs & Hb & Hn & _).
  - vm_compute. reflexivity.
  - exists progs. split; [exact Hb|exact Hn].
Defined.

(** The order of the constants is the one of the environment. *)
Example constants_follow_the_enumeration :
  let fs : files := {[ "v" := "attribute vec4 pos;"; "f" := "uniform vec4 c;" ]} in
  let objs := stage_objects [("V", "v"); ("F", "f")] fs in
  Shader.name <$> itervalues (env := plain_env) ["V"; "F"] objs = ["V"; "F"]
  ∧ Shader.name <$> itervalues (env := reversed_env) ["V"; "F"] objs
    = ["F"; "V"].
Proof. vm_compute. by split. Qed.

(** X17.  The build rule and the run agree, for any literal of the table
    of shaders.  The targets that the emitter declares are the two paths
    that a run writes, and a run changes no other path.  The sources that
    it declares are those it was given, then the script, then the stage
    files in the order in which the run reads them: every file of the
    table; two file systems that agree on them give the same outcome in
    the same environment and, when the run returns, the same two
    documents. *)
Theorem build_rule_covers_the_run {env : Env}
    (shaders : list (string * string))
    (programs : list (string * string * string))
    (target source : list string) :
  let rule := MakeShadersEmitter_with shaders target source in
  rule.1 = [header_path; implementation_path]
  ∧ rule.2 = source ++ "make_shaders.py"
               :: (iteritems shaders.*1 (dict_literal shaders)).*2
  ∧ (∀ p, p ∈ rule.2 ↔ p ∈ source ∨ p = "make_shaders.py"
                        ∨ ∃ name, dict_literal shaders !! name = Some p)
  ∧ (∀ fs1 fs2 : files, (∀ p, p ∈ rule.2 → fs1 !! p = fs2 !! p) →
       (main_of shaders programs fs1).1 = (main_of shaders programs fs2).1
       ∧ ∀ t, t ∈ rule.1 →
           (main_of shaders programs fs1).1 = inr () →
           (main_of shaders programs fs1).2 !! t
           = (main_of shaders programs fs2).2 !! t)
  ∧ (∀ (fs : files) p, p ∉ rule.1 →
       (main_of shaders programs fs).2 !! p = fs !! p).
Proof.
  intros rule. split_and!.
  - reflexivity.
  - apply emitter_sources_eq.
  - intros p. apply emitter_sources.
  - intros fs1 fs2 Hagree. apply main_depends_on_stage_files.
    intros p Hp. apply Hagree. unfold rule.
    rewrite emitter_sources_eq, elem_of_app, elem_of_cons. auto.
  - intros fs p. apply main_touches_only_documents.
Qed.

Lemma build_rule_covers_the_run_witness :
  let fs1 : files := {[ "v" := "attribute vec4 pos;"; "notes" := "a" ]} in
  let fs2 : files := {[ "v" := "attribute vec4 pos;"; "notes" := "b" ]} in
  (main_of (env := plain_env) [("V", "v")] [("P", "V", "V")] fs1).1
  = (main_of (env := plain_env) [("V", "v")] [("P", "V", "V")] fs2).1.
Proof.
  intros fs1 fs2.
  apply (proj1 (proj2 (proj2 (proj2 (build_rule_covers_the_run
                 (env := plain_env) [("V", "v")] [("P", "V", "V")] [] []))))).
  intros p [Hp|[->|[name Hp]]]%emitter_sources.
  - by apply elem_of_nil in Hp.
  - reflexivity.
  - unfold dict_literal in Hp. simpl in Hp.
    apply lookup_singleton_Some in Hp as [_ <-]. reflexivity.
Defined.

(** The rule of the script itself, where the dictionary enumerates its
    keys as they are written. *)
Example rule_of_the_script :
  MakeShadersEmitter (env := plain_env) ["shaders"] ["SConscript"]
  = (["compositor/gles/shaders.h"; "compositor/gles/shaders.cc"],
     ["SConscript"; "make_shaders.py";
      "compositor/gles/tex_color.glslv"; "compositor/gles/tex_color.glslf";
      "compositor/gles/tex_shade.glslv"; "compositor/gles/tex_shade.glslf";
      "compositor/gles/noalpha_color.glslf";
      "compositor/gles/noalpha_shade.glslf"]).
Proof. vm_compute. reflexivity. Qed.

(** The script run where no stage file exists. *)
Example script_without_stage_files :
  main (env := plain_env) ∅ = (inl IOError, ∅)
  ∧ main (env := reversed_env) ∅ = (inl IOError, ∅).
Proof. vm_compute. by split. Qed.

(** X18.  When every program of the table names stages of the table, as
    in the tables of the script, a run can only fail in three ways: with
    an [IOError] when some stage file cannot be read; otherwise with an
    [AssertionError] when some program cannot be bound; otherwise with an
    [IOError] when a document cannot be opened or its write raises.  It
    raises no [KeyError] and no [ValueError]. *)
Theorem run_raises_only_IOError_or_AssertionError {env : Env}
    (shaders : list (string * string))
    (programs : list (string * string * string)) (fs : files) (e : exn) :
  Forall (λ item, item.1.2 ∈ shaders.*1 ∧ item.2 ∈ shaders.*1) programs →
  (main_with shaders programs fs).1 = inl e →
  (e = IOError ∧ ¬ Forall (λ item, is_Some (fs !! item.2)) shaders)
  ∨ (e = AssertionError
     ∧ Forall (λ item, is_Some (fs !! item.2)) shaders
     ∧ ¬ Forall (bindable (stage_objects shaders fs)) programs)
  ∨ (e = IOError
     ∧ Forall (λ item, is_Some (fs !! item.2)) shaders
     ∧ Forall (bindable (stage_objects shaders fs)) programs
     ∧ ∃ h i,
         documents programs shaders.*1 (stage_objects shaders fs)
         = inr (h, i)
         ∧ (can_open header_path = false
            ∨ is_Some (write_fault header_path h)
            ∨ can_open implementation_path = false
            ∨ is_Some (write_fault implementation_path i))).
Proof. apply main_errors. Qed.

Lemma run_raises_only_IOError_or_AssertionError_witness :
  let items := iteritems (env := plain_env) shaders.*1 (dict_literal shaders) in
  (IOError = IOError
   ∧ ¬ Forall (λ item, is_Some ((∅ : files) !! item.2)) items)
  ∨ (IOError = AssertionError
     ∧ Forall (λ item, is_Some ((∅ : files) !! item.2)) items
     ∧ ¬ Forall (bindable (stage_objects items ∅)) programs)
  ∨ (IOError = IOError
     ∧ Forall (λ item, is_Some ((∅ : files) !! item.2)) items
     ∧ Forall (bindable (stage_objects items ∅)) programs
     ∧ ∃ h i,
         documents (env := plain_env) programs items.*1 (stage_objects items ∅)
         = inr (h, i)
         ∧ (can_open (Env := plain_env) header_path = false
            ∨ is_Some (write_fault (Env := plain_env) header_path h)
            ∨ can_open (Env := plain_env) implementation_path = false
            ∨ is_Some (write_fault (Env := plain_env) implementation_path i))).
Proof.
  intros items.
  apply (run_raises_only_IOError_or_AssertionError (env := plain_env)
           items programs ∅ IOError).
  - vm_compute. repeat constructor;
      repeat first [apply list_elem_of_here | apply list_elem_of_further].
  - vm_compute. reflexivity.
Defined.
